(** * salient: the document graph (lib/salient/graph/document.js)

    A shallow embedding of [DocumentGraph]: the key formatting, the ingestion of
    a tagged token stream into Redis counters and sorted sets, the TF-IDF
    computation, weight indexing, term search and cosine similarity.

    Conventions of the model.
    - JavaScript numbers are IEEE-754 binary64 values: Rocq's primitive
      [float], whose operations round exactly as the JavaScript ones do.
    - JavaScript strings are [string]s of 8-bit characters; [toLowerCase] is
      the ASCII one.
    - The Redis server is a finite map from keys to values, one value being a
      string or a sorted set.  Callbacks are run to completion in program order
      (one client, no interleaving), so every method is a function of the store.
    - A command against a key that holds the wrong kind of value is answered
      with an error and leaves the store unchanged.
    - A sorted-set score built only by [ZINCRBY 1] is an integer count and is
      kept as an exact integer; Redis's counters are exact in the range the
      model is meant for (below 2^53 for scores, below 2^63 for [INCRBY]), and
      the model does not bound them.  A score written by [ZADD] is a double.
    - [Math.log] and the text Redis prints for a non-integral score depend on
      the platform; they are parameters of the development.
    - An object used as a map from names to numbers is the finite map of its
      own properties; [__proto__] never becomes one, and an own property named
      [hasOwnProperty] shadows the method, as in JavaScript. *)

From Stdlib Require Import ZArith Floats Ascii String List Bool Lia.
From stdpp Require Import gmap strings list sorting.

Local Open Scope string_scope.
Local Open Scope Z_scope.

(** ** JavaScript values used by the module *)

Module JS.

(** [Number] of a mathematical integer: the nearest double. *)
Definition of_Z (z : Z) : float :=
  SF2Prim (binary_normalize prec emax z 0 false).

(** The nearest double to [m / d] for positive [m] and [d]. *)
Definition of_ratio (m d : positive) : float :=
  SF2Prim (SFdiv prec emax (S754_finite false m 0) (S754_finite false d 0)).

Definition LN10 : float := 0x1.26bb1bbb55516p+1%float.

Definition chars (s : string) : list ascii := list_ascii_of_string s.

(** [s.toLowerCase()] *)
Definition lower_char (c : ascii) : ascii :=
  let n := nat_of_ascii c in
  if (Nat.leb 65 n && Nat.leb n 90)%bool then ascii_of_nat (n + 32) else c.

Fixpoint toLowerCase (s : string) : string :=
  match s with
  | EmptyString => EmptyString
  | String c s' => String (lower_char c) (toLowerCase s')
  end.

(** [args.join(sep)] *)
Fixpoint join (sep : string) (args : list string) : string :=
  match args with
  | [] => ""
  | [a] => a
  | a :: rest => a ++ sep ++ join sep rest
  end.

(** [s.indexOf(p) == 0] *)
Definition starts_with (p s : string) : bool := String.prefix p s.

(** [s.indexOf(p) >= 0] *)
Definition includes (p s : string) : bool :=
  match String.index 0 p s with
  | Some _ => true
  | None => match p with EmptyString => true | _ => false end
  end.

(** [s.slice(n, s.length)] for a non-negative [n] *)
Fixpoint slice_from (n : nat) (s : string) : string :=
  match n, s with
  | O, _ => s
  | S n', String _ s' => slice_from n' s'
  | S _, EmptyString => EmptyString
  end.

(** Truthiness of a string: only the empty string is falsy. *)
Definition truthy (s : string) : bool :=
  match s with EmptyString => false | _ => true end.

(** *** parseInt and parseFloat *)

Definition is_space (c : ascii) : bool :=
  let n := nat_of_ascii c in
  (Nat.eqb n 32 || (Nat.leb 9 n && Nat.leb n 13))%bool.

Fixpoint skip_spaces (l : list ascii) : list ascii :=
  match l with
  | c :: l' => if is_space c then skip_spaces l' else l
  | [] => []
  end.

Definition digit10 (c : ascii) : option Z :=
  let n := nat_of_ascii c in
  if (Nat.leb 48 n && Nat.leb n 57)%bool then Some (Z.of_nat (n - 48)) else None.

Definition digit16 (c : ascii) : option Z :=
  let n := nat_of_ascii c in
  if (Nat.leb 48 n && Nat.leb n 57)%bool then Some (Z.of_nat (n - 48))
  else if (Nat.leb 97 n && Nat.leb n 102)%bool then Some (Z.of_nat (n - 87))
  else if (Nat.leb 65 n && Nat.leb n 70)%bool then Some (Z.of_nat (n - 55))
  else None.

(** The longest run of digits at the head of [l], read in base [radix] on top
    of [acc]; returns the value, the number of digits read and the rest. *)
Fixpoint read_digits (digit : ascii -> option Z) (radix : Z)
    (l : list ascii) (acc : Z) (cnt : nat) : Z * nat * list ascii :=
  match l with
  | c :: l' =>
      match digit c with
      | Some d => read_digits digit radix l' (radix * acc + d) (S cnt)
      | None => (acc, cnt, l)
      end
  | [] => (acc, cnt, [])
  end.

Definition read_sign (l : list ascii) : bool * list ascii :=
  match l with
  | c :: l' =>
      if Ascii.eqb c "-" then (true, l')
      else if Ascii.eqb c "+" then (false, l')
      else (false, l)
  | [] => (false, [])
  end.

Definition signed (neg : bool) (x : float) : float :=
  if neg then PrimFloat.opp x else x.

(** Whether the text starts with the radix marker [0x] or [0X]. *)
Definition hex_marked (l : list ascii) : bool :=
  match l with
  | c1 :: c2 :: _ => Ascii.eqb c1 "0" && (Ascii.eqb c2 "x" || Ascii.eqb c2 "X")
  | _ => false
  end.

(** [parseInt(s)] with no radix argument. *)
Definition parseInt (s : string) : float :=
  let '(neg, l) := read_sign (skip_spaces (chars s)) in
  let '(v, cnt, _) :=
    if hex_marked l then read_digits digit16 16 (drop 2 l) 0 O
    else read_digits digit10 10 l 0 O in
  match cnt with
  | O => PrimFloat.nan
  | S _ => signed neg (of_Z v)
  end.

(** The exponent part [e[+-]digits] of a decimal literal, 0 when absent. *)
Definition read_exponent (l : list ascii) : Z :=
  match l with
  | c :: l' =>
      if Ascii.eqb c "e" || Ascii.eqb c "E" then
        let '(neg, l'') := read_sign l' in
        let '(v, cnt, _) := read_digits digit10 10 l'' 0 O in
        match cnt with
        | O => 0
        | S _ => if neg then - v else v
        end
      else 0
  | [] => 0
  end.

(** The double nearest to [m * 10^e], for [m >= 0]. *)
Definition of_decimal (m e : Z) : float :=
  match m with
  | Zpos p =>
      match e with
      | Zneg k => of_ratio p (Pos.pow 10 k)
      | _ => of_Z (m * 10 ^ e)
      end
  | _ => PrimFloat.zero
  end.

Definition is_Infinity (l : list ascii) : bool :=
  String.prefix "Infinity" (string_of_list_ascii l).

(** [parseFloat(s)]: the longest decimal literal at the head of [s]. *)
Definition parseFloat (s : string) : float :=
  let '(neg, l) := read_sign (skip_spaces (chars s)) in
  if is_Infinity l then signed neg PrimFloat.infinity else
  let '(ip, icnt, l1) := read_digits digit10 10 l 0 O in
  let '(m, fcnt, l2) :=
    match l1 with
    | c :: l1' =>
        if Ascii.eqb c "." then read_digits digit10 10 l1' ip O else (ip, O, l1)
    | [] => (ip, O, l1)
    end in
  match icnt, fcnt with
  | O, O => PrimFloat.nan
  | _, _ => signed neg (of_decimal m (read_exponent l2 - Z.of_nat fcnt))
  end.

(** Decimal text of an integer, as Redis and [String(n)] print it. *)
Definition digit_char (d : Z) : ascii := ascii_of_nat (48 + Z.to_nat d).

Fixpoint digits (fuel : nat) (n : Z) : list ascii :=
  match fuel with
  | O => []
  | S f => ((if n <? 10 then [] else digits f (n / 10)) ++ [digit_char (n mod 10)])%list
  end.

Definition string_of_Z (z : Z) : string :=
  if z <? 0
  then String "-" (string_of_list_ascii (digits (S (Z.to_nat (Z.log2 (- z)))) (- z)))
  else string_of_list_ascii (digits (S (Z.to_nat (Z.log2 z))) z).

(** *** Plain objects used as maps from names to numbers *)

(** The own properties of an object that starts as [{}] and to which only
    numbers are assigned. *)
Abbreviation object := (gmap string float).

(** [o[k] = v] for a number [v].  The name [__proto__] reaches the setter
    that [Object.prototype] has for it, which ignores a value that is neither
    an object nor null: no own property is made.  Every other name becomes an
    own property, also one that [Object.prototype] has too. *)
Definition assign (o : object) (k : string) (v : float) : object :=
  if String.eqb k "__proto__" then o else <[k := v]> o.

(** [o.hasOwnProperty(k)].  The method is looked up on the object first: once
    the object has an own property named [hasOwnProperty], the call is a call
    of a number and throws a TypeError, which is [None]. *)
Definition hasOwnProperty (o : object) (k : string) : option bool :=
  match o !! "hasOwnProperty" with
  | Some _ => None
  | None => Some (match o !! k with Some _ => true | None => false end)
  end.

(** [o[k]] where a number is wanted: the number of an own property; anything
    else, [undefined] or what [Object.prototype] provides, converts to NaN. *)
Definition number_at (o : object) (k : string) : float :=
  default PrimFloat.nan (o !! k).

End JS.

(** ** The Redis commands the module issues *)

Module Redis.

(** A score of a sorted set: an integer count, or a double. *)
Inductive score :=
  | Count (n : Z)
  | Weight (x : float).

Inductive rvalue :=
  | RString (s : string)
  | RZSet (z : gmap string score).

Abbreviation store := (gmap string rvalue).

(** What a single-value command answers: nil, a bulk string, or an error. *)
Inductive reply :=
  | RNil
  | RBulk (s : string)
  | RErr.

(** The integer a string value holds, when it is the canonical decimal text of
    one (what [INCRBY] accepts). *)
Definition string2ll (s : string) : option Z :=
  let '(neg, l) :=
    match JS.chars s with
    | c :: l' => if Ascii.eqb c "-" then (true, l') else (false, c :: l')
    | [] => (false, [])
    end in
  let '(v, _, _) := JS.read_digits JS.digit10 10 l 0 O in
  let z := if neg then - v else v in
  if String.eqb (JS.string_of_Z z) s then Some z else None.

(** SET key value *)
Definition set (st : store) (k v : string) : store :=
  <[k := RString v]> st.

(** GET key *)
Definition get (st : store) (k : string) : reply :=
  match st !! k with
  | None => RNil
  | Some (RString s) => RBulk s
  | Some (RZSet _) => RErr
  end.

(** INCRBY key n *)
Definition incrby (st : store) (k : string) (n : Z) : store :=
  match st !! k with
  | None => <[k := RString (JS.string_of_Z n)]> st
  | Some (RString s) =>
      match string2ll s with
      | Some z => <[k := RString (JS.string_of_Z (z + n))]> st
      | None => st
      end
  | Some (RZSet _) => st
  end.

Definition score_add (s : score) (n : Z) : score :=
  match s with
  | Count c => Count (c + n)
  | Weight x => Weight (PrimFloat.add x (JS.of_Z n))
  end.

Definition zset_incr (z : gmap string score) (n : Z) (m : string) : gmap string score :=
  match z !! m with
  | None => <[m := Count n]> z
  | Some s => <[m := score_add s n]> z
  end.

(** ZINCRBY key n member *)
Definition zincrby (st : store) (k : string) (n : Z) (m : string) : store :=
  match st !! k with
  | None => <[k := RZSet (zset_incr ∅ n m)]> st
  | Some (RZSet z) => <[k := RZSet (zset_incr z n m)]> st
  | Some (RString _) => st
  end.

(** ZADD key score member: the new store and whether the reply is truthy (the
    reply is the number of members added, 1 or 0; a NaN score or a key of the
    wrong kind is an error). *)
Definition zadd (st : store) (k : string) (x : float) (m : string) : store * bool :=
  if PrimFloat.is_nan x then (st, false) else
  match st !! k with
  | None => (<[k := RZSet {[ m := Weight x ]}]> st, true)
  | Some (RZSet z) =>
      (<[k := RZSet (<[m := Weight x]> z)]> st,
       match z !! m with None => true | Some _ => false end)
  | Some (RString _) => (st, false)
  end.

(** MGET key ...: a key that is absent or holds no string answers nil. *)
Definition mget (st : store) (ks : list string) : list reply :=
  (fun k => match st !! k with
            | Some (RString s) => RBulk s
            | _ => RNil
            end) <$> ks.

(** ZCARD key; [None] is the error reply. *)
Definition zcard (st : store) (k : string) : option Z :=
  match st !! k with
  | None => Some 0
  | Some (RZSet z) => Some (Z.of_nat (size z))
  | Some (RString _) => None
  end.

Definition score_value (s : score) : float :=
  match s with
  | Count n => JS.of_Z n
  | Weight x => x
  end.

(** The order of a sorted set: by score, then by member. *)
Definition entry_leb (a b : string * score) : bool :=
  let lt :=
    match a.2, b.2 with
    | Count x, Count y => x <? y
    | sa, sb => PrimFloat.ltb (score_value sa) (score_value sb)
    end in
  let eq :=
    match a.2, b.2 with
    | Count x, Count y => x =? y
    | sa, sb => PrimFloat.eqb (score_value sa) (score_value sb)
    end in
  (lt || (eq && String.leb a.1 b.1))%bool.

Fixpoint insert_sorted (e : string * score) (l : list (string * score)) :
    list (string * score) :=
  match l with
  | [] => [e]
  | h :: t => if entry_leb e h then e :: h :: t else h :: insert_sorted e t
  end.

Definition sorted_entries (z : gmap string score) : list (string * score) :=
  foldr insert_sorted [] (map_to_list z).

(** The elements of [l] a [start stop] index pair selects: indexes are
    inclusive, and a negative one counts from the end. *)
Definition range {A} (l : list A) (start stop : Z) : list A :=
  let len := Z.of_nat (length l) in
  let start := if start <? 0 then Z.max 0 (start + len) else start in
  let stop := if stop <? 0 then stop + len else stop in
  let stop := Z.min stop (len - 1) in
  if (stop <? start) || (len <=? start) then []
  else take (Z.to_nat (stop - start + 1)) (drop (Z.to_nat start) l).

Section Replies.

(** The text Redis prints for a score that is not an integer count. *)
Variable format_double : float -> string.

Definition format_score (s : score) : string :=
  match s with
  | Count n => JS.string_of_Z n
  | Weight x => format_double x
  end.

(** ZSCORE key member *)
Definition zscore (st : store) (k m : string) : reply :=
  match st !! k with
  | None => RNil
  | Some (RZSet z) =>
      match z !! m with
      | Some s => RBulk (format_score s)
      | None => RNil
      end
  | Some (RString _) => RErr
  end.

(** The entries of the sorted set at [k], ascending; [None] is the error. *)
Definition zentries (st : store) (k : string) : option (list (string * score)) :=
  match st !! k with
  | None => Some []
  | Some (RZSet z) => Some (sorted_entries z)
  | Some (RString _) => None
  end.

(** ZRANGE key start stop *)
Definition zrange (st : store) (k : string) (start stop : Z) : option (list string) :=
  (fun l => fst <$> range l start stop) <$> zentries st k.

Definition withscores (l : list (string * score)) : list string :=
  flat_map (fun e => [e.1; format_score e.2]) l.

(** ZRANGE key start stop WITHSCORES: member, score, member, score, ... *)
Definition zrange_withscores (st : store) (k : string) (start stop : Z) :
    option (list string) :=
  (fun l => withscores (range l start stop)) <$> zentries st k.

(** ZREVRANGE key start stop WITHSCORES *)
Definition zrevrange_withscores (st : store) (k : string) (start stop : Z) :
    option (list string) :=
  (fun l => withscores (range (reverse l) start stop)) <$> zentries st k.

End Replies.

(** *** KEYS pattern *)

(** The bracket class at the head of a pattern (after the opening bracket and
    a possible [^]): whether it holds [c], and the pattern after the class. *)
Fixpoint class_scan (p : list ascii) (c : ascii) (hit : bool) : bool * list ascii :=
  match p with
  | [] => (hit, [])
  | "]"%char :: p' => (hit, p')
  | "092"%char :: x :: p' => class_scan p' c (hit || Ascii.eqb x c)
  | lo :: "-"%char :: hi :: p' =>
      let a := nat_of_ascii (if Nat.ltb (nat_of_ascii hi) (nat_of_ascii lo) then hi else lo) in
      let b := nat_of_ascii (if Nat.ltb (nat_of_ascii hi) (nat_of_ascii lo) then lo else hi) in
      class_scan p' c (hit || (Nat.leb a (nat_of_ascii c) && Nat.leb (nat_of_ascii c) b))
  | x :: p' => class_scan p' c (hit || Ascii.eqb x c)
  end.

(** Glob matching of a key against a pattern, with fuel for the pattern. *)
Fixpoint glob (fuel : nat) (p : list ascii) {struct fuel} : list ascii -> bool :=
  match fuel with
  | O => fun _ => false
  | S fuel' =>
      match p with
      | [] => fun s => match s with [] => true | _ => false end
      | "*"%char :: p' =>
          fix star (s : list ascii) : bool :=
            (glob fuel' p' s ||
             match s with
             | [] => false
             | _ :: s' => star s'
             end)%bool
      | "?"%char :: p' =>
          fun s => match s with [] => false | _ :: s' => glob fuel' p' s' end
      | "["%char :: p' =>
          fun s =>
            match s with
            | [] => false
            | c :: s' =>
                let '(neg, body) :=
                  match p' with
                  | "^"%char :: b => (true, b)
                  | b => (false, b)
                  end in
                let '(hit, rest) := class_scan body c false in
                (xorb neg hit && glob fuel' rest s')%bool
            end
      | "092"%char :: x :: p' =>
          fun s =>
            match s with
            | [] => false
            | c :: s' => (Ascii.eqb x c && glob fuel' p' s')%bool
            end
      | x :: p' =>
          fun s =>
            match s with
            | [] => false
            | c :: s' => (Ascii.eqb x c && glob fuel' p' s')%bool
            end
      end
  end.

Definition glob_match (pattern key : string) : bool :=
  glob (S (String.length pattern)) (JS.chars pattern) (JS.chars key).

(** KEYS pattern: the keys of the store that match, in the store's order. *)
Definition keys (st : store) (pattern : string) : list string :=
  filter (fun k => glob_match pattern k = true) (fst <$> map_to_list st).

End Redis.

(** ** DocumentGraph *)

Module DocumentGraph.
Import Redis.

(** The options of the constructor that the graph logic reads. *)
Record options := {
  nsPrefix : string;
  separator : string;
  searchLimit : Z
}.

Definition defaultOptions : options :=
  {| nsPrefix := ""; separator := ":"; searchLimit := 100 |}.

Definition TOTAL : string := "t".
Definition NEXT : string := "<".
Definition WEIGHT : string := "w".
Definition CONTENT : string := "^".

(** A tagged term as the glossary's [toJSON] gives it.  A missing [tag] or
    [distinct] is the empty string, which is as falsy as [undefined]. *)
Record node := {
  tag : string;
  term : string;
  distinct : string;
  isFiltered : bool
}.

(** One element of the glossary's linked list: the node's own fields, and the
    [orig] and [children] fields when it stands for a group. *)
Record token := {
  self : node;
  orig : option node;
  children : option (list node)
}.

(** An argument of [_fmt]: a string or a node object. *)
Inductive fmt_arg :=
  | Str (s : string)
  | Node (n : node).

(** What [TFIDF] hands to its callback.  [df] is the raw ZCARD reply: a
    number, or [None] for an error reply, which is NaN in arithmetic. *)
Record tfidf_result := {
  key : string;
  rawtf : float;
  df : option Z;
  n : float;
  idf : float;
  tf : float;
  tfidf : float
}.

(** The replies of the MULTI block of [TFIDF]; the fourth is there only when a
    document id was given. *)
Record multi_results := {
  results0 : reply;
  results1 : reply;
  results2 : option Z;
  results3 : option reply
}.

(** [parseInt] of a reply: nil and errors have no leading digits. *)
Definition parseInt_reply (r : reply) : float :=
  match r with
  | RBulk s => JS.parseInt s
  | RNil | RErr => PrimFloat.nan
  end.

Definition number_of_card (c : option Z) : float :=
  match c with
  | Some z => JS.of_Z z
  | None => PrimFloat.nan
  end.

(** How a call of a method that takes a callback ends: [callback(null, a)],
    [callback(err)], or a TypeError that escapes before the callback is
    called. *)
Inductive outcome (A : Type) : Type :=
  | Returned (a : A)
  | Failed
  | Thrown.

Arguments Returned {A} a.
Arguments Failed {A}.
Arguments Thrown {A}.

Section Graph.

Variable opts : options.

(** The glossary: the token list that [parse] leaves behind [root]. *)
Variable gloss_parse : string -> list token.

Variable Math_log : float -> float.

Variable format_double : float -> string.

Definition _fmt (arguments : list fmt_arg) : string :=
  let args := if (0 <? String.length (nsPrefix opts))%nat then [nsPrefix opts] else [] in
  let args :=
    fold_left
      (fun args a =>
         match a with
         | Node n =>
             if JS.truthy (tag n)
             then (args ++ [JS.toLowerCase (tag n);
                            if JS.truthy (distinct n) then distinct n
                            else JS.toLowerCase (term n)])%list
             else args
         | Str s => if (0 <? String.length s)%nat then (args ++ [s])%list else args
         end)
      arguments args in
  JS.join (separator opts) args.

Definition _fmtNode (n : node) : string :=
  let args :=
    if JS.truthy (tag n)
    then [JS.toLowerCase (tag n);
          if JS.truthy (distinct n) then distinct n else JS.toLowerCase (term n)]
    else [] in
  JS.join (separator opts) args.

Definition _prefixes : list string :=
  [_fmt [Str TOTAL] ++ separator opts;
   _fmt [Str NEXT] ++ separator opts;
   _fmt [Str CONTENT] ++ separator opts;
   _fmt [Str WEIGHT] ++ separator opts].

Definition _incrEdges (st : store) (id key : string) (prevKey : option string) :
    store * string :=
  let st := incrby st (_fmt [Str TOTAL; Str key]) 1 in
  let st := zincrby st (_fmt [Str id]) 1 key in
  let st := zincrby st (_fmt [Str key]) 1 id in
  let st :=
    match prevKey with
    | Some p => if JS.truthy p then zincrby st (_fmt [Str NEXT; Str p]) 1 key else st
    | None => st
    end in
  (st, key).

Definition _isPrefixed (id : string) : bool :=
  existsb (fun p => JS.starts_with p id) _prefixes.

(** The body of the [do ... while] loop of [readDocument] for one token. *)
Definition readToken (id : string) (acc : store * option string) (s : token) :
    store * option string :=
  let '(st, prev) := acc in
  let edge (acc : store * option string) (n : node) :=
    let '(st', k) := _incrEdges acc.1 id (_fmtNode n) acc.2 in (st', Some k) in
  match children s, orig s with
  | None, None =>
      if negb (isFiltered (self s)) then edge (st, prev) (self s) else (st, prev)
  | Some cs, Some o =>
      if negb (isFiltered (self s)) then
        let acc := if negb (isFiltered o) then edge (st, prev) o else (st, prev) in
        fold_left (fun acc c => if negb (isFiltered c) then edge acc c else acc) cs acc
      else (st, prev)
  | _, _ => (st, prev)
  end.

(** [getContents(ids, callback)]: the replies the callback receives. *)
Definition getContents (st : store) (ids : list string) : list reply :=
  mget st ((fun id => _fmt [Str CONTENT; Str id]) <$> ids).

Definition readDocument (st : store) (id text : string) : store :=
  let st := incrby st (_fmt [Str TOTAL]) 1 in
  let st := set st (_fmt [Str CONTENT; Str id]) text in
  (fold_left (readToken id) (gloss_parse text) (st, None)).1.

(** The callback [execResults] of [TFIDF]. *)
Definition execResults (id : option string) (key : string) (results : multi_results) :
    tfidf_result :=
  let keyFrequency := parseInt_reply (results0 results) in
  let docFrequency := parseInt_reply (results1 results) in
  let keyDocFrequency := results2 results in
  let keyFrequency :=
    match id, results3 results with
    | Some i, Some r3 => if JS.truthy i then parseInt_reply r3 else keyFrequency
    | _, _ => keyFrequency
    end in
  let tf := PrimFloat.add 1 (PrimFloat.div (Math_log keyFrequency) JS.LN10) in
  let idf :=
    PrimFloat.div
      (Math_log (PrimFloat.div docFrequency (number_of_card keyDocFrequency)))
      JS.LN10 in
  {| key := key; rawtf := keyFrequency; df := keyDocFrequency; n := docFrequency;
     idf := idf; tf := tf; tfidf := PrimFloat.mul tf idf |}.

(** [TFIDF(id, key, callback)]: the record the callback receives.  [id] is
    [None] when the caller passes [undefined] or [null]. *)
Definition TFIDF (st : store) (id : option string) (key : string) : tfidf_result :=
  let totalDocKey := _fmt [Str TOTAL] in
  let totalKey := _fmt [Str TOTAL; Str key] in
  execResults id key
    {| results0 := get st totalKey;
       results1 := get st totalDocKey;
       results2 := zcard st (_fmt [Str key]);
       results3 :=
         match id with
         | Some i =>
             if JS.truthy i then Some (zscore format_double st (_fmt [Str i]) key)
             else None
         | None => None
         end |}.

(** [_computeWeights(id, terms, callback)]: every MULTI block is queued before
    the first reply is handled, so the scores are computed on the store as it
    is; then each term's first ZADD runs, then each term's second ZADD.  The
    callback receives whether every second ZADD replied with a truthy value. *)
Definition _computeWeights (st : store) (id : string) (terms : list string) :
    store * bool :=
  let scored := (fun item => (item, tfidf (TFIDF st (Some id) item))) <$> terms in
  let st1 :=
    fold_left (fun st e => (zadd st (_fmt [Str WEIGHT; Str id]) e.2 e.1).1) scored st in
  fold_left
    (fun acc e =>
       let '(st', ok) := zadd acc.1 (_fmt [Str WEIGHT; Str e.1]) e.2 id in
       (st', acc.2 && ok))
    scored (st1, true).

(** [indexWeights(id, callback)]: the store afterwards and the callback's
    argument.  An array, even an empty one, is truthy; [results] is falsy only
    when the command failed. *)
Definition indexWeights (st : store) (id : string) : store * bool :=
  match zrange st (_fmt [Str id]) 0 (-1) with
  | None => (st, false)
  | Some results => _computeWeights st id results
  end.

Definition _isIdFiltered (filterPrefixes : option (list string)) (id : string) : bool :=
  match filterPrefixes with
  | Some ((_ :: _) as ps) => negb (existsb (fun prefix => JS.includes prefix id) ps)
  | _ => false
  end.

(** The body of a [while (results.length)] loop of [_cosineFilter], once [id]
    and [score] have been shifted off the reply. *)
Definition cosineStep (filterPrefixes : option (list string)) (id : string) (score : float)
    (acc : JS.object * list string * float) : JS.object * list string * float :=
  let '(scores, ids, sum) := acc in
  if negb (_isIdFiltered filterPrefixes id)
  then (JS.assign scores id score,
        if existsb (String.eqb id) ids then ids else (ids ++ [id])%list,
        PrimFloat.add sum (PrimFloat.mul score score))
  else acc.

(** One of the two [while (results.length)] loops of [_cosineFilter]: the
    scores object, the list [ids] and the sum of squares after the reply
    [results] has been consumed two elements at a time.  A reply of odd length
    leaves [undefined] for the last score, which [parseInt] turns into NaN. *)
Fixpoint cosineScores (filterPrefixes : option (list string)) (results : list string)
    (acc : JS.object * list string * float) : JS.object * list string * float :=
  match results with
  | [] => acc
  | id :: rest =>
      match rest with
      | sc :: rest' => cosineScores filterPrefixes rest' (cosineStep filterPrefixes id (JS.parseInt sc) acc)
      | [] => cosineStep filterPrefixes id PrimFloat.nan acc
      end
  end.

(** The body of the [for] loop of [_cosineFilter] over [ids]; [None] once a
    call of [hasOwnProperty] has thrown.  The second operand of [&&] is
    evaluated only when the first is true. *)
Definition dotStep (id1_scores id2_scores : JS.object) (dotsum : option float) (id : string) :
    option float :=
  match dotsum with
  | None => None
  | Some d =>
      match JS.hasOwnProperty id1_scores id with
      | None => None
      | Some false => Some d
      | Some true =>
          match JS.hasOwnProperty id2_scores id with
          | None => None
          | Some false => Some d
          | Some true =>
              Some (PrimFloat.add d
                      (PrimFloat.mul (JS.number_at id1_scores id)
                                     (JS.number_at id2_scores id)))
          end
      end
  end.

(** The arithmetic of [_cosineFilter] on the two WITHSCORES replies. *)
Definition cosine (filterPrefixes : option (list string))
    (id1_results id2_results : list string) : outcome float :=
  let '(id1_scores, ids, id1_sum) := cosineScores filterPrefixes id1_results (∅, [], 0%float) in
  let '(id2_scores, ids, id2_sum) := cosineScores filterPrefixes id2_results (∅, ids, 0%float) in
  match fold_left (dotStep id1_scores id2_scores) ids (Some 0%float) with
  | None => Thrown
  | Some dotsum =>
      let magnitude := PrimFloat.mul (PrimFloat.sqrt id1_sum) (PrimFloat.sqrt id2_sum) in
      Returned (PrimFloat.div dotsum magnitude)
  end.

(** [_cosineFilter]: [Failed] when a ZRANGE fails and the callback gets [err]. *)
Definition _cosineFilter (st : store) (filterPrefixes : option (list string))
    (id1 id2 : string) : outcome float :=
  match zrange_withscores format_double st (_fmt [Str WEIGHT; Str id1]) 0 (-1) with
  | None => Failed
  | Some id1_results =>
      match zrange_withscores format_double st (_fmt [Str WEIGHT; Str id2]) 0 (-1) with
      | None => Failed
      | Some id2_results => cosine filterPrefixes id1_results id2_results
      end
  end.

Definition CosineConceptSimilarity (st : store) (id1 id2 : string) : outcome float :=
  _cosineFilter st (Some ["noun"; "adj"]) id1 id2.

Definition CosineSimilarity (st : store) (id1 id2 : string) : outcome float :=
  _cosineFilter st None id1 id2.

(** *** search *)

(** The first [async.map] of [search] for one term: the terms it resolves to. *)
Definition resolveTerm (st : store) (term : string) : list string :=
  if negb (JS.includes ":" term) then
    let keys := Redis.keys st (_fmt [Str "*"; Str term]) in
    fold_left
      (fun reducedTerms k =>
         if negb (_isPrefixed k)
         then (reducedTerms ++ [JS.slice_from (String.length (nsPrefix opts) + 1) k])%list
         else reducedTerms)
      keys []
  else [term].

(** [options.searchLimit || this.options.searchLimit] *)
Definition effectiveLimit (limit : option Z) : Z :=
  match limit with
  | Some l => if l =? 0 then searchLimit opts else l
  | None => searchLimit opts
  end.

(** The second [async.map] of [search] for one resolved term. *)
Definition fetchWeights (st : store) (limit : option Z) (term : string) :
    option (list string) :=
  zrevrange_withscores format_double st (_fmt [Str WEIGHT; Str term]) 0 (effectiveLimit limit).

(** One turn of the [while (termResults.length)] loop of [search]; [None] when
    the call of [hasOwnProperty] throws.  For the id [__proto__] neither
    assignment makes an own property, whatever the value assigned. *)
Definition addScore (docId : string) (docTermWeight : float)
    (acc : JS.object * list string) : option (JS.object * list string) :=
  let '(scores, ids) := acc in
  match JS.hasOwnProperty scores docId with
  | None => None
  | Some own =>
      let '(scores, ids) :=
        if own then (scores, ids)
        else (JS.assign scores docId 0%float, (ids ++ [docId])%list) in
      Some (JS.assign scores docId (PrimFloat.add (JS.number_at scores docId) docTermWeight),
            ids)
  end.

(** The accumulation loop over one reply of [search].  A reply of odd length
    leaves [undefined] for the last weight, which [parseFloat] turns into
    NaN. *)
Fixpoint addScores (termResults : list string) (acc : JS.object * list string) :
    option (JS.object * list string) :=
  match termResults with
  | [] => Some acc
  | docId :: rest =>
      match rest with
      | w :: rest' =>
          match addScore docId (JS.parseFloat w) acc with
          | Some acc' => addScores rest' acc'
          | None => None
          end
      | [] => addScore docId PrimFloat.nan acc
      end
  end.

(** [ids.sort(function (a, b) { return scores[b] - scores[a] })], as a stable
    insertion sort: [a] stays before [b] unless the comparator is positive. *)
Fixpoint insertId (scores : JS.object) (a : string) (l : list string) : list string :=
  match l with
  | [] => [a]
  | b :: l' =>
      if PrimFloat.ltb 0 (PrimFloat.sub (JS.number_at scores b) (JS.number_at scores a))
      then b :: insertId scores a l'
      else a :: b :: l'
  end.

(** [search(terms, callback, options)].  When a ZREVRANGE fails the callback
    gets the error; what the code goes on to do after that call is not part
    of the outcome. *)
Definition search (st : store) (terms : list string) (limit : option Z) :
    outcome (list string * JS.object) :=
  let terms := flat_map (resolveTerm st) terms in
  match mapM (fetchWeights st limit) terms with
  | None => Failed
  | Some results =>
      match
        fold_left (fun acc r => match acc with Some a => addScores r a | None => None end)
          results (Some (∅, []))
      with
      | None => Thrown
      | Some (scores, ids) => Returned (foldr (insertId scores) [] ids, scores)
      end
  end.

End Graph.

End DocumentGraph.

(** ** Notions the properties are stated with *)

Module Spec.
Import Redis DocumentGraph.

(** A digit character is neither a space nor a sign nor a radix marker. *)
Definition plain_digit (c : ascii) : Prop :=
  JS.is_space c = false /\ c <> "-"%char /\ c <> "+"%char /\ c <> "x"%char /\
  c <> "X"%char /\ (exists d, 0 <= d < 10 /\ JS.digit10 c = Some d).

(** Zero of either sign, or NaN. *)
Definition zeroish (x : float) : Prop :=
  x = 0%float \/ x = neg_zero \/ x = nan.

(** NaN or an infinity. *)
Definition nonfinite (x : float) : Prop :=
  x = nan \/ x = infinity \/ x = neg_infinity.

(** The values ECMAScript fixes for [Math.log]; elsewhere the function is an
    implementation-dependent approximation. *)
Definition log_special (Math_log : float -> float) : Prop :=
  Math_log nan = nan /\
  Math_log infinity = infinity /\
  Math_log 0%float = neg_infinity /\
  Math_log neg_zero = neg_infinity /\
  Math_log 1%float = 0%float /\
  (forall x, PrimFloat.ltb x 0 = true -> Math_log x = nan).

(** The decimal logarithm as [TFIDF] computes it. *)
Definition log10 (Math_log : float -> float) (x : float) : float :=
  PrimFloat.div (Math_log x) JS.LN10.

(** A [Math.log] to run the model with: the fixed values, and between them
    [2 atanh((m-1)/(m+1)) + e ln 2] for [x = m 2^e], by its series. *)
Fixpoint atanh_series (k : nat) (t2 : float) (n : float) : float :=
  match k with
  | O => PrimFloat.div 1 n
  | S k' => PrimFloat.add (PrimFloat.div 1 n)
              (PrimFloat.mul t2 (atanh_series k' t2 (PrimFloat.add n 2)))
  end.

Definition log_model (x : float) : float :=
  if PrimFloat.is_nan x then nan
  else if PrimFloat.ltb x 0 then nan
  else if PrimFloat.is_zero x then neg_infinity
  else if PrimFloat.is_infinity x then infinity
  else if PrimFloat.eqb x 1 then 0%float
  else
    let '(m, e) := Z.frexp x in
    let t := PrimFloat.div (PrimFloat.sub m 1) (PrimFloat.add m 1) in
    PrimFloat.add
      (PrimFloat.mul (JS.of_Z e) 0x1.62e42fefa39efp-1%float)
      (PrimFloat.mul (PrimFloat.mul 2 t) (atanh_series 40 (PrimFloat.mul t t) 1)).

(** A score format to run the model with: halves print as Redis prints them,
    other doubles by their integer part. *)
Definition format_model (x : float) : string :=
  if PrimFloat.eqb x 0.5 then "0.5"
  else if PrimFloat.eqb x 1.5 then "1.5"
  else if PrimFloat.eqb x 2.5 then "2.5"
  else if PrimFloat.eqb x 1 then "1"
  else if PrimFloat.eqb x 2 then "2"
  else if PrimFloat.eqb x 3 then "3"
  else "0".

(** The sum of squares one loop of [_cosineFilter] accumulates. *)
Definition sumSquares (filterPrefixes : option (list string)) (results : list string) : float :=
  (cosineScores filterPrefixes results (∅, [], 0%float)).2.

(** The entries of a weight set that pass the filter of [_cosineFilter]. *)
Definition keptEntries (filterPrefixes : option (list string)) (l : list (string * score)) :
    list (string * score) :=
  List.filter (fun e => negb (_isIdFiltered filterPrefixes e.1)) l.

(** The number [_cosineFilter] reads off the text of a score. *)
Definition readScore (format_double : float -> string) (s : score) : float :=
  JS.parseInt (format_score format_double s).

(** The cosine of two real-valued weight vectors, as the words have it: the
    dot product over the keys both vectors have, divided by the product of
    the two magnitudes. *)
Definition dot_ref (v1 v2 : list (string * float)) : float :=
  fold_left
    (fun acc e =>
       match list_find (fun e2 => e2.1 = e.1) v2 with
       | Some (_, e2) => PrimFloat.add acc (PrimFloat.mul e.2 e2.2)
       | None => acc
       end) v1 0%float.

Definition squares_ref (v : list (string * float)) : float :=
  fold_left (fun acc e => PrimFloat.add acc (PrimFloat.mul e.2 e.2)) v 0%float.

Definition norm_ref (v : list (string * float)) : float :=
  PrimFloat.sqrt (squares_ref v).

Definition cosine_ref (v1 v2 : list (string * float)) : float :=
  PrimFloat.div (dot_ref v1 v2) (PrimFloat.mul (norm_ref v1) (norm_ref v2)).

(** The stored weight vector of a document: the entries of its weight set. *)
Definition stored_vector (st : store) (k : string) : list (string * float) :=
  match zentries st k with
  | Some l => (fun e => (e.1, score_value e.2)) <$> l
  | None => []
  end.

(** The entries of a weight set that pass the filter, with the weights as
    stored. *)
Definition keptVector (filterPrefixes : option (list string)) (l : list (string * score)) :
    list (string * float) :=
  (fun e => (e.1, score_value e.2)) <$> keptEntries filterPrefixes l.

(** The entries of a weight set that pass the filter, with the weights as
    [_cosineFilter] reads them off their text. *)
Definition readVector (format_double : float -> string)
    (filterPrefixes : option (list string)) (l : list (string * score)) :
    list (string * float) :=
  (fun e => (e.1, readScore format_double e.2)) <$> keptEntries filterPrefixes l.

(** A name that a plain object treats like any other. *)
Definition plain_name (k : string) : Prop :=
  k <> "__proto__" /\ k <> "hasOwnProperty".

(** The members of a WITHSCORES reply: every other element, from the first. *)
Fixpoint members (results : list string) : list string :=
  match results with
  | [] => []
  | id :: rest => id :: match rest with [] => [] | _ :: rest' => members rest' end
  end.

(** The members of a reply that pass the filter and are not [__proto__]: the
    names of the own properties of the scores object of [_cosineFilter]. *)
Definition ownNames (filterPrefixes : option (list string)) (results : list string) :
    list string :=
  List.filter
    (fun id => negb (_isIdFiltered filterPrefixes id) && negb (String.eqb id "__proto__"))
    (members results).

(** When the loop of [_cosineFilter] over [ids] throws: the first scores
    object has an own property [hasOwnProperty]; or it has some own property,
    and the second scores object has an own property [hasOwnProperty]. *)
Definition cosineThrows (filterPrefixes : option (list string)) (r1 r2 : list string) : bool :=
  existsb (String.eqb "hasOwnProperty") (ownNames filterPrefixes r1)
  || match ownNames filterPrefixes r1 with [] => false | _ :: _ => true end
     && existsb (String.eqb "hasOwnProperty") (ownNames filterPrefixes r2).

(** The state of the accumulation loop of [search] is in order: the ids that
    have a score are the ids listed other than [__proto__], and none of them
    is listed twice. *)
Definition tallied (acc : JS.object * list string) : Prop :=
  NoDup (filter (fun d : string => d <> "__proto__") acc.2) /\
  forall d, is_Some (acc.1 !! d) <-> d ∈ acc.2 /\ d <> "__proto__".

(** Whether a key holds a string. *)
Definition holds_string (st : store) (k : string) : bool :=
  match st !! k with
  | Some (RString _) => true
  | _ => false
  end.

(** *** Observations of the store *)

(** The integer a string value holds; 0 when there is none. *)
Definition value_counter (v : option rvalue) : Z :=
  match v with
  | Some (RString s) => default 0 (string2ll s)
  | _ => 0
  end.

(** The score of member [m] in a sorted-set value, if any. *)
Definition value_zlookup (v : option rvalue) (m : string) : option score :=
  match v with
  | Some (RZSet z) => z !! m
  | _ => None
  end.

(** The integer count a score stands for; 0 when there is none. *)
Definition score_count (o : option score) : Z :=
  match o with
  | Some (Count c) => c
  | _ => 0
  end.

(** The integer the counter key [k] holds; 0 when it holds none. *)
Definition counter (st : store) (k : string) : Z := value_counter (st !! k).

(** The score of member [m] in the sorted set at [k], if any. *)
Definition zlookup (st : store) (k m : string) : option score :=
  value_zlookup (st !! k) m.

(** The integer count of member [m] in the sorted set at [k]; 0 when there
    is none. *)
Definition zcount (st : store) (k m : string) : Z := score_count (zlookup st k m).

(** *** The commands of an ingestion *)

Inductive cmd :=
  | Incr (k : string)
  | ZIncr (k m : string)
  | SetStr (k v : string).

Definition exec (st : store) (c : cmd) : store :=
  match c with
  | Incr k => incrby st k 1
  | ZIncr k m => zincrby st k 1 m
  | SetStr k v => set st k v
  end.

Definition run (st : store) (cs : list cmd) : store := fold_left exec cs st.

(** What a command does to the value at key [K]. *)
Definition kstep (K : string) (v : option rvalue) (c : cmd) : option rvalue :=
  match c with
  | Incr k =>
      if String.eqb k K then
        match v with
        | None => Some (RString (JS.string_of_Z 1))
        | Some (RString s) =>
            match string2ll s with
            | Some z => Some (RString (JS.string_of_Z (z + 1)))
            | None => v
            end
        | Some (RZSet _) => v
        end
      else v
  | ZIncr k m =>
      if String.eqb k K then
        match v with
        | None => Some (RZSet (zset_incr ∅ 1 m))
        | Some (RZSet z) => Some (RZSet (zset_incr z 1 m))
        | Some (RString _) => v
        end
      else v
  | SetStr k s => if String.eqb k K then Some (RString s) else v
  end.

(** One more unit on a score that may be absent. *)
Definition bump (o : option score) : option score :=
  match o with
  | None => Some (Count 1)
  | Some s => Some (score_add s 1)
  end.

(** No command of [cs] is a SET of key [K]. *)
Definition no_set (K : string) (cs : list cmd) : bool :=
  forallb (fun c => match c with SetStr k _ => negb (String.eqb k K) | _ => true end) cs.

(** How many commands of [cs] are [ZINCRBY K 1 m]. *)
Definition zhits (K m : string) (cs : list cmd) : nat :=
  length (List.filter
            (fun c => match c with
                      | ZIncr k m' => String.eqb k K && String.eqb m' m
                      | _ => false
                      end) cs).

(** How many commands of [cs] are [INCRBY K 1]. *)
Definition hits (K : string) (cs : list cmd) : nat :=
  length (List.filter
            (fun c => match c with Incr k => String.eqb k K | _ => false end) cs).

Section Ingestion.

Variable opts : options.
Variable gloss_parse : string -> list token.

(** What [_fmt] puts in front of its arguments. *)
Definition key_prefix : string :=
  if JS.truthy (nsPrefix opts) then nsPrefix opts ++ separator opts else "".

(** The commands of one call of [_incrEdges]. *)
Definition edgeCmds (id key : string) (prevKey : option string) : list cmd :=
  [Incr (_fmt opts [Str TOTAL; Str key]);
   ZIncr (_fmt opts [Str id]) key;
   ZIncr (_fmt opts [Str key]) id] ++
  match prevKey with
  | Some p => if JS.truthy p then [ZIncr (_fmt opts [Str NEXT; Str p]) key] else []
  | None => []
  end.

(** The nodes of a token that [readDocument] hands to [_incrEdges]. *)
Definition tokenNodes (s : token) : list node :=
  match children s, orig s with
  | None, None => if negb (isFiltered (self s)) then [self s] else []
  | Some cs, Some o =>
      if negb (isFiltered (self s))
      then (if negb (isFiltered o) then [o] else []) ++
           List.filter (fun c => negb (isFiltered c)) cs
      else []
  | _, _ => []
  end.

(** The node keys of a text, in the order they are chained. *)
Definition edgeKeys (text : string) : list string :=
  _fmtNode opts <$> flat_map tokenNodes (gloss_parse text).

Fixpoint chainCmds (id : string) (prev : option string) (keys : list string) : list cmd :=
  match keys with
  | [] => []
  | k :: ks => edgeCmds id k prev ++ chainCmds id (Some k) ks
  end.

(** How often key [k] directly follows key [p] in the chain that starts
    after [prev]. *)
Fixpoint follows (p k : string) (prev : option string) (keys : list string) : nat :=
  match keys with
  | [] => O
  | x :: rest =>
      ((match prev with
        | Some q => if String.eqb q p && String.eqb x k then 1 else 0
        | None => 0
        end) + follows p k (Some x) rest)%nat
  end.

(** How often key [k] occurs in a chain. *)
Definition occurrences (k : string) (keys : list string) : nat :=
  length (List.filter (String.eqb k) keys).

(** The commands of one call of [readDocument]. *)
Definition docCmds (id text : string) : list cmd :=
  Incr (_fmt opts [Str TOTAL]) ::
  SetStr (_fmt opts [Str CONTENT; Str id]) text ::
  chainCmds id None (edgeKeys text).

(** A sequence of ingestions, each a document id and its text. *)
Definition ingest (st : store) (docs : list (string * string)) : store :=
  fold_left (fun st d => readDocument opts gloss_parse st d.1 d.2) docs st.

(** A key the graph keeps for its own bookkeeping: the counter of documents,
    the bare content key, or a key under one of the four prefixes. *)
Definition reserved (k : string) : bool :=
  String.eqb k (_fmt opts [Str TOTAL]) ||
  String.eqb k (_fmt opts [Str CONTENT]) ||
  _isPrefixed opts k.

(** An id or node key whose own key is not a bookkeeping key. *)
Definition clean (x : string) : bool := negb (reserved (_fmt opts [Str x])).

End Ingestion.

(** *** A small corpus to run the model on *)

Definition leaf (t w : string) : token :=
  {| self := {| tag := t; term := w; distinct := ""; isFiltered := false |};
     orig := None; children := None |}.

(** The tagger's output for a text of three words: noun:cat verb:run noun:cat. *)
Definition cat_run_cat (_ : string) : list token :=
  [leaf "Noun" "cat"; leaf "Verb" "run"; leaf "Noun" "Cat"].


(** The store after document [d1] has been read into an empty store. *)
Definition store_d1 : store :=
  readDocument defaultOptions cat_run_cat ∅ "d1" "cat run cat".

(** The weights of a document whose two terms both score 1. *)
Definition store_ones : store :=
  (zadd (zadd ∅ "w:d1" 1 "noun:cat").1 "w:d1" 1 "adj:big").1.

(** The weights of two documents over the same two terms: 1.5 and 2.5 one way,
    2.5 and 1.5 the other. *)
Definition store_fractions : store :=
  let st := (zadd ∅ "w:d1" 1.5 "noun:cat").1 in
  let st := (zadd st "w:d1" 2.5 "adj:big").1 in
  let st := (zadd st "w:d2" 2.5 "noun:cat").1 in
  (zadd st "w:d2" 1.5 "adj:big").1.

End Spec.

(** * Properties *)

(** ** Decimal text: printing and reading back *)

Module JSFacts.
Import JS Spec.

Lemma digit10_digit_char d : 0 <= d < 10 -> digit10 (digit_char d) = Some d.
Proof.
  intros H.
  assert (d = 0 \/ d = 1 \/ d = 2 \/ d = 3 \/ d = 4 \/ d = 5 \/ d = 6 \/ d = 7 \/
          d = 8 \/ d = 9) as Hd by lia.
  repeat (destruct Hd as [-> | Hd]; [reflexivity |]); subst; reflexivity.
Qed.

Lemma plain_digit_char d : 0 <= d < 10 -> plain_digit (digit_char d).
Proof.
  intros H.
  assert (d = 0 \/ d = 1 \/ d = 2 \/ d = 3 \/ d = 4 \/ d = 5 \/ d = 6 \/ d = 7 \/
          d = 8 \/ d = 9) as Hd by lia.
  unfold plain_digit. rewrite digit10_digit_char by lia.
  split; [| split; [| split; [| split; [| split]]]];
    [.. | exists d; split; [lia | reflexivity]];
    (repeat (destruct Hd as [-> | Hd]; [first [reflexivity | discriminate] |]));
    subst; first [reflexivity | discriminate].
Qed.

Lemma digits_plain fuel n : 0 <= n -> Forall plain_digit (digits fuel n).
Proof.
  revert n; induction fuel as [| f IH]; intros n Hn; simpl; [constructor |].
  apply Forall_app; split.
  - destruct (n <? 10); [constructor |].
    apply IH. apply Z.div_pos; lia.
  - constructor; [| constructor].
    apply plain_digit_char. apply Z.mod_pos_bound; lia.
Qed.

Lemma digits_nonempty fuel n : digits (S fuel) n <> [].
Proof. simpl. destruct (if n <? 10 then [] else digits fuel (n / 10)); discriminate. Qed.

Lemma read_digits_step c d l a cnt :
  digit10 c = Some d ->
  read_digits digit10 10 (c :: l) a cnt = read_digits digit10 10 l (10 * a + d) (S cnt).
Proof. intros H. cbn [read_digits]. rewrite H. reflexivity. Qed.

Lemma digits_S f n :
  digits (S f) n = ((if n <? 10 then [] else digits f (n / 10)) ++ [digit_char (n mod 10)])%list.
Proof. reflexivity. Qed.

(** Reading the printed digits of [n] yields [n] and consumes them all. *)
Lemma read_digits_digits fuel : forall n rest cnt,
  0 <= n < 10 ^ Z.of_nat (S fuel) ->
  exists k, read_digits digit10 10 (digits (S fuel) n ++ rest)%list 0 cnt
            = read_digits digit10 10 rest n (S k).
Proof.
  induction fuel as [| f IH]; intros n rest cnt Hn.
  - assert (n < 10) as Hlt by (change (10 ^ Z.of_nat 1) with 10 in Hn; lia).
    rewrite digits_S. apply Z.ltb_lt in Hlt as Hb. rewrite Hb.
    cbn [app]. rewrite (read_digits_step _ (n mod 10)).
    2: { apply digit10_digit_char. apply Z.mod_pos_bound; lia. }
    rewrite Z.mod_small by lia. exists cnt. f_equal. 
  - rewrite digits_S.
    destruct (n <? 10) eqn:Hb.
    + apply Z.ltb_lt in Hb. cbn [app].
      rewrite (read_digits_step _ (n mod 10)).
      2: { apply digit10_digit_char. apply Z.mod_pos_bound; lia. }
      rewrite Z.mod_small by lia. exists cnt. f_equal.
    + apply Z.ltb_ge in Hb.
      assert (0 <= n / 10 < 10 ^ Z.of_nat (S f)) as Hq.
      { split; [apply Z.div_pos; lia |].
        apply Z.div_lt_upper_bound; [lia |].
        replace (Z.of_nat (S (S f))) with (Z.of_nat (S f) + 1) in Hn by lia.
        rewrite Z.pow_add_r in Hn by lia. lia. }
      rewrite <- app_assoc.
      destruct (IH (n / 10) ([digit_char (n mod 10)] ++ rest)%list cnt Hq) as [k Hk].
      rewrite Hk. cbn [app].
      rewrite (read_digits_step _ (n mod 10)).
      2: { apply digit10_digit_char. apply Z.mod_pos_bound; lia. }
      exists (S k). f_equal.
      pose proof (Z.div_mod n 10). lia.
Qed.

Lemma fuel_enough n : 0 <= n -> n < 10 ^ Z.of_nat (S (Z.to_nat (Z.log2 n))).
Proof.
  intros Hn.
  destruct (Z.eq_dec n 0) as [-> | Hnz]; [reflexivity |].
  pose proof (Z.log2_nonneg n) as Hl.
  pose proof (Z.log2_spec n ltac:(lia)) as [_ Hu].
  replace (Z.of_nat (S (Z.to_nat (Z.log2 n)))) with (Z.succ (Z.log2 n)) by lia.
  eapply Z.lt_le_trans; [exact Hu |].
  apply Z.pow_le_mono_l. lia.
Qed.

(** [parseInt] reads back the decimal text of a non-negative integer. *)
Lemma parseInt_plain l v k :
  l <> [] -> Forall plain_digit l ->
  read_digits digit10 10 l 0 O = (v, S k, []) ->
  parseInt (string_of_list_ascii l) = of_Z v.
Proof.
  intros Hne Hall Hread. unfold parseInt, chars.
  rewrite list_ascii_of_string_of_list_ascii.
  destruct l as [| c l']; [congruence |].
  apply Forall_cons in Hall as [(Hsp & Hm & Hp & Hx & HX & d & Hd & Hdc) Hall'].
  cbn [skip_spaces]. rewrite Hsp.
  assert (read_sign (c :: l') = (false, c :: l')) as ->.
  { unfold read_sign.
    destruct (Ascii.eqb_spec c "-"%char); [congruence |].
    destruct (Ascii.eqb_spec c "+"%char); [congruence |]. reflexivity. }
  assert (hex_marked (c :: l') = false) as ->.
  { destruct l' as [| c2 l'']; [reflexivity |]. cbn [hex_marked].
    apply Forall_cons in Hall' as [(_ & _ & _ & Hx2 & HX2 & _) _].
    destruct (Ascii.eqb_spec c2 "x"%char); [congruence |].
    destruct (Ascii.eqb_spec c2 "X"%char); [congruence |].
    apply andb_false_r. }
  rewrite Hread. reflexivity.
Qed.

Lemma read_printed n :
  0 <= n ->
  exists k, read_digits digit10 10 (digits (S (Z.to_nat (Z.log2 n))) n) 0 O = (n, S k, []).
Proof.
  intros Hn.
  destruct (read_digits_digits (Z.to_nat (Z.log2 n)) n [] O) as [k Hk].
  { split; [lia | apply fuel_enough; lia]. }
  rewrite app_nil_r in Hk. exists k. rewrite Hk. reflexivity.
Qed.

Lemma parseInt_string_of_Z n : 0 <= n -> parseInt (string_of_Z n) = of_Z n.
Proof.
  intros Hn. unfold string_of_Z.
  destruct (n <? 0) eqn:Hneg; [apply Z.ltb_lt in Hneg; lia |].
  destruct (read_printed n Hn) as [k Hk].
  eapply parseInt_plain; [apply digits_nonempty | apply digits_plain; lia | exact Hk].
Qed.

End JSFacts.

(** ** Special values of the floating-point operations *)

Module FloatFacts.
Import JS Spec.

Lemma float_of_SF x s : Prim2SF x = s -> x = SF2Prim s.
Proof. intros <-. symmetry. apply SF2Prim_Prim2SF. Qed.

Ltac by_spec H x :=
  destruct (Prim2SF x) as [[] | [] | | [] ? ?]; cbn in H;
  apply float_of_SF in H; rewrite H; cbn; unfold zeroish, nonfinite; auto.

Lemma mul_zero_l y : zeroish (0 * y)%float.
Proof.
  pose proof (mul_spec 0 y) as H.
  change (Prim2SF 0) with (S754_zero false) in H. by_spec H y.
Qed.

Lemma mul_zero_r y : zeroish (y * 0)%float.
Proof.
  pose proof (mul_spec y 0) as H.
  change (Prim2SF 0) with (S754_zero false) in H. by_spec H y.
Qed.

Lemma div_zeroish x m : zeroish m -> nonfinite (x / m)%float.
Proof.
  intros Hm. pose proof (div_spec x m) as H.
  destruct Hm as [-> | [-> | ->]].
  - change (Prim2SF 0) with (S754_zero false) in H. by_spec H x.
  - change (Prim2SF neg_zero) with (S754_zero true) in H. by_spec H x.
  - change (Prim2SF nan) with (S754_nan) in H. by_spec H x.
Qed.

Lemma mul_nonfinite_r x y : nonfinite y -> nonfinite (x * y)%float.
Proof.
  intros Hy. pose proof (mul_spec x y) as H.
  destruct Hy as [-> | [-> | ->]].
  - change (Prim2SF nan) with (S754_nan) in H. by_spec H x.
  - change (Prim2SF infinity) with (S754_infinity false) in H. by_spec H x.
  - change (Prim2SF neg_infinity) with (S754_infinity true) in H. by_spec H x.
Qed.

Lemma sqrt_zero : PrimFloat.sqrt 0 = 0%float.
Proof. reflexivity. Qed.

Lemma mul_nan_r x : (x * nan)%float = nan.
Proof.
  pose proof (mul_spec x nan) as H. change (Prim2SF nan) with S754_nan in H.
  apply float_of_SF in H. rewrite H.
  destruct (Prim2SF x); reflexivity.
Qed.

(** A positive number, finite or not, divided by zero is Infinity. *)
Lemma div_positive_zero x : PrimFloat.ltb 0 x = true -> (x / 0)%float = infinity.
Proof.
  intros Hx. rewrite ltb_spec in Hx. change (Prim2SF 0) with (S754_zero false) in Hx.
  pose proof (div_spec x 0) as H. change (Prim2SF 0) with (S754_zero false) in H.
  destruct (Prim2SF x) as [[] | [] | | [] ? ?]; cbn in Hx; try discriminate;
    cbn in H; apply float_of_SF in H; rewrite H; reflexivity.
Qed.

(** Anything else divided by zero is NaN or -Infinity. *)
Lemma div_other_zero x :
  PrimFloat.ltb 0 x = false -> (x / 0)%float = nan \/ (x / 0)%float = neg_infinity.
Proof.
  intros Hx. rewrite ltb_spec in Hx. change (Prim2SF 0) with (S754_zero false) in Hx.
  pose proof (div_spec x 0) as H. change (Prim2SF 0) with (S754_zero false) in H.
  destruct (Prim2SF x) as [[] | [] | | [] ? ?]; cbn in Hx; try discriminate;
    cbn in H; apply float_of_SF in H; rewrite H; auto.
Qed.

Lemma nonfinite_not_zero x : nonfinite x -> x <> 0%float.
Proof.
  intros [-> | [-> | ->]] H;
    apply (f_equal Prim2SF) in H; vm_compute in H; discriminate.
Qed.

Lemma log_model_special : log_special log_model.
Proof.
  repeat split; try reflexivity.
  intros x Hx. unfold log_model. rewrite Hx.
  destruct (is_nan x); reflexivity.
Qed.

End FloatFacts.

(** ** The replies of the store *)

Module StoreFacts.
Import JS Redis Spec.

Lemma zscore_lookup fd (st : store) k m s :
  zlookup st k m = Some s -> zscore fd st k m = RBulk (format_score fd s).
Proof.
  unfold zlookup, value_zlookup, zscore.
  destruct (st !! k) as [[| z] |]; try discriminate.
  intros ->. reflexivity.
Qed.

End StoreFacts.

(** ** TFIDF *)

Module TFIDFFacts.
Import JS Redis DocumentGraph Spec.

Section WithPlatform.

Variable opts : options.
Variable Math_log : float -> float.
Variable format_double : float -> string.

(** C1: for a term whose corpus frequency [c] and document frequency [d] are
    positive, [TFIDF] hands back the record with the term as [key], [df = d],
    [n] the document count, [tf = 1 + log10 rawtf], [idf = log10 (n / d)] and
    [tfidf = tf * idf]; [rawtf] is the weight between the document and the
    term when a document id is given, and the term's corpus total otherwise. *)
Theorem TFIDF_record (st : store) (id : option string) (term : string) (c N d : Z) :
  0 < c -> 0 <= N -> 0 < d ->
  get st (_fmt opts [Str TOTAL; Str term]) = RBulk (string_of_Z c) ->
  get st (_fmt opts [Str TOTAL]) = RBulk (string_of_Z N) ->
  zcard st (_fmt opts [Str term]) = Some d ->
  let r := TFIDF opts Math_log format_double st id term in
  key r = term /\ df r = Some d /\ n r = of_Z N /\
  ((match id with Some i => truthy i | None => false end) = false -> rawtf r = of_Z c) /\
  (forall i w, id = Some i -> truthy i = true -> 0 <= w ->
     zlookup st (_fmt opts [Str i]) term = Some (Count w) -> rawtf r = of_Z w) /\
  tf r = PrimFloat.add 1 (log10 Math_log (rawtf r)) /\
  idf r = log10 Math_log (PrimFloat.div (of_Z N) (of_Z d)) /\
  tfidf r = PrimFloat.mul (tf r) (idf r).
Proof.
  intros Hc HN Hd Hkey Hdoc Hcard r. subst r.
  unfold TFIDF, execResults. cbn [results0 results1 results2 results3].
  rewrite Hkey, Hdoc, Hcard. cbn [parseInt_reply number_of_card key df n rawtf tf idf tfidf].
  rewrite !JSFacts.parseInt_string_of_Z by lia.
  repeat split.
  - destruct id as [i |]; [| reflexivity]. intros ->. reflexivity.
  - intros i w -> Hi Hw Hz. rewrite Hi.
    rewrite (StoreFacts.zscore_lookup _ _ _ _ _ Hz). cbn [parseInt_reply format_score].
    apply JSFacts.parseInt_string_of_Z. lia.
Qed.

(** C3, as the code has it: for a term whose document frequency is zero
    [TFIDF] divides the document count by zero.  When the count read is
    positive, [idf] is Infinity and [tfidf] is NaN or an infinity; when it is
    zero, negative or not a number, [idf] and [tfidf] are NaN.  Neither is
    ever 0. *)
Theorem TFIDF_zero_df (st : store) (id : option string) (term : string) :
  log_special Math_log ->
  zcard st (_fmt opts [Str term]) = Some 0 ->
  let r := TFIDF opts Math_log format_double st id term in
  n r = parseInt_reply (get st (_fmt opts [Str TOTAL])) /\
  (PrimFloat.ltb 0 (n r) = true -> idf r = infinity /\ nonfinite (tfidf r)) /\
  (PrimFloat.ltb 0 (n r) = false -> idf r = nan /\ tfidf r = nan) /\
  idf r <> 0%float /\ tfidf r <> 0%float.
Proof.
  intros (Hnan & Hinf & _ & _ & _ & Hneg) Hcard r.
  assert (idf r = PrimFloat.div (Math_log (PrimFloat.div (n r) 0)) LN10) as Hidf.
  { subst r. unfold TFIDF, execResults. cbn [results0 results1 results2 results3].
    rewrite Hcard. reflexivity. }
  assert (tfidf r = PrimFloat.mul (tf r) (idf r)) as Htfidf by reflexivity.
  assert (PrimFloat.ltb 0 (n r) = true -> idf r = infinity /\ nonfinite (tfidf r)) as Hpos.
  { intros Hn. rewrite Htfidf, Hidf, (FloatFacts.div_positive_zero _ Hn), Hinf.
    change (PrimFloat.div infinity LN10) with infinity.
    split; [reflexivity |]. apply FloatFacts.mul_nonfinite_r. right. left. reflexivity. }
  assert (PrimFloat.ltb 0 (n r) = false -> idf r = nan /\ tfidf r = nan) as Hother.
  { intros Hn. rewrite Htfidf, Hidf.
    assert (Math_log (PrimFloat.div (n r) 0) = nan) as ->.
    { destruct (FloatFacts.div_other_zero _ Hn) as [-> | ->];
        [exact Hnan | apply Hneg; reflexivity]. }
    change (PrimFloat.div nan LN10) with nan.
    split; [reflexivity | apply FloatFacts.mul_nan_r]. }
  split; [reflexivity |]. split; [exact Hpos |]. split; [exact Hother |].
  destruct (PrimFloat.ltb 0 (n r)) eqn:Hn.
  - destruct (Hpos eq_refl) as [Hi Ht]. split.
    + apply FloatFacts.nonfinite_not_zero. rewrite Hi. right. left. reflexivity.
    + apply FloatFacts.nonfinite_not_zero, Ht.
  - destruct (Hother eq_refl) as [Hi Ht]. split.
    + apply FloatFacts.nonfinite_not_zero. rewrite Hi. left. reflexivity.
    + apply FloatFacts.nonfinite_not_zero. rewrite Ht. left. reflexivity.
Qed.

End WithPlatform.

Lemma TFIDF_record_witness :
  rawtf (TFIDF defaultOptions log_model format_model store_d1 (Some "d1") "noun:cat")
  = of_Z 2.
Proof.
  destruct (TFIDF_record defaultOptions log_model format_model store_d1
              (Some "d1") "noun:cat" 2 1 1) as (_ & _ & _ & _ & H & _);
    [lia | lia | lia | reflexivity | reflexivity | reflexivity |].
  apply (H "d1" 2); [reflexivity | reflexivity | lia | reflexivity].
Defined.

Lemma TFIDF_zero_df_witness :
  idf (TFIDF defaultOptions log_model format_model store_d1 None "noun:dog") = infinity /\
  nonfinite (tfidf (TFIDF defaultOptions log_model format_model store_d1 None "noun:dog")).
Proof.
  destruct (TFIDF_zero_df defaultOptions log_model format_model store_d1 None "noun:dog")
    as (_ & H & _); [exact FloatFacts.log_model_special | reflexivity |].
  apply H. reflexivity.
Defined.

(** C3 fails as stated: with one document read and a term that occurs in none,
    the document frequency is zero, [idf] is Infinity and [tfidf] is NaN. *)
Lemma TFIDF_zero_df_counterexample :
  let r := TFIDF defaultOptions log_model format_model store_d1 None "noun:dog" in
  zcard store_d1 (_fmt defaultOptions [Str "noun:dog"]) = Some 0 /\
  idf r = infinity /\ tfidf r = nan /\ ~ (idf r = 0%float /\ tfidf r = 0%float).
Proof.
  vm_compute. repeat split; try reflexivity.
  intros [H _]. apply (f_equal Prim2SF) in H. vm_compute in H. discriminate.
Qed.

End TFIDFFacts.

(** ** Sorted sets as lists *)

Module ZSetFacts.
Import JS Redis Spec.

Lemma insert_sorted_perm e l : insert_sorted e l ≡ₚ e :: l.
Proof.
  induction l as [| h t IH]; cbn [insert_sorted]; [reflexivity |].
  destruct (entry_leb e h); [reflexivity |].
  rewrite IH. apply Permutation_swap.
Qed.

Lemma sorted_entries_perm (z : gmap string score) : sorted_entries z ≡ₚ map_to_list z.
Proof.
  unfold sorted_entries.
  induction (map_to_list z) as [| e l IH]; cbn [foldr]; [reflexivity |].
  rewrite insert_sorted_perm, IH. reflexivity.
Qed.

Lemma sorted_entries_NoDup (z : gmap string score) : NoDup (sorted_entries z).*1.
Proof.
  rewrite sorted_entries_perm. apply NoDup_fst_map_to_list.
Qed.

Lemma sorted_entries_length (z : gmap string score) : length (sorted_entries z) = size z.
Proof.
  rewrite sorted_entries_perm. apply length_map_to_list.
Qed.

(** The index pair [0 -1] selects the whole list. *)
Lemma range_all {A} (l : list A) : range l 0 (-1) = l.
Proof.
  unfold range. cbn [Z.ltb Z.compare].
  destruct l as [| x l']; [reflexivity |].
  set (len := Z.of_nat (length (x :: l'))).
  assert (0 < len) as Hlen by (unfold len in *; cbn [length]; lia).
  rewrite Z.min_r by lia.
  destruct (len - 1 <? 0) eqn:E1; [apply Z.ltb_lt in E1; lia |].
  destruct (len <=? 0) eqn:E2; [apply Z.leb_le in E2; lia |].
  cbn [orb]. replace (Z.to_nat (len - 1 - 0 + 1)) with (length (x :: l')) by (unfold len in *; lia).
  change (Z.to_nat 0) with 0%nat. cbn [drop]. apply firstn_all.
Qed.

(** The index pair [0 L] with [L >= 0] selects the first [L + 1] elements. *)
Lemma range_prefix {A} (l : list A) (L : Z) :
  0 <= L -> range l 0 L = take (Z.to_nat (L + 1)) l.
Proof.
  intros HL. unfold range. cbn [Z.ltb Z.compare].
  destruct (L <? 0) eqn:E0; [apply Z.ltb_lt in E0; lia |].
  set (len := Z.of_nat (length l)).
  destruct (Z.min L (len - 1) <? 0) eqn:E1.
  { apply Z.ltb_lt in E1. assert (len = 0) as H0 by lia.
    cbn [orb]. destruct l; [symmetry; apply take_nil | unfold len in *; cbn [length] in H0; lia]. }
  apply Z.ltb_ge in E1.
  destruct (len <=? 0) eqn:E2; [apply Z.leb_le in E2; lia |].
  cbn [orb]. change (Z.to_nat 0) with 0%nat. rewrite drop_0.
  destruct (Z.le_ge_cases L (len - 1)) as [Hle | Hge].
  - rewrite Z.min_l by lia. f_equal. lia.
  - rewrite Z.min_r by lia.
    replace (Z.to_nat (len - 1 - 0 + 1)) with (length l) by (unfold len in *; lia).
    rewrite firstn_all. symmetry. apply take_ge. unfold len in *. lia.
Qed.

Lemma withscores_length fd (l : list (string * score)) :
  length (withscores fd l) = (2 * length l)%nat.
Proof.
  induction l as [| e l IH]; [reflexivity |].
  cbn [withscores flat_map app length] in *. unfold withscores in IH. rewrite IH. lia.
Qed.

End ZSetFacts.

(** ** search: what one resolved term fetches, and how a term resolves *)

Module SearchFacts.
Import JS Redis DocumentGraph Spec.

Section WithPlatform.

Variable opts : options.
Variable format_double : float -> string.

(** C5, as the code has it: with a limit [L >= 0] in force, a resolved term
    fetches the first [L + 1] entries of its weight set in descending order,
    one more than the limit when the set is that large: the reply holds
    [2 * min (size of the set) (L + 1)] strings. *)
Theorem fetchWeights_count (st : store) (limit : option Z) (term : string)
    (l : list (string * score)) :
  zentries st (_fmt opts [Str WEIGHT; Str term]) = Some l ->
  0 <= effectiveLimit opts limit ->
  fetchWeights opts format_double st limit term
    = Some (withscores format_double
              (take (Z.to_nat (effectiveLimit opts limit + 1)) (reverse l))) /\
  (length <$> fetchWeights opts format_double st limit term)
    = Some (2 * Nat.min (length l) (Z.to_nat (effectiveLimit opts limit + 1)))%nat.
Proof.
  intros Hl HL. unfold fetchWeights, zrevrange_withscores. rewrite Hl.
  cbn [fmap option_fmap option_map].
  rewrite ZSetFacts.range_prefix by exact HL.
  split; [reflexivity |].
  rewrite ZSetFacts.withscores_length, length_take, length_reverse.
  f_equal. lia.
Qed.

(** The loop of [search] over the matched keys keeps the keys that are not
    under a reserved prefix and cuts [nsPrefix.length + 1] characters off each. *)
Lemma resolveTerm_unqualified (st : store) (term : string) :
  includes ":" term = false ->
  resolveTerm opts st term
  = slice_from (String.length (nsPrefix opts) + 1)
      <$> List.filter (fun k => negb (_isPrefixed opts k))
            (Redis.keys st (_fmt opts [Str "*"; Str term])).
Proof.
  intros Hq. unfold resolveTerm. rewrite Hq. cbn [negb].
  set (f := fun (reducedTerms : list string) k => _).
  assert (forall ks acc,
            fold_left f ks acc
            = (acc ++ (slice_from (String.length (nsPrefix opts) + 1)
                 <$> List.filter (fun k => negb (_isPrefixed opts k)) ks))%list) as H.
  { induction ks as [| k ks IH]; intros acc; cbn [fold_left List.filter fmap list_fmap].
    - symmetry. apply app_nil_r.
    - rewrite IH. subst f. cbn beta.
      destruct (negb (_isPrefixed opts k)); [| reflexivity].
      rewrite <- app_assoc. reflexivity. }
  rewrite H. reflexivity.
Qed.

End WithPlatform.

(** A weight set of three documents for the term noun:cat. *)
Lemma fetchWeights_count_witness :
  (length <$> fetchWeights defaultOptions format_model
     (zadd (zadd (zadd ∅ "w:noun:cat" 1.5 "d1").1 "w:noun:cat" 0.5 "d2").1
        "w:noun:cat" 1 "d3").1
     (Some 1) "noun:cat") = Some 4%nat.
Proof.
  refine (proj2 (fetchWeights_count defaultOptions format_model _ (Some 1) "noun:cat"
                   [("d2", Weight 0.5); ("d3", Weight 1); ("d1", Weight 1.5)] _ _));
    [reflexivity | vm_compute; discriminate].
Defined.

(** C6 fails for the default options: the stored node key noun:cat is matched
    by the term cat, and comes back without its first character. *)
Example resolveTerm_default_prefix :
  Redis.keys store_d1 (_fmt defaultOptions [Str "*"; Str "cat"])
    = ["noun:cat"; "<:noun:cat"; "t:noun:cat"] /\
  resolveTerm defaultOptions store_d1 "cat" = ["oun:cat"].
Proof. split; reflexivity. Qed.

End SearchFacts.

(** ** indexWeights *)

Module IndexFacts.
Import JS Redis DocumentGraph Spec.

(** C4, as the code has it: for a document whose adjacency set is empty the
    ZRANGE reply is the empty array, which is truthy; nothing is written and
    the callback receives true. *)
Theorem indexWeights_empty opts Math_log format_double (st : store) (id : string) :
  zrange st (_fmt opts [Str id]) 0 (-1) = Some [] ->
  indexWeights opts Math_log format_double st id = (st, true).
Proof.
  intros H. unfold indexWeights. rewrite H. reflexivity.
Qed.

Lemma indexWeights_empty_witness :
  indexWeights defaultOptions log_model format_model store_d1 "d2" = (store_d1, true).
Proof.
  apply (indexWeights_empty defaultOptions log_model format_model store_d1 "d2").
  reflexivity.
Defined.

(** The callback receives false only when the ZRANGE itself fails: the key of
    the document holds a string. *)
Lemma indexWeights_wrong_kind opts Math_log format_double (st : store) (id s : string) :
  st !! _fmt opts [Str id] = Some (RString s) ->
  indexWeights opts Math_log format_double st id = (st, false).
Proof.
  intros H. unfold indexWeights, zrange, zentries. rewrite H. reflexivity.
Qed.

End IndexFacts.

(** ** parseInt stops at the decimal point *)

Module ParseFacts.
Import JS Spec.

Lemma chars_app_dot (s t : string) :
  chars (s ++ "." ++ t) = (chars s ++ "."%char :: chars t)%list.
Proof.
  unfold chars. induction s as [| c s IH]; [reflexivity |].
  change (list_ascii_of_string (String c s ++ "." ++ t))
    with (c :: list_ascii_of_string (s ++ "." ++ t)).
  rewrite IH. reflexivity.
Qed.

Lemma skip_spaces_app_dot l t :
  skip_spaces (l ++ "."%char :: t) = (skip_spaces l ++ "."%char :: t)%list.
Proof.
  induction l as [| c l IH]; [reflexivity |].
  cbn [app skip_spaces]. destruct (is_space c); [exact IH | reflexivity].
Qed.

Lemma read_sign_app_dot l t :
  read_sign (l ++ "."%char :: t)
  = ((read_sign l).1, ((read_sign l).2 ++ "."%char :: t)%list).
Proof.
  destruct l as [| c l]; [reflexivity |].
  cbn [app read_sign].
  destruct (Ascii.eqb c "-"); [reflexivity |].
  destruct (Ascii.eqb c "+"); reflexivity.
Qed.

Lemma hex_marked_app_dot l t : hex_marked (l ++ "."%char :: t) = hex_marked l.
Proof.
  destruct l as [| c1 [| c2 l]]; cbn [app hex_marked].
  - destruct t; reflexivity.
  - apply andb_false_r.
  - reflexivity.
Qed.

Lemma drop2_marked {A} (l x : list A) :
  (2 <= length l)%nat -> drop 2 (l ++ x) = (drop 2 l ++ x)%list.
Proof. destruct l as [| a [| b l]]; cbn [length]; [lia | lia | reflexivity]. Qed.

Lemma hex_marked_length l : hex_marked l = true -> (2 <= length l)%nat.
Proof. destruct l as [| a [| b l]]; cbn [hex_marked length]; [discriminate .. | lia]. Qed.

Lemma read_digits_app_dot digit radix l t :
  digit "."%char = None ->
  forall a c,
    (read_digits digit radix (l ++ "."%char :: t) a c).1
    = (read_digits digit radix l a c).1.
Proof.
  intros Hd. induction l as [| x l IH]; intros a c; cbn [app read_digits].
  - rewrite Hd. reflexivity.
  - destruct (digit x); [apply IH | reflexivity].
Qed.

(** [parseInt] reads the same number off a text and off the text followed by
    a decimal point and anything else: the fraction is discarded. *)
Lemma parseInt_fraction (s t : string) : parseInt (s ++ "." ++ t) = parseInt s.
Proof.
  unfold parseInt. rewrite chars_app_dot, skip_spaces_app_dot, read_sign_app_dot.
  destruct (read_sign (skip_spaces (chars s))) as [neg l]. cbn [fst snd].
  rewrite hex_marked_app_dot.
  destruct (hex_marked l) eqn:Hh.
  - rewrite drop2_marked by (apply hex_marked_length, Hh).
    pose proof (read_digits_app_dot digit16 16 (drop 2 l) (chars t) eq_refl 0 O) as H.
    destruct (read_digits digit16 16 (drop 2 l ++ _) 0 O) as [[v c] r].
    destruct (read_digits digit16 16 (drop 2 l) 0 O) as [[v' c'] r'].
    cbn [fst] in H. injection H as -> ->. reflexivity.
  - pose proof (read_digits_app_dot digit10 10 l (chars t) eq_refl 0 O) as H.
    destruct (read_digits digit10 10 (l ++ _) 0 O) as [[v c] r].
    destruct (read_digits digit10 10 l 0 O) as [[v' c'] r'].
    cbn [fst] in H. injection H as -> ->. reflexivity.
Qed.

End ParseFacts.

(** ** Cosine similarity *)

Module CosineFacts.
Import JS Redis DocumentGraph Spec.

Lemma pair_ind {A} (P : list A -> Prop) :
  P [] -> (forall x, P [x]) -> (forall x y l, P l -> P (x :: y :: l)) ->
  forall l, P l.
Proof.
  intros H0 H1 H2 l.
  assert (P l /\ forall x, P (x :: l)) as [H _]; [| exact H].
  induction l as [| y l [IH1 IH2]]; split; auto.
Qed.

Lemma existsb_eqb_elem (x : string) (ids : list string) :
  existsb (String.eqb x) ids = true <-> x ∈ ids.
Proof.
  rewrite existsb_exists. split.
  - intros (y & Hy & Heq). apply String.eqb_eq in Heq. subst. apply list_elem_of_In, Hy.
  - intros H. exists x. split; [apply list_elem_of_In, H | apply String.eqb_refl].
Qed.

(** *** The scores objects *)

Lemma assign_lookup (o : object) (k : string) (v : float) (k' : string) :
  assign o k v !! k'
  = if String.eqb k "__proto__" then o !! k'
    else if String.eqb k k' then Some v else o !! k'.
Proof.
  unfold assign. destruct (String.eqb k "__proto__"); [reflexivity |].
  destruct (String.eqb_spec k k') as [<- | Hne].
  - apply lookup_insert_eq.
  - apply lookup_insert_ne, Hne.
Qed.

Lemma cosineStep_sum fp id x sc ids sc' ids' sum :
  (cosineStep fp id x (sc, ids, sum)).2 = (cosineStep fp id x (sc', ids', sum)).2.
Proof. unfold cosineStep. destruct (negb (_isIdFiltered fp id)); reflexivity. Qed.

(** The sum of squares of a loop does not depend on the scores object and the
    list of ids the loop starts with. *)
Lemma cosineScores_sum fp r : forall sc ids sc' ids' sum,
  (cosineScores fp r (sc, ids, sum)).2 = (cosineScores fp r (sc', ids', sum)).2.
Proof.
  induction r as [| x | x y l IH] using pair_ind; intros sc ids sc' ids' sum.
  - reflexivity.
  - cbn [cosineScores]. apply cosineStep_sum.
  - cbn [cosineScores].
    pose proof (cosineStep_sum fp x (parseInt y) sc ids sc' ids' sum) as Hs.
    destruct (cosineStep fp x (parseInt y) (sc, ids, sum)) as [[a b] c].
    destruct (cosineStep fp x (parseInt y) (sc', ids', sum)) as [[a' b'] c'].
    cbn [snd] in Hs. subst c'. apply IH.
Qed.

Lemma ownNames_cons fp (id : string) (rest : list string) :
  ownNames fp (id :: rest)
  = ((if negb (_isIdFiltered fp id) && negb (String.eqb id "__proto__") then [id] else [])
     ++ ownNames fp (match rest with [] => [] | _ :: rest' => rest' end))%list.
Proof.
  unfold ownNames. cbn [members List.filter].
  destruct (negb (_isIdFiltered fp id) && negb (String.eqb id "__proto__"));
    destruct rest; reflexivity.
Qed.

(** One step of a loop: the own properties, and the ids listed. *)
Lemma cosineStep_own fp id x sc ids s k :
  is_Some ((cosineStep fp id x (sc, ids, s)).1.1 !! k)
  <-> is_Some (sc !! k)
      \/ k ∈ (if negb (_isIdFiltered fp id) && negb (String.eqb id "__proto__")
              then [id] else []).
Proof.
  unfold cosineStep. destruct (negb (_isIdFiltered fp id)); cbn [andb fst].
  - rewrite assign_lookup. destruct (String.eqb id "__proto__"); cbn [negb].
    + rewrite elem_of_nil. tauto.
    + rewrite list_elem_of_singleton.
      destruct (String.eqb_spec id k) as [-> | Hne]; split; eauto.
      intros [H | H]; [exact H | congruence].
  - rewrite elem_of_nil. tauto.
Qed.

Lemma cosineStep_ids fp id x sc ids s k :
  (k ∈ ids \/ k ∈ (if negb (_isIdFiltered fp id) && negb (String.eqb id "__proto__")
                   then [id] else [])) ->
  k ∈ (cosineStep fp id x (sc, ids, s)).1.2.
Proof.
  unfold cosineStep. destruct (negb (_isIdFiltered fp id)); cbn [andb fst snd].
  - intros [H | H].
    + destruct (existsb (String.eqb id) ids); [exact H | apply elem_of_app; left; exact H].
    + assert (k = id) as ->.
      { destruct (negb (String.eqb id "__proto__")); [| inversion H].
        apply list_elem_of_singleton in H. exact H. }
      destruct (existsb (String.eqb id) ids) eqn:E.
      * apply existsb_eqb_elem, E.
      * apply elem_of_app. right. apply list_elem_of_singleton. reflexivity.
  - intros [H | H]; [exact H | inversion H].
Qed.

(** The own properties of the scores object after a loop are the ones it had
    and the names [ownNames] gives. *)
Lemma cosineScores_own fp r : forall sc ids s k,
  is_Some ((cosineScores fp r (sc, ids, s)).1.1 !! k)
  <-> is_Some (sc !! k) \/ k ∈ ownNames fp r.
Proof.
  induction r as [| x | x y l IH] using pair_ind; intros sc ids s k.
  - cbn [cosineScores fst]. unfold ownNames. cbn. rewrite elem_of_nil. tauto.
  - cbn [cosineScores]. rewrite cosineStep_own, ownNames_cons.
    change (ownNames fp []) with (@nil string). rewrite app_nil_r. reflexivity.
  - cbn [cosineScores]. rewrite ownNames_cons, elem_of_app.
    pose proof (cosineStep_own fp x (parseInt y) sc ids s k) as Hs.
    destruct (cosineStep fp x (parseInt y) (sc, ids, s)) as [[sc' ids'] s'].
    cbn [fst] in Hs. rewrite IH, Hs. tauto.
Qed.

(** Every id listed before the loop, and every own name, is listed after it. *)
Lemma cosineScores_ids fp r : forall sc ids s k,
  k ∈ ids \/ k ∈ ownNames fp r -> k ∈ (cosineScores fp r (sc, ids, s)).1.2.
Proof.
  induction r as [| x | x y l IH] using pair_ind; intros sc ids s k.
  - cbn [cosineScores fst snd]. intros [H | H]; [exact H | inversion H].
  - cbn [cosineScores]. rewrite ownNames_cons.
    change (ownNames fp []) with (@nil string). rewrite app_nil_r.
    apply cosineStep_ids.
  - cbn [cosineScores]. rewrite ownNames_cons, elem_of_app.
    pose proof (cosineStep_ids fp x (parseInt y) sc ids s k) as Hs.
    destruct (cosineStep fp x (parseInt y) (sc, ids, s)) as [[sc' ids'] s'].
    cbn [fst snd] in Hs. intros H. apply IH. tauto.
Qed.

(** *** The loop over the ids *)

Abbreviation dotPlain sc1 sc2 :=
  (fun (dotsum : float) (id : string) =>
     match (sc1 : object) !! id, (sc2 : object) !! id with
     | Some a, Some b => PrimFloat.add dotsum (PrimFloat.mul a b)
     | _, _ => dotsum
     end).

Lemma dot_thrown (sc1 sc2 : object) (ids : list string) :
  fold_left (dotStep sc1 sc2) ids None = None.
Proof. induction ids as [| id ids IH]; [reflexivity | exact IH]. Qed.

Lemma dot_first (sc1 sc2 : object) (ids : list string) (d : float) :
  is_Some (sc1 !! "hasOwnProperty") -> ids <> [] ->
  fold_left (dotStep sc1 sc2) ids (Some d) = None.
Proof.
  intros [x Hx] Hids. destruct ids as [| id ids]; [congruence |].
  cbn [fold_left dotStep]. unfold hasOwnProperty. rewrite Hx. apply dot_thrown.
Qed.

Lemma dot_second (sc1 sc2 : object) (ids : list string) : forall d,
  sc1 !! "hasOwnProperty" = None -> is_Some (sc2 !! "hasOwnProperty") ->
  (exists id, id ∈ ids /\ is_Some (sc1 !! id)) ->
  fold_left (dotStep sc1 sc2) ids (Some d) = None.
Proof.
  intros d H1 [x Hx] (id & Hin & [a Ha]). revert d.
  induction ids as [| id0 ids IH]; intros d; [inversion Hin |].
  cbn [fold_left dotStep]. unfold hasOwnProperty. rewrite H1, Hx.
  apply elem_of_cons in Hin as [<- | Hin].
  - rewrite Ha. apply dot_thrown.
  - destruct (sc1 !! id0); [apply dot_thrown | apply IH, Hin].
Qed.

Lemma dot_plain (sc1 sc2 : object) (ids : list string) : forall d,
  sc1 !! "hasOwnProperty" = None ->
  (sc2 !! "hasOwnProperty" = None \/ forall id, id ∈ ids -> sc1 !! id = None) ->
  fold_left (dotStep sc1 sc2) ids (Some d) = Some (fold_left (dotPlain sc1 sc2) ids d).
Proof.
  intros d H1 H2. revert d.
  induction ids as [| id ids IH]; intros d; [reflexivity |].
  cbn [fold_left dotStep]. unfold hasOwnProperty, number_at. rewrite H1.
  assert (sc2 !! "hasOwnProperty" = None \/ forall id, id ∈ ids -> sc1 !! id = None) as H2'.
  { destruct H2 as [H2 | H2]; [left; exact H2 | right].
    intros id' Hid'. apply H2. right. exact Hid'. }
  destruct (sc1 !! id) as [a |] eqn:Ea; [| apply IH, H2'].
  destruct H2 as [H2 | H2].
  - rewrite H2. destruct (sc2 !! id) as [b |]; apply IH, H2'.
  - rewrite H2 in Ea by left. discriminate.
Qed.

(** [_cosineFilter] throws exactly when [cosineThrows] says so; otherwise it
    divides some dot product by the product of the square roots of the two
    sums of squares. *)
Lemma cosine_shape fp r1 r2 :
  if cosineThrows fp r1 r2 then cosine fp r1 r2 = Thrown
  else exists dotsum,
         cosine fp r1 r2
         = Returned (PrimFloat.div dotsum
                       (PrimFloat.mul (PrimFloat.sqrt (sumSquares fp r1))
                                      (PrimFloat.sqrt (sumSquares fp r2)))).
Proof.
  unfold cosine, sumSquares, cosineThrows.
  pose proof (cosineScores_own fp r1 ∅ [] 0%float) as Hown1.
  pose proof (cosineScores_ids fp r1 ∅ [] 0%float) as Hids1.
  destruct (cosineScores fp r1 (∅, [], 0%float)) as [[sc1 ids1] s1] eqn:E1.
  pose proof (cosineScores_sum fp r2 ∅ ids1 ∅ [] 0%float) as Hs.
  pose proof (cosineScores_own fp r2 ∅ ids1 0%float) as Hown2.
  pose proof (cosineScores_ids fp r2 ∅ ids1 0%float) as Hids2.
  destruct (cosineScores fp r2 (∅, ids1, 0%float)) as [[sc2 ids2] s2] eqn:E2.
  cbn [fst snd] in *. rewrite <- Hs. clear Hs E1 E2.
  assert (forall k, is_Some (sc1 !! k) <-> k ∈ ownNames fp r1) as Hdom1.
  { intros k. rewrite Hown1, lookup_empty. split; [intros [[? H] | H] | intros H];
      [discriminate | exact H | right; exact H]. }
  assert (forall k, is_Some (sc2 !! k) <-> k ∈ ownNames fp r2) as Hdom2.
  { intros k. rewrite Hown2, lookup_empty. split; [intros [[? H] | H] | intros H];
      [discriminate | exact H | right; exact H]. }
  assert (forall k, k ∈ ownNames fp r1 -> k ∈ ids2) as Hlisted.
  { intros k Hk. apply Hids2. left. apply Hids1. right. exact Hk. }
  destruct (existsb (String.eqb "hasOwnProperty") (ownNames fp r1)) eqn:X1; cbn [orb].
  { apply existsb_eqb_elem in X1.
    rewrite dot_first; [reflexivity | apply Hdom1, X1 |].
    intros ->. specialize (Hlisted _ X1). inversion Hlisted. }
  assert (sc1 !! "hasOwnProperty" = None) as N1.
  { destruct (sc1 !! "hasOwnProperty") eqn:E; [| reflexivity].
    assert ("hasOwnProperty" ∈ ownNames fp r1) as H by (apply Hdom1; eauto).
    apply existsb_eqb_elem in H. congruence. }
  destruct (ownNames fp r1) as [| k0 own1] eqn:O1; cbn [andb].
  { rewrite dot_plain; [eexists; reflexivity | exact N1 | right].
    intros id _. destruct (sc1 !! id) eqn:E; [| reflexivity].
    assert (id ∈ []) as H by (apply Hdom1; eauto). inversion H. }
  destruct (existsb (String.eqb "hasOwnProperty") (ownNames fp r2)) eqn:X2.
  { apply existsb_eqb_elem in X2.
    rewrite dot_second; [reflexivity | exact N1 | apply Hdom2, X2 |].
    exists k0. split; [apply Hlisted; left | apply Hdom1; left]. }
  rewrite dot_plain; [eexists; reflexivity | exact N1 | left].
  destruct (sc2 !! "hasOwnProperty") eqn:E; [| reflexivity].
  assert ("hasOwnProperty" ∈ ownNames fp r2) as H by (apply Hdom2; eauto).
  apply existsb_eqb_elem in H. congruence.
Qed.

Lemma cosine_zero_magnitude fp r1 r2 :
  sumSquares fp r1 = 0%float \/ sumSquares fp r2 = 0%float ->
  if cosineThrows fp r1 r2 then cosine fp r1 r2 = Thrown
  else exists sim, cosine fp r1 r2 = Returned sim /\ nonfinite sim.
Proof.
  intros H. pose proof (cosine_shape fp r1 r2) as Hs.
  destruct (cosineThrows fp r1 r2); [exact Hs |].
  destruct Hs as [d ->]. eexists. split; [reflexivity |].
  apply FloatFacts.div_zeroish.
  destruct H as [-> | ->]; rewrite FloatFacts.sqrt_zero.
  - apply FloatFacts.mul_zero_l.
  - apply FloatFacts.mul_zero_r.
Qed.

(** *** The two loops on the entries of two sorted sets *)

Section Vectors.

Variable format_double : float -> string.
Variable fp : option (list string).

Abbreviation val := (fun e : string * score => readScore format_double e.2).
Abbreviation put := (fun (m : object) (e : string * score) => assign m e.1 (val e)).
Abbreviation note := (fun (ids : list string) (e : string * score) =>
                    if existsb (String.eqb e.1) ids then ids else (ids ++ [e.1])%list).
Abbreviation square := (fun (s : float) (e : string * score) =>
                      PrimFloat.add s (PrimFloat.mul (val e) (val e))).
Abbreviation read := (fun e : string * score => (e.1, val e)).

Lemma cosineScores_withscores (l : list (string * score)) : forall sc ids sum,
  cosineScores fp (withscores format_double l) (sc, ids, sum)
  = (fold_left put (keptEntries fp l) sc,
     fold_left note (keptEntries fp l) ids,
     fold_left square (keptEntries fp l) sum).
Proof.
  induction l as [| e l IH]; intros sc ids sum; [reflexivity |].
  change (withscores format_double (e :: l))
    with (e.1 :: format_score format_double e.2 :: withscores format_double l).
  cbn [cosineScores]. unfold cosineStep, keptEntries. cbn [List.filter].
  fold (keptEntries fp l).
  destruct (negb (_isIdFiltered fp e.1)); rewrite IH; reflexivity.
Qed.

Lemma note_fresh (K : list (string * score)) : forall ids,
  NoDup (ids ++ K.*1) -> fold_left note K ids = (ids ++ K.*1)%list.
Proof.
  induction K as [| e K IH]; intros ids Hnd; cbn [fold_left fmap list_fmap].
  - symmetry. apply app_nil_r.
  - destruct (existsb (String.eqb e.1) ids) eqn:E.
    + apply existsb_eqb_elem in E. apply NoDup_app in Hnd as (_ & Hd & _).
      exfalso. apply (Hd _ E). left.
    + rewrite IH; rewrite <- app_assoc; [reflexivity | exact Hnd].
Qed.

Lemma note_known (K : list (string * score)) : forall ids,
  (forall e, e ∈ K -> e.1 ∈ ids) -> fold_left note K ids = ids.
Proof.
  induction K as [| e K IH]; intros ids Hin; cbn [fold_left]; [reflexivity |].
  assert (existsb (String.eqb e.1) ids = true) as ->.
  { apply existsb_eqb_elem, Hin. left. }
  apply IH. intros e' He'. apply Hin. right. exact He'.
Qed.

(** The second loop appends to [ids] only names that are not there yet. *)
Lemma note_extra (K : list (string * score)) : forall ids,
  exists extra,
    fold_left note K ids = (ids ++ extra)%list /\ forall k, k ∈ extra -> k ∉ ids.
Proof.
  induction K as [| e K IH]; intros ids; cbn [fold_left].
  - exists []. split; [symmetry; apply app_nil_r | intros k Hk; inversion Hk].
  - destruct (existsb (String.eqb e.1) ids) eqn:E; [apply IH |].
    destruct (IH (ids ++ [e.1])%list) as (extra & Hf & Hx).
    exists (e.1 :: extra). split; [rewrite Hf, <- app_assoc; reflexivity |].
    intros k Hk Hin. apply elem_of_cons in Hk as [-> | Hk].
    + apply existsb_eqb_elem in Hin. congruence.
    + apply (Hx k Hk), elem_of_app. left. exact Hin.
Qed.

Lemma put_other (K : list (string * score)) : forall (m : object) k,
  k ∉ K.*1 -> fold_left put K m !! k = m !! k.
Proof.
  induction K as [| e K IH]; intros m k Hk; cbn [fold_left]; [reflexivity |].
  cbn [fmap list_fmap] in Hk. apply not_elem_of_cons in Hk as [Hne Hk].
  rewrite IH by exact Hk. rewrite assign_lookup.
  destruct (String.eqb e.1 "__proto__"); [reflexivity |].
  destruct (String.eqb_spec e.1 k); [congruence | reflexivity].
Qed.

Lemma put_lookup (K : list (string * score)) : forall (m : object) e,
  NoDup K.*1 -> e ∈ K -> e.1 <> "__proto__" -> fold_left put K m !! e.1 = Some (val e).
Proof.
  induction K as [| e0 K IH]; intros m e Hnd He Hp; [inversion He |].
  cbn [fmap list_fmap] in Hnd. apply NoDup_cons in Hnd as [Hfresh Hnd].
  cbn [fold_left]. apply elem_of_cons in He as [-> | He].
  - rewrite put_other by exact Hfresh. rewrite assign_lookup.
    destruct (String.eqb_spec e0.1 "__proto__"); [congruence |].
    rewrite String.eqb_refl. reflexivity.
  - apply IH; assumption.
Qed.

(** The scores object of a loop against the vector it has read. *)
Lemma put_find (K : list (string * score)) : forall (m : object) k,
  NoDup K.*1 -> Forall (fun e => e.1 <> "__proto__") K ->
  fold_left put K m !! k
  = match list_find (fun e2 : string * float => e2.1 = k) (read <$> K) with
    | Some (_, e2) => Some e2.2
    | None => m !! k
    end.
Proof.
  induction K as [| e0 K IH]; intros m k Hnd Hp; [reflexivity |].
  cbn [fmap list_fmap] in Hnd. apply NoDup_cons in Hnd as [Hfresh Hnd].
  apply Forall_cons in Hp as [Hp0 Hp].
  cbn [fold_left fmap list_fmap list_find]. cbn [fst].
  destruct (decide (e0.1 = k)) as [<- | Hne].
  - rewrite put_other by exact Hfresh. rewrite assign_lookup.
    destruct (String.eqb_spec e0.1 "__proto__"); [congruence |].
    rewrite String.eqb_refl. reflexivity.
  - rewrite IH by assumption.
    destruct (list_find _ (read <$> K)) as [[i e2] |]; cbn; [reflexivity |].
    rewrite assign_lookup.
    destruct (String.eqb e0.1 "__proto__"); [reflexivity |].
    destruct (String.eqb_spec e0.1 k); [congruence | reflexivity].
Qed.

Lemma keptEntries_NoDup (l : list (string * score)) :
  NoDup l.*1 -> NoDup (keptEntries fp l).*1.
Proof.
  induction l as [| e l IH]; intros Hnd; [constructor |].
  cbn [fmap list_fmap] in Hnd. apply NoDup_cons in Hnd as [Hfresh Hnd].
  unfold keptEntries. cbn [List.filter]. fold (keptEntries fp l).
  destruct (negb (_isIdFiltered fp e.1)); [| apply IH, Hnd].
  cbn [fmap list_fmap]. apply NoDup_cons. split; [| apply IH, Hnd].
  intros Hin. apply Hfresh.
  apply list_elem_of_fmap in Hin as (e' & -> & He').
  apply list_elem_of_fmap. exists e'. split; [reflexivity |].
  unfold keptEntries in He'. apply list_elem_of_In, filter_In in He' as [He' _].
  apply list_elem_of_In, He'.
Qed.

Lemma dot_absent (sc1 sc2 : object) (ids : list string) : forall d,
  (forall k, k ∈ ids -> sc1 !! k = None) -> fold_left (dotPlain sc1 sc2) ids d = d.
Proof.
  induction ids as [| id ids IH]; intros d H; [reflexivity |].
  cbn [fold_left]. rewrite (H id) by left. apply IH.
  intros k Hk. apply H. right. exact Hk.
Qed.

Lemma dot_vectors (K : list (string * score)) (sc1 sc2 : object)
    (v2 : list (string * float)) : forall d,
  (forall e, e ∈ K -> sc1 !! e.1 = Some (val e)) ->
  (forall k, sc2 !! k = match list_find (fun e2 : string * float => e2.1 = k) v2 with
                        | Some (_, e2) => Some e2.2
                        | None => None
                        end) ->
  fold_left (dotPlain sc1 sc2) K.*1 d
  = fold_left
      (fun acc e =>
         match list_find (fun e2 : string * float => e2.1 = e.1) v2 with
         | Some (_, e2) => PrimFloat.add acc (PrimFloat.mul e.2 e2.2)
         | None => acc
         end) (read <$> K) d.
Proof.
  induction K as [| e K IH]; intros d H1 H2; [reflexivity |].
  cbn [fmap list_fmap fold_left]. cbn [fst snd].
  rewrite (H1 e) by left. rewrite H2.
  destruct (list_find _ v2) as [[i e2] |]; apply IH; try exact H2;
    intros e' He'; apply H1; right; exact He'.
Qed.

Lemma squares_read (K : list (string * score)) : forall d,
  fold_left square K d
  = fold_left (fun acc e => PrimFloat.add acc (PrimFloat.mul e.2 e.2)) (read <$> K) d.
Proof. induction K as [| e K IH]; intros d; [reflexivity | apply IH]. Qed.

(** On two sorted sets without the names [__proto__] and [hasOwnProperty],
    [_cosineFilter] computes the cosine of the two vectors it has read. *)
Lemma cosine_vectors (l1 l2 : list (string * score)) :
  NoDup l1.*1 -> NoDup l2.*1 ->
  Forall (fun e => plain_name e.1) (keptEntries fp l1) ->
  Forall (fun e => plain_name e.1) (keptEntries fp l2) ->
  cosine fp (withscores format_double l1) (withscores format_double l2)
  = Returned (cosine_ref (readVector format_double fp l1) (readVector format_double fp l2)).
Proof.
  intros Hnd1 Hnd2 Hp1 Hp2. unfold cosine.
  rewrite !cosineScores_withscores. cbv beta iota zeta.
  pose proof (keptEntries_NoDup l1 Hnd1) as HK1.
  pose proof (keptEntries_NoDup l2 Hnd2) as HK2.
  unfold cosine_ref, dot_ref, norm_ref, squares_ref, readVector.
  set (K1 := keptEntries fp l1) in *. set (K2 := keptEntries fp l2) in *.
  assert (forall K : list (string * score),
            Forall (fun e => plain_name e.1) K ->
            Forall (fun e => e.1 <> "__proto__") K /\ "hasOwnProperty" ∉ K.*1) as Hplain.
  { intros K HK. split.
    - eapply Forall_impl; [exact HK |]. intros e [H _]. exact H.
    - intros Hin. apply list_elem_of_fmap in Hin as (e & He & Hin).
      rewrite Forall_forall in HK. destruct (HK e Hin) as [_ H]. congruence. }
  destruct (Hplain K1 Hp1) as [Hq1 Hh1]. destruct (Hplain K2 Hp2) as [Hq2 Hh2].
  rewrite (note_fresh K1 []) by exact HK1. cbn [app].
  destruct (note_extra K2 K1.*1) as (extra & -> & Hextra).
  rewrite dot_plain.
  2: { rewrite put_other by exact Hh1. apply lookup_empty. }
  2: { left. rewrite put_other by exact Hh2. apply lookup_empty. }
  rewrite fold_left_app, dot_absent.
  2: { intros k Hk. rewrite put_other by (apply Hextra, Hk). apply lookup_empty. }
  rewrite (dot_vectors K1 _ _ (read <$> K2)).
  - rewrite !squares_read. reflexivity.
  - intros e He. apply put_lookup; [exact HK1 | exact He |].
    rewrite Forall_forall in Hq1. apply Hq1, He.
  - intros k. rewrite put_find by assumption.
    destruct (list_find _ (read <$> K2)) as [[i e2] |]; [reflexivity | apply lookup_empty].
Qed.

(** The vector a loop has read against itself. *)
Lemma find_self (v : list (string * float)) (e : string * float) :
  NoDup v.*1 -> e ∈ v ->
  exists i, list_find (fun e2 : string * float => e2.1 = e.1) v = Some (i, e).
Proof.
  induction v as [| e0 v IH]; intros Hnd He; [inversion He |].
  cbn [fmap list_fmap] in Hnd. apply NoDup_cons in Hnd as [Hfresh Hnd].
  cbn [list_find]. apply elem_of_cons in He as [-> | He].
  - exists O. destruct (decide (e0.1 = e0.1)); [reflexivity | congruence].
  - destruct (decide (e0.1 = e.1)) as [Heq | Hne].
    + exfalso. apply Hfresh. rewrite Heq. apply list_elem_of_fmap.
      exists e. split; [reflexivity | exact He].
    + destruct (IH Hnd He) as [i ->]. exists (S i). reflexivity.
Qed.

Lemma dot_self (v : list (string * float)) : NoDup v.*1 -> dot_ref v v = squares_ref v.
Proof.
  intros Hnd. unfold dot_ref, squares_ref.
  assert (forall w d, (forall e, e ∈ w -> e ∈ v) ->
            fold_left
              (fun acc e =>
                 match list_find (fun e2 : string * float => e2.1 = e.1) v with
                 | Some (_, e2) => PrimFloat.add acc (PrimFloat.mul e.2 e2.2)
                 | None => acc
                 end) w d
            = fold_left (fun acc e => PrimFloat.add acc (PrimFloat.mul e.2 e.2)) w d) as H.
  { induction w as [| e w IH]; intros d Hw; [reflexivity |].
    cbn [fold_left]. destruct (find_self v e Hnd) as [i ->]; [apply Hw; left |].
    apply IH. intros e' He'. apply Hw. right. exact He'. }
  apply H. auto.
Qed.

End Vectors.

Section WithPlatform.

Variable opts : options.
Variable format_double : float -> string.

Abbreviation W x := (_fmt opts [Str WEIGHT; Str x]).

Lemma zentries_NoDup (st : store) (k : string) (l : list (string * score)) :
  zentries st k = Some l -> NoDup l.*1.
Proof.
  unfold zentries. destruct (st !! k) as [[s | z] |]; intros H; try discriminate;
    injection H as <-; [apply ZSetFacts.sorted_entries_NoDup | constructor].
Qed.

Lemma zrange_withscores_all (st : store) (k : string) (l : list (string * score)) :
  zentries st k = Some l ->
  zrange_withscores format_double st k 0 (-1) = Some (withscores format_double l).
Proof.
  intros H. unfold zrange_withscores. rewrite H. cbn [fmap option_fmap option_map].
  rewrite ZSetFacts.range_all. reflexivity.
Qed.

Lemma zrange_withscores_entries (st : store) (k : string) (r : list string) :
  zrange_withscores format_double st k 0 (-1) = Some r ->
  exists l, NoDup l.*1 /\ r = withscores format_double l.
Proof.
  unfold zrange_withscores. destruct (zentries st k) as [l |] eqn:E;
    cbn [fmap option_fmap option_map]; intros H; [| discriminate].
  injection H as <-. rewrite ZSetFacts.range_all.
  exists l. split; [exact (zentries_NoDup st k l E) | reflexivity].
Qed.

(** C7, as the code has it: when the weights of either document, as
    [_cosineFilter] keeps and reads them, have a zero sum of squares, the
    similarity handed to the callback is NaN or an infinity, never 0; no
    similarity is handed over when the loop over the ids throws, which a
    member named hasOwnProperty brings about.  [CosineSimilarity] and
    [CosineConceptSimilarity] are [_cosineFilter] without a filter and with
    the filter noun, adj. *)
Theorem cosineFilter_zero_magnitude (st : store) (fp : option (list string))
    (id1 id2 : string) (r1 r2 : list string) :
  zrange_withscores format_double st (_fmt opts [Str WEIGHT; Str id1]) 0 (-1) = Some r1 ->
  zrange_withscores format_double st (_fmt opts [Str WEIGHT; Str id2]) 0 (-1) = Some r2 ->
  sumSquares fp r1 = 0%float \/ sumSquares fp r2 = 0%float ->
  if cosineThrows fp r1 r2
  then _cosineFilter opts format_double st fp id1 id2 = Thrown
  else exists sim, _cosineFilter opts format_double st fp id1 id2 = Returned sim /\
                   nonfinite sim.
Proof.
  intros H1 H2 Hz. unfold _cosineFilter. rewrite H1, H2.
  apply cosine_zero_magnitude, Hz.
Qed.

(** The similarity of two documents whose members are plain names is the
    cosine of the two vectors [_cosineFilter] has read. *)
Lemma cosineFilter_vectors (st : store) (fp : option (list string)) (id1 id2 : string)
    (l1 l2 : list (string * score)) :
  zentries st (W id1) = Some l1 -> zentries st (W id2) = Some l2 ->
  Forall (fun e => plain_name e.1) (keptEntries fp l1 ++ keptEntries fp l2) ->
  _cosineFilter opts format_double st fp id1 id2
  = Returned (cosine_ref (readVector format_double fp l1) (readVector format_double fp l2)).
Proof.
  intros H1 H2 Hp. apply Forall_app in Hp as [Hp1 Hp2]. unfold _cosineFilter.
  rewrite (zrange_withscores_all _ _ _ H1), (zrange_withscores_all _ _ _ H2).
  apply cosine_vectors; eauto using zentries_NoDup.
Qed.

(** C8, as the code has it: for a document whose members are plain names and
    whose weights are read as they are stored, the dot product of the stored
    vector with itself is its sum of squares [s], and the callback receives
    [s / (sqrt s * sqrt s)], in which each operation rounds. *)
Theorem cosineFilter_self (st : store) (fp : option (list string)) (id : string)
    (l : list (string * score)) :
  zentries st (_fmt opts [Str WEIGHT; Str id]) = Some l ->
  Forall (fun e => plain_name e.1) (keptEntries fp l) ->
  Forall (fun e => readScore format_double e.2 = score_value e.2) (keptEntries fp l) ->
  let v := keptVector fp l in
  let s := squares_ref v in
  dot_ref v v = s /\
  _cosineFilter opts format_double st fp id id
  = Returned (PrimFloat.div s (PrimFloat.mul (PrimFloat.sqrt s) (PrimFloat.sqrt s))).
Proof.
  intros Hl Hp Hr v s. subst s v.
  assert (readVector format_double fp l = keptVector fp l) as Hv.
  { unfold readVector, keptVector. apply Forall_fmap_ext.
    eapply Forall_impl; [exact Hr |]. intros e He. cbn beta. rewrite He. reflexivity. }
  assert (dot_ref (keptVector fp l) (keptVector fp l) = squares_ref (keptVector fp l)) as Hd.
  { apply dot_self. unfold keptVector. rewrite <- list_fmap_compose.
    apply (keptEntries_NoDup fp l), (zentries_NoDup _ _ _ Hl). }
  split; [exact Hd |].
  rewrite (cosineFilter_vectors st fp id id l l Hl Hl), Hv.
  - unfold cosine_ref, norm_ref. rewrite Hd. reflexivity.
  - apply Forall_app. split; exact Hp.
Qed.

(** C10: [_cosineFilter] reads every weight with [parseInt], which drops
    everything from the decimal point on, and computes the cosine of the
    vectors so read.  For the two documents of [store_fractions], whose
    weights are 1.5 and 2.5, both similarities are the cosine of the vectors
    with weights 1 and 2, below 0.8125, while the cosine of the stored
    vectors is above 0.875. *)
Theorem cosine_truncates :
  format_double 1.5%float = "1.5" -> format_double 2.5%float = "2.5" ->
  (forall st fp id1 id2 l1 l2,
     zentries st (W id1) = Some l1 -> zentries st (W id2) = Some l2 ->
     Forall (fun e => plain_name e.1) (keptEntries fp l1 ++ keptEntries fp l2) ->
     _cosineFilter opts format_double st fp id1 id2
     = Returned (cosine_ref (readVector format_double fp l1)
                            (readVector format_double fp l2))) /\
  (forall s t : string, parseInt (s ++ "." ++ t) = parseInt s) /\
  (forall (x : float) (s t : string),
     format_double x = s ++ "." ++ t -> readScore format_double (Weight x) = parseInt s) /\
  stored_vector store_fractions "w:d1" = [("noun:cat", 1.5%float); ("adj:big", 2.5%float)] /\
  stored_vector store_fractions "w:d2" = [("adj:big", 1.5%float); ("noun:cat", 2.5%float)] /\
  CosineSimilarity defaultOptions format_double store_fractions "d1" "d2"
  = Returned (cosine_ref [("noun:cat", 1%float); ("adj:big", 2%float)]
                         [("adj:big", 1%float); ("noun:cat", 2%float)]) /\
  CosineConceptSimilarity defaultOptions format_double store_fractions "d1" "d2"
  = Returned (cosine_ref [("noun:cat", 1%float); ("adj:big", 2%float)]
                         [("adj:big", 1%float); ("noun:cat", 2%float)]) /\
  PrimFloat.ltb (cosine_ref [("noun:cat", 1%float); ("adj:big", 2%float)]
                            [("adj:big", 1%float); ("noun:cat", 2%float)]) 0.8125 = true /\
  PrimFloat.ltb 0.875
    (cosine_ref (stored_vector store_fractions "w:d1") (stored_vector store_fractions "w:d2"))
  = true.
Proof.
  intros H15 H25.
  split; [intros st fp id1 id2 l1 l2; apply cosineFilter_vectors |].
  split; [exact ParseFacts.parseInt_fraction |].
  split; [intros x s t Hx; unfold readScore; cbn [format_score]; rewrite Hx;
          apply ParseFacts.parseInt_fraction |].
  split; [reflexivity |]. split; [reflexivity |].
  assert (forall fp,
            _isIdFiltered fp "noun:cat" = false -> _isIdFiltered fp "adj:big" = false ->
            _cosineFilter defaultOptions format_double store_fractions fp "d1" "d2"
            = Returned (cosine_ref [("noun:cat", 1%float); ("adj:big", 2%float)]
                                   [("adj:big", 1%float); ("noun:cat", 2%float)])) as H.
  { intros fp Hn Ha. unfold _cosineFilter.
    change (_fmt defaultOptions [Str WEIGHT; Str "d1"]) with "w:d1".
    change (_fmt defaultOptions [Str WEIGHT; Str "d2"]) with "w:d2".
    rewrite (zrange_withscores_all store_fractions "w:d1"
               [("noun:cat", Weight 1.5); ("adj:big", Weight 2.5)] eq_refl).
    rewrite (zrange_withscores_all store_fractions "w:d2"
               [("adj:big", Weight 1.5); ("noun:cat", Weight 2.5)] eq_refl).
    rewrite cosine_vectors.
    - unfold readVector, keptEntries, readScore. cbn [List.filter fst snd format_score].
      rewrite Hn, Ha. cbn [negb fmap list_fmap fst snd format_score].
      rewrite H15, H25. reflexivity.
    - apply (zentries_NoDup store_fractions "w:d1"). reflexivity.
    - apply (zentries_NoDup store_fractions "w:d2"). reflexivity.
    - unfold keptEntries. cbn [List.filter fst]. rewrite Hn, Ha.
      repeat constructor; discriminate.
    - unfold keptEntries. cbn [List.filter fst]. rewrite Hn, Ha.
      repeat constructor; discriminate. }
  split; [apply H; reflexivity |]. split; [apply H; reflexivity |].
  split; reflexivity.
Qed.

End WithPlatform.

Lemma cosineFilter_self_witness :
  _cosineFilter defaultOptions format_model store_ones None "d1" "d1"
  = Returned (PrimFloat.div 2 (PrimFloat.mul (PrimFloat.sqrt 2) (PrimFloat.sqrt 2))).
Proof.
  destruct (cosineFilter_self defaultOptions format_model store_ones None "d1"
              [("adj:big", Weight 1); ("noun:cat", Weight 1)]) as [_ H].
  - reflexivity.
  - repeat constructor; discriminate.
  - repeat constructor.
  - exact H.
Defined.

(** C8 fails as stated: a document with two terms of weight 1 has a stored
    vector of magnitude sqrt 2, a sum of squares of 2, and its similarity to
    itself is 0.99999999999999978. *)
Lemma cosine_self_counterexample :
  stored_vector store_ones "w:d1" = [("adj:big", 1%float); ("noun:cat", 1%float)] /\
  norm_ref (stored_vector store_ones "w:d1") = PrimFloat.sqrt 2 /\
  CosineSimilarity defaultOptions format_model store_ones "d1" "d1"
    = Returned 0x1.ffffffffffffep-1%float /\
  Returned 0x1.ffffffffffffep-1%float <> Returned 1%float.
Proof.
  repeat split; try reflexivity.
  intros H.
  apply (f_equal (fun o => match o with Returned x => Prim2SF x | _ => S754_nan end)) in H.
  vm_compute in H. discriminate.
Qed.

Lemma cosine_truncates_witness :
  CosineSimilarity defaultOptions format_model store_fractions "d1" "d2"
  = Returned (cosine_ref [("noun:cat", 1%float); ("adj:big", 2%float)]
                         [("adj:big", 1%float); ("noun:cat", 2%float)]).
Proof.
  destruct (cosine_truncates defaultOptions format_model eq_refl eq_refl)
    as (_ & _ & _ & _ & _ & H & _).
  exact H.
Defined.

Lemma cosineFilter_zero_magnitude_witness :
  exists sim, _cosineFilter defaultOptions format_model store_d1 None "d1" "d2" = Returned sim /\
              nonfinite sim.
Proof.
  exact (cosineFilter_zero_magnitude defaultOptions format_model store_d1 None "d1" "d2"
           [] [] eq_refl eq_refl (or_introl eq_refl)).
Defined.

(** C7 fails as stated: two documents that were read but never indexed have
    empty weight vectors, and both similarities are NaN, not 0. *)
Lemma cosine_zero_magnitude_counterexample :
  sumSquares None [] = 0%float /\
  CosineSimilarity defaultOptions format_model store_d1 "d1" "d2" = Returned nan /\
  CosineConceptSimilarity defaultOptions format_model store_d1 "d1" "d2" = Returned nan /\
  Returned nan <> Returned 0%float.
Proof.
  repeat split; try reflexivity.
  intros H.
  apply (f_equal (fun o => match o with Returned x => Prim2SF x | _ => S754_nan end)) in H.
  vm_compute in H. discriminate.
Qed.

End CosineFacts.

(** ** The keys [_fmt] builds *)

Module KeyFacts.
Import JS Redis DocumentGraph Spec.

Lemma append_assoc (a b c : string) : (a ++ b) ++ c = a ++ (b ++ c).
Proof.
  induction a as [| x a IH]; [reflexivity |].
  change (String x ((a ++ b) ++ c) = String x (a ++ (b ++ c))). rewrite IH. reflexivity.
Qed.

Lemma append_nil_r (a : string) : a ++ "" = a.
Proof.
  induction a as [| x a IH]; [reflexivity |].
  change (String x (a ++ "") = String x a). rewrite IH. reflexivity.
Qed.

Lemma prefix_append (p s : string) : String.prefix p (p ++ s) = true.
Proof.
  induction p as [| x p IH]; [destruct s; reflexivity |].
  change (String.prefix (String x p) (String x (p ++ s)) = true).
  cbn [String.prefix]. destruct (ascii_dec x x); [exact IH | congruence].
Qed.

Lemma append_eq_self (a b : string) : a ++ b = a -> b = "".
Proof.
  induction a as [| x a IH]; [trivial |].
  change (String x (a ++ b) = String x a -> b = ""). intros H. injection H as H. apply IH, H.
Qed.

Lemma positive_length (s : string) : (0 <? String.length s)%nat = truthy s.
Proof. destruct s; reflexivity. Qed.

Section WithOptions.

Variable opts : options.

Abbreviation fmt := (_fmt opts).
Abbreviation sep := (separator opts).
Abbreviation pre := (key_prefix opts).

(** One string: the empty one gives the bare namespace. *)
Lemma fmt_one (x : string) :
  fmt [Str x] = if truthy x then pre ++ x else nsPrefix opts.
Proof.
  unfold _fmt, key_prefix. cbn [fold_left]. rewrite !positive_length.
  destruct (nsPrefix opts) as [| c ns]; destruct x as [| d x]; cbn [truthy app join];
    try reflexivity.
  symmetry. apply append_assoc.
Qed.

(** A reserved word and one more string. *)
Lemma fmt_two (w x : string) :
  truthy w = true ->
  fmt [Str w; Str x] = if truthy x then pre ++ w ++ sep ++ x else pre ++ w.
Proof.
  intros Hw. unfold _fmt, key_prefix. cbn [fold_left]. rewrite !positive_length, Hw.
  destruct w as [| e w]; [discriminate |].
  destruct (nsPrefix opts) as [| c ns]; destruct x as [| d x]; cbn [truthy app join];
    rewrite ?append_assoc; reflexivity.
Qed.

Lemma fmt_word (w : string) : truthy w = true -> fmt [Str w] = pre ++ w.
Proof. intros Hw. rewrite fmt_one, Hw. reflexivity. Qed.

(** [_fmt] of one string determines the string. *)
Lemma fmt_one_inj (a b : string) : fmt [Str a] = fmt [Str b] -> a = b.
Proof.
  rewrite !fmt_one. unfold key_prefix.
  destruct (nsPrefix opts) as [| c ns] eqn:Ens; cbn [truthy].
    assert (forall s : string, "" ++ s = s) as Hnil by reflexivity.
    destruct a, b; cbn [truthy]; rewrite ?Hnil; congruence.
  - destruct (truthy a) eqn:Ha, (truthy b) eqn:Hb.
    + rewrite !append_assoc. intros H.
      apply (inj (String.app _)), (inj (String.app _)) in H. exact H.
    + rewrite append_assoc. intros H. apply append_eq_self in H.
      destruct (separator opts), a; discriminate.
    + rewrite append_assoc. intros H. symmetry in H. apply append_eq_self in H.
      destruct (separator opts), b; discriminate.
    + destruct a, b; try discriminate. reflexivity.
Qed.

End WithOptions.

End KeyFacts.

(** ** Reserved keys *)

Module ReservedFacts.
Import JS Redis DocumentGraph Spec KeyFacts.

Section WithOptions.

Variable opts : options.

Abbreviation fmt := (_fmt opts).

Lemma under_prefix (w x : string) :
  truthy w = true -> truthy x = true ->
  starts_with (fmt [Str w] ++ separator opts) (fmt [Str w; Str x]) = true.
Proof.
  intros Hw Hx. rewrite fmt_word, fmt_two by exact Hw. rewrite Hx.
  unfold starts_with.
  replace (key_prefix opts ++ w ++ separator opts ++ x)
    with (((key_prefix opts ++ w) ++ separator opts) ++ x)
    by (rewrite !append_assoc; reflexivity).
  apply prefix_append.
Qed.

Lemma reserved_total : reserved opts (fmt [Str TOTAL]) = true.
Proof. unfold reserved. rewrite String.eqb_refl. reflexivity. Qed.

Lemma reserved_total_key (k : string) : reserved opts (fmt [Str TOTAL; Str k]) = true.
Proof.
  destruct (truthy k) eqn:Hk.
  - unfold reserved, _isPrefixed, _prefixes. cbn [existsb].
    rewrite (under_prefix TOTAL k eq_refl Hk). rewrite !orb_true_r. reflexivity.
  - destruct k; [| discriminate]. apply reserved_total.
Qed.

Lemma reserved_content (id : string) : reserved opts (fmt [Str CONTENT; Str id]) = true.
Proof.
  destruct (truthy id) eqn:Hk.
  - unfold reserved, _isPrefixed, _prefixes. cbn [existsb].
    rewrite (under_prefix CONTENT id eq_refl Hk). rewrite !orb_true_r. reflexivity.
  - destruct id; [| discriminate]. unfold reserved.
    change (fmt [Str CONTENT; Str ""]) with (fmt [Str CONTENT]).
    rewrite String.eqb_refl, orb_true_r. reflexivity.
Qed.

Lemma reserved_next (p : string) :
  truthy p = true -> reserved opts (fmt [Str NEXT; Str p]) = true.
Proof.
  intros Hp. unfold reserved, _isPrefixed, _prefixes. cbn [existsb].
  rewrite (under_prefix NEXT p eq_refl Hp). rewrite !orb_true_r. reflexivity.
Qed.

Lemma clean_key (a K : string) :
  clean opts a = true -> reserved opts K = true -> fmt [Str a] <> K.
Proof.
  unfold clean. intros Ha HK <-. rewrite HK in Ha. discriminate.
Qed.

(** The counter of a node key is the counter of documents only for the
    empty key. *)
Lemma total_key_ne_total (k : string) :
  truthy k = true -> fmt [Str TOTAL; Str k] <> fmt [Str TOTAL].
Proof.
  intros Hk. rewrite fmt_two, fmt_word, Hk by reflexivity. intros H.
  apply (inj (String.app _)) in H.
  change (String "t" (separator opts ++ k) = String "t" "") in H.
  injection H as H. destruct (separator opts), k; discriminate.
Qed.

(** A content key is never a counter key. *)
Lemma content_ne_total (id k : string) :
  fmt [Str CONTENT; Str id] <> fmt [Str TOTAL; Str k].
Proof.
  rewrite !fmt_two by reflexivity. intros H.
  destruct (truthy id), (truthy k); apply (inj (String.app _)) in H; discriminate.
Qed.

Lemma content_ne_total_doc (id : string) : fmt [Str CONTENT; Str id] <> fmt [Str TOTAL].
Proof. apply (content_ne_total id ""). Qed.

End WithOptions.

End ReservedFacts.

(** ** Commands, key by key *)

Module TraceFacts.
Import JS Redis DocumentGraph Spec.

(** [INCRBY] reads back the integer it wrote. *)
Lemma string2ll_string_of_Z (z : Z) : string2ll (string_of_Z z) = Some z.
Proof.
  unfold string2ll.
  assert (forall n, 0 <= n ->
            exists c l', digits (S (Z.to_nat (Z.log2 n))) n = c :: l' /\
                         Ascii.eqb c "-" = false) as Hhead.
  { intros n Hn.
    pose proof (JSFacts.digits_plain (S (Z.to_nat (Z.log2 n))) n Hn) as Hall.
    pose proof (JSFacts.digits_nonempty (Z.to_nat (Z.log2 n)) n) as Hne.
    destruct (digits _ n) as [| c l']; [congruence |].
    exists c, l'. split; [reflexivity |].
    apply Forall_cons in Hall as [(_ & Hm & _) _].
    destruct (Ascii.eqb_spec c "-"); congruence. }
  destruct (z <? 0) eqn:Hneg.
  - apply Z.ltb_lt in Hneg.
    assert (string_of_Z z
            = String "-" (string_of_list_ascii (digits (S (Z.to_nat (Z.log2 (- z)))) (- z))))
      as Hs by (unfold string_of_Z; apply Z.ltb_lt in Hneg; rewrite Hneg; reflexivity).
    rewrite Hs at 1. unfold chars. cbn [list_ascii_of_string].
    rewrite list_ascii_of_string_of_list_ascii.
    change (Ascii.eqb "-" "-") with true. cbv beta iota.
    destruct (JSFacts.read_printed (- z) ltac:(lia)) as [k Hk]. rewrite Hk.
    replace (- - z) with z by lia. rewrite String.eqb_refl. reflexivity.
  - apply Z.ltb_ge in Hneg.
    assert (string_of_Z z = string_of_list_ascii (digits (S (Z.to_nat (Z.log2 z))) z))
      as Hs by (unfold string_of_Z; apply Z.ltb_ge in Hneg; rewrite Hneg; reflexivity).
    rewrite Hs at 1. unfold chars. rewrite list_ascii_of_string_of_list_ascii.
    destruct (Hhead z Hneg) as (c & l' & Hl & Hc).
    destruct (JSFacts.read_printed z Hneg) as [k Hk].
    rewrite Hl in *. rewrite Hc. rewrite Hk. rewrite String.eqb_refl. reflexivity.
Qed.


(** A command changes the value of its own key only, and by [kstep]. *)
Lemma exec_lookup (st : store) (c : cmd) (K : string) :
  exec st c !! K = kstep K (st !! K) c.
Proof.
  destruct c as [k | k m | k v]; cbn [exec kstep].
  - unfold incrby. destruct (String.eqb_spec k K) as [-> | Hne].
    + destruct (st !! K) as [[s | z] |] eqn:E; rewrite ?E; try reflexivity.
      * destruct (string2ll s); [apply lookup_insert_eq | exact E].
      * apply lookup_insert_eq.
    + destruct (st !! k) as [[s | z] |]; try reflexivity.
      * destruct (string2ll s); [apply lookup_insert_ne, Hne | reflexivity].
      * apply lookup_insert_ne, Hne.
  - unfold zincrby. destruct (String.eqb_spec k K) as [-> | Hne].
    + destruct (st !! K) as [[s | z] |] eqn:E; rewrite ?E; try reflexivity;
        apply lookup_insert_eq.
    + destruct (st !! k) as [[s | z] |]; try reflexivity; apply lookup_insert_ne, Hne.
  - unfold set. destruct (String.eqb_spec k K) as [-> | Hne].
    + apply lookup_insert_eq.
    + apply lookup_insert_ne, Hne.
Qed.

Lemma run_lookup (cs : list cmd) : forall (st : store) (K : string),
  run st cs !! K = fold_left (kstep K) cs (st !! K).
Proof.
  induction cs as [| c cs IH]; intros st K; [reflexivity |].
  cbn [run fold_left]. fold (run (exec st c) cs). rewrite IH, exec_lookup. reflexivity.
Qed.

Lemma run_app (st : store) (a b : list cmd) : run st (a ++ b) = run (run st a) b.
Proof. unfold run. apply fold_left_app. Qed.

(** *** Increments of one key *)

Lemma zset_incr_lookup (z : gmap string score) (m' m : string) :
  zset_incr z 1 m' !! m = if String.eqb m' m then bump (z !! m) else z !! m.
Proof.
  unfold zset_incr, bump. destruct (String.eqb_spec m' m) as [-> | Hne].
  - destruct (z !! m); apply lookup_insert_eq.
  - destruct (z !! m'); apply lookup_insert_ne, Hne.
Qed.

Lemma iter_bump_inside (n : nat) (o : option score) :
  Nat.iter n bump (bump o) = bump (Nat.iter n bump o).
Proof. induction n as [| n IH]; [reflexivity |]. rewrite !Nat.iter_succ, IH. reflexivity. Qed.


(** Unit increments add up on a count and keep a double a double. *)
Lemma count_iter (n : nat) (o : option score) :
  match o with
  | Some (Weight _) => exists y, Nat.iter n bump o = Some (Weight y)
  | _ => score_count (Nat.iter n bump o) = score_count o + Z.of_nat n /\
         forall y, Nat.iter n bump o <> Some (Weight y)
  end.
Proof.
  induction n as [| n IH].
  - change (Nat.iter 0 bump o) with o. destruct o as [[c | x] |]; cbn [score_count];
      [split; [lia | discriminate] | eexists; reflexivity | split; [lia | discriminate]].
  - rewrite Nat.iter_succ. destruct o as [[c | x] |].
    + destruct IH as [Hc Hw].
      destruct (Nat.iter n bump (Some (Count c))) as [[c' | x'] |];
        cbn [bump score_add score_count] in *;
        [split; [lia | discriminate] | exfalso; eapply Hw; reflexivity
        | split; [lia | discriminate]].
    + destruct IH as [y ->]. cbn [bump score_add]. eexists; reflexivity.
    + destruct IH as [Hc Hw].
      destruct (Nat.iter n bump None) as [[c' | x'] |];
        cbn [bump score_add score_count] in *;
        [split; [lia | discriminate] | exfalso; eapply Hw; reflexivity
        | split; [lia | discriminate]].
Qed.


Lemma zhits_cons (K m : string) (c : cmd) (cs : list cmd) :
  zhits K m (c :: cs)
  = ((match c with
      | ZIncr k m' => if String.eqb k K && String.eqb m' m then 1 else 0
      | _ => 0
      end) + zhits K m cs)%nat.
Proof.
  unfold zhits. cbn [List.filter].
  destruct c as [k | k m' | k v]; try reflexivity.
  destruct (String.eqb k K && String.eqb m' m); reflexivity.
Qed.

Lemma hits_cons (K : string) (c : cmd) (cs : list cmd) :
  hits K (c :: cs)
  = ((match c with Incr k => if String.eqb k K then 1 else 0 | _ => 0 end) + hits K cs)%nat.
Proof.
  unfold hits. cbn [List.filter].
  destruct c as [k | k m' | k v]; try reflexivity.
  destruct (String.eqb k K); reflexivity.
Qed.

Lemma zhits_app (K m : string) (a b : list cmd) :
  zhits K m (a ++ b) = (zhits K m a + zhits K m b)%nat.
Proof. unfold zhits. rewrite List.filter_app, length_app. reflexivity. Qed.

Lemma hits_app (K : string) (a b : list cmd) :
  hits K (a ++ b) = (hits K a + hits K b)%nat.
Proof. unfold hits. rewrite List.filter_app, length_app. reflexivity. Qed.

Lemma no_set_app (K : string) (a b : list cmd) :
  no_set K (a ++ b) = no_set K a && no_set K b.
Proof. unfold no_set. apply forallb_app. Qed.

(** On a sorted set, the commands add their [ZINCRBY]s member by member. *)
Lemma fold_zset (K : string) (cs : list cmd) :
  no_set K cs = true ->
  forall z, exists z',
    fold_left (kstep K) cs (Some (RZSet z)) = Some (RZSet z') /\
    forall m, z' !! m = Nat.iter (zhits K m cs) bump (z !! m).
Proof.
  induction cs as [| c cs IH]; intros Hns z.
  - exists z. split; [reflexivity | intros m; reflexivity].
  - cbn [no_set forallb] in Hns. apply andb_true_iff in Hns as [Hc Hns].
    cbn [fold_left].
    destruct c as [k | k m' | k v]; cbn [kstep].
    + assert ((if String.eqb k K then Some (RZSet z) else Some (RZSet z)) = Some (RZSet z))
        as -> by (destruct (String.eqb k K); reflexivity).
      destruct (IH Hns z) as (z' & Hz & Hm). exists z'. split; [exact Hz |].
      intros m. rewrite zhits_cons. apply Hm.
    + destruct (String.eqb k K) eqn:Hk.
      * destruct (IH Hns (zset_incr z 1 m')) as (z' & Hz & Hm). exists z'.
        split; [exact Hz |]. intros m. rewrite Hm, zset_incr_lookup, zhits_cons, Hk.
        cbn [andb]. destruct (String.eqb m' m); [| reflexivity].
        rewrite iter_bump_inside. reflexivity.
      * destruct (IH Hns z) as (z' & Hz & Hm). exists z'. split; [exact Hz |].
        intros m. rewrite zhits_cons, Hk. cbn [andb]. apply Hm.
    + destruct (String.eqb k K); [discriminate |].
      destruct (IH Hns z) as (z' & Hz & Hm). exists z'. split; [exact Hz |].
      intros m. rewrite zhits_cons. apply Hm.
Qed.

(** On a string, the commands add their [INCRBY]s when it holds an integer. *)
Lemma fold_string (K : string) (cs : list cmd) :
  no_set K cs = true ->
  forall s, exists s',
    fold_left (kstep K) cs (Some (RString s)) = Some (RString s') /\
    string2ll s' = (fun z => z + Z.of_nat (hits K cs)) <$> string2ll s.
Proof.
  induction cs as [| c cs IH]; intros Hns s.
  - exists s. split; [reflexivity |].
    destruct (string2ll s) as [z |]; cbn; [f_equal; lia | reflexivity].
  - cbn [no_set forallb] in Hns. apply andb_true_iff in Hns as [Hc Hns].
    cbn [fold_left]. rewrite hits_cons.
    destruct c as [k | k m' | k v]; cbn [kstep].
    + destruct (String.eqb k K) eqn:Hk.
      * destruct (string2ll s) as [z |] eqn:Hs.
        -- destruct (IH Hns (string_of_Z (z + 1))) as (s' & Hf & Hv). exists s'.
           split; [exact Hf |]. rewrite Hv, string2ll_string_of_Z. cbn. f_equal. lia.
        -- destruct (IH Hns s) as (s' & Hf & Hv). exists s'.
           split; [exact Hf |]. rewrite Hv, Hs. reflexivity.
      * destruct (IH Hns s) as (s' & Hf & Hv). exists s'. split; [exact Hf |].
        rewrite Hv. destruct (string2ll s); cbn; [f_equal; lia | reflexivity].
    + assert ((if String.eqb k K then Some (RString s) else Some (RString s))
              = Some (RString s)) as -> by (destruct (String.eqb k K); reflexivity).
      destruct (IH Hns s) as (s' & Hf & Hv). exists s'. split; [exact Hf |].
      rewrite Hv. destruct (string2ll s); cbn; [f_equal; lia | reflexivity].
    + destruct (String.eqb k K); [discriminate |].
      destruct (IH Hns s) as (s' & Hf & Hv). exists s'. split; [exact Hf |].
      rewrite Hv. destruct (string2ll s); cbn; [f_equal; lia | reflexivity].
Qed.

(** On an absent key, the first command for the key decides its kind: the
    commands act as on an empty sorted set, or as on the string 0. *)
Lemma fold_none (K : string) (cs : list cmd) :
  no_set K cs = true ->
  (fold_left (kstep K) cs None = None /\ hits K cs = O /\ forall m, zhits K m cs = O) \/
  (fold_left (kstep K) cs None = fold_left (kstep K) cs (Some (RZSet ∅))) \/
  (fold_left (kstep K) cs None = fold_left (kstep K) cs (Some (RString "0")) /\
   (0 < hits K cs)%nat).
Proof.
  induction cs as [| c cs IH]; intros Hns.
  - left. repeat split.
  - cbn [no_set forallb] in Hns. apply andb_true_iff in Hns as [Hc Hns].
    cbn [fold_left]. rewrite hits_cons.
    destruct c as [k | k m' | k v]; cbn [kstep].
    + destruct (String.eqb k K) eqn:Hk.
      * right. right. split; [reflexivity | lia].
      * destruct (IH Hns) as [(H1 & H2 & H3) | [H | [H1 H2]]].
        -- left. repeat split; [exact H1 | exact H2 |].
           intros m. rewrite zhits_cons. apply H3.
        -- right. left. exact H.
        -- right. right. split; [exact H1 | lia].
    + destruct (String.eqb k K) eqn:Hk.
      * right. left. reflexivity.
      * destruct (IH Hns) as [(H1 & H2 & H3) | [H | [H1 H2]]].
        -- left. repeat split; [exact H1 | exact H2 |].
           intros m. rewrite zhits_cons, Hk. apply H3.
        -- right. left. exact H.
        -- right. right. split; [exact H1 | lia].
    + destruct (String.eqb k K); [discriminate |].
      destruct (IH Hns) as [(H1 & H2 & H3) | [H | [H1 H2]]].
      * left. repeat split; [exact H1 | exact H2 |].
        intros m. rewrite zhits_cons. apply H3.
      * right. left. exact H.
      * right. right. split; [exact H1 | lia].
Qed.

(** *** The same commands twice *)





Section Ingestion.

Variable opts : options.
Variable gloss_parse : string -> list token.

Abbreviation edge id :=
  (fun (acc : store * option string) (n : node) =>
     let '(st', k) := _incrEdges opts acc.1 id (_fmtNode opts n) acc.2 in (st', Some k)).

Lemma incrEdges_run (st : store) (id key : string) (prev : option string) :
  _incrEdges opts st id key prev = (run st (edgeCmds opts id key prev), key).
Proof.
  unfold _incrEdges, edgeCmds. rewrite run_app. f_equal.
  destruct prev as [p |]; [destruct (truthy p) |]; reflexivity.
Qed.

Lemma edges_run (id : string) (ns : list node) : forall st prev,
  (fold_left (edge id) ns (st, prev)).1
  = run st (chainCmds opts id prev (_fmtNode opts <$> ns)).
Proof.
  induction ns as [| n ns IH]; intros st prev; [reflexivity |].
  cbn [fold_left fmap list_fmap chainCmds fst snd]. rewrite incrEdges_run.
  rewrite IH, run_app. reflexivity.
Qed.

Lemma fold_filtered {A B} (f : A -> B -> A) (p : B -> bool) (l : list B) : forall a,
  fold_left (fun acc x => if p x then f acc x else acc) l a
  = fold_left f (List.filter p l) a.
Proof.
  induction l as [| x l IH]; intros a; [reflexivity |].
  cbn [fold_left List.filter]. destruct (p x); apply IH.
Qed.

Lemma readToken_nodes (id : string) (s : token) (acc : store * option string) :
  readToken opts id acc s = fold_left (edge id) (tokenNodes s) acc.
Proof.
  destruct acc as [st prev]. unfold readToken, tokenNodes.
  destruct (children s) as [cs |], (orig s) as [o |]; try reflexivity.
  - destruct (negb (isFiltered (self s))); [| reflexivity].
    rewrite fold_left_app, (fold_filtered (edge id) (fun c => negb (isFiltered c))).
    destruct (negb (isFiltered o)); reflexivity.
  - destruct (negb (isFiltered (self s))); reflexivity.
Qed.

Lemma readTokens_nodes (id : string) (toks : list token) : forall acc,
  fold_left (readToken opts id) toks acc
  = fold_left (edge id) (flat_map tokenNodes toks) acc.
Proof.
  induction toks as [| s toks IH]; intros acc; [reflexivity |].
  cbn [fold_left flat_map]. rewrite fold_left_app, IH, readToken_nodes. reflexivity.
Qed.

(** [readDocument] issues the commands of [docCmds], whatever the store. *)
Lemma readDocument_run (st : store) (id text : string) :
  readDocument opts gloss_parse st id text = run st (docCmds opts gloss_parse id text).
Proof.
  unfold readDocument, docCmds, edgeKeys.
  rewrite readTokens_nodes, edges_run. reflexivity.
Qed.

(** *** What the commands of a document touch *)

Abbreviation fmt := (_fmt opts).

Lemma edge_no_set (K id key : string) (prev : option string) :
  no_set K (edgeCmds opts id key prev) = true.
Proof.
  unfold edgeCmds. destruct prev as [p |]; [destruct (truthy p) |]; reflexivity.
Qed.

Lemma chain_no_set (K id : string) (keys : list string) : forall prev,
  no_set K (chainCmds opts id prev keys) = true.
Proof.
  induction keys as [| k keys IH]; intros prev; [reflexivity |].
  cbn [chainCmds]. rewrite no_set_app, edge_no_set, IH. reflexivity.
Qed.

Lemma doc_no_set (K id text : string) :
  K <> fmt [Str CONTENT; Str id] -> no_set K (docCmds opts gloss_parse id text) = true.
Proof.
  intros HK. unfold docCmds. cbn [no_set forallb].
  fold (no_set K (chainCmds opts id None (edgeKeys opts gloss_parse text))).
  rewrite chain_no_set.
  destruct (String.eqb_spec (fmt [Str CONTENT; Str id]) K); [congruence | reflexivity].
Qed.

Lemma eqb_false (a b : string) : a <> b -> String.eqb a b = false.
Proof. intros H. destruct (String.eqb_spec a b); congruence. Qed.





(** *** Sequences of ingestions from the empty store *)

Abbreviation trace docs :=
  (flat_map (fun d : string * string => docCmds opts gloss_parse d.1 d.2) docs).

Lemma ingest_run (docs : list (string * string)) : forall st,
  ingest opts gloss_parse st docs = run st (trace docs).
Proof.
  induction docs as [| d docs IH]; intros st; [reflexivity |].
  cbn [ingest fold_left flat_map]. fold (ingest opts gloss_parse).
  change (fold_left _ docs ?s) with (ingest opts gloss_parse s docs).
  rewrite IH, run_app, readDocument_run. reflexivity.
Qed.

Lemma eqb_fmt (x y : string) : String.eqb (fmt [Str x]) (fmt [Str y]) = String.eqb x y.
Proof.
  destruct (String.eqb_spec x y) as [-> | Hne]; [apply String.eqb_refl |].
  apply eqb_false. intros H. apply Hne, (KeyFacts.fmt_one_inj opts), H.
Qed.

Lemma clean_eqb (a K : string) :
  clean opts a = true -> reserved opts K = true -> String.eqb K (fmt [Str a]) = false.
Proof.
  intros Ha HK. apply eqb_false. intros H. symmetry in H.
  exact (ReservedFacts.clean_key opts a K Ha HK H).
Qed.

(** The commands of one edge, seen from the key of a clean name. *)
Lemma edge_clean (a id key : string) (prev : option string) :
  clean opts a = true ->
  no_set (fmt [Str a]) (edgeCmds opts id key prev) = true /\
  hits (fmt [Str a]) (edgeCmds opts id key prev) = O /\
  forall b, zhits (fmt [Str a]) b (edgeCmds opts id key prev)
            = ((if String.eqb id a && String.eqb key b then 1 else 0) +
               (if String.eqb key a && String.eqb id b then 1 else 0))%nat.
Proof.
  intros Ha. split; [apply edge_no_set |].
  unfold edgeCmds. split.
  - rewrite hits_app, !hits_cons.
    rewrite (clean_eqb a _ Ha (ReservedFacts.reserved_total_key opts key)).
    destruct prev as [p |]; [destruct (truthy p) |]; reflexivity.
  - intros b. rewrite zhits_app, !zhits_cons, !eqb_fmt.
    assert (zhits (fmt [Str a]) b
              match prev with
              | Some p => if truthy p then [ZIncr (fmt [Str NEXT; Str p]) key] else []
              | None => []
              end = O) as ->.
    { destruct prev as [p |]; [| reflexivity].
      destruct (truthy p) eqn:Hp; [| reflexivity].
      rewrite zhits_cons, (clean_eqb a _ Ha (ReservedFacts.reserved_next opts p Hp)).
      reflexivity. }
    cbn [zhits List.filter length]. lia.
Qed.

Lemma chain_clean (a id : string) (keys : list string) : forall prev,
  clean opts a = true ->
  no_set (fmt [Str a]) (chainCmds opts id prev keys) = true /\
  hits (fmt [Str a]) (chainCmds opts id prev keys) = O /\
  forall b, clean opts b = true ->
    zhits (fmt [Str a]) b (chainCmds opts id prev keys)
    = zhits (fmt [Str b]) a (chainCmds opts id prev keys).
Proof.
  induction keys as [| k keys IH]; intros prev Ha;
    [repeat split; reflexivity |].
  destruct (edge_clean a id k prev Ha) as (_ & Hh & Hz).
  destruct (IH (Some k) Ha) as (_ & IHh & IHz).
  split; [apply chain_no_set |]. cbn [chainCmds]. split.
  - rewrite hits_app, Hh, IHh. reflexivity.
  - intros b Hb. destruct (edge_clean b id k prev Hb) as (_ & _ & Hz').
    rewrite !zhits_app, Hz, Hz', IHz by exact Hb.
    rewrite (andb_comm (String.eqb id b)), (andb_comm (String.eqb k b)). lia.
Qed.

(** The commands of any sequence of ingestions, seen from a clean name. *)
Lemma trace_clean (a : string) (docs : list (string * string)) :
  clean opts a = true ->
  no_set (fmt [Str a]) (trace docs) = true /\
  hits (fmt [Str a]) (trace docs) = O /\
  forall b, clean opts b = true ->
    zhits (fmt [Str a]) b (trace docs) = zhits (fmt [Str b]) a (trace docs).
Proof.
  intros Ha. induction docs as [| [id text] docs (IHn & IHh & IHz)];
    [repeat split; reflexivity |].
  cbn [flat_map fst snd].
  change (docCmds opts gloss_parse id text)
    with (Incr (fmt [Str TOTAL]) :: SetStr (fmt [Str CONTENT; Str id]) text ::
          chainCmds opts id None (edgeKeys opts gloss_parse text)).
  destruct (chain_clean a id (edgeKeys opts gloss_parse text) None Ha) as (Hn & Hh & Hz).
  split; [| split].
  - rewrite no_set_app, IHn, andb_true_r. cbn [no_set forallb].
    fold (no_set (fmt [Str a]) (chainCmds opts id None (edgeKeys opts gloss_parse text))).
    rewrite Hn, (clean_eqb a _ Ha (ReservedFacts.reserved_content opts id)). reflexivity.
  - rewrite hits_app, IHh, !hits_cons, Hh.
    rewrite (clean_eqb a _ Ha (ReservedFacts.reserved_total opts)). reflexivity.
  - intros b Hb. rewrite !zhits_app, !zhits_cons, IHz, Hz by exact Hb. reflexivity.
Qed.

(** The value the key of a clean name holds after any sequence of
    ingestions into the empty store: nothing, or a sorted set whose scores
    count the [ZINCRBY]s. *)
Lemma clean_value (a : string) (docs : list (string * string)) :
  clean opts a = true ->
  let v := ingest opts gloss_parse ∅ docs !! fmt [Str a] in
  (v = None \/ exists z, v = Some (RZSet z)) /\
  forall m, value_zlookup v m = Nat.iter (zhits (fmt [Str a]) m (trace docs)) bump None.
Proof.
  intros Ha v. subst v. rewrite ingest_run, run_lookup, lookup_empty.
  destruct (trace_clean a docs Ha) as (Hn & Hh & _).
  destruct (fold_none (fmt [Str a]) (trace docs) Hn) as [(H1 & _ & H3) | [H | [_ H]]].
  - rewrite H1. split; [left; reflexivity |]. intros m. rewrite H3. reflexivity.
  - rewrite H. destruct (fold_zset (fmt [Str a]) (trace docs) Hn ∅) as (z & -> & Hz).
    split; [right; exists z; reflexivity |].
    intros m. cbn [value_zlookup]. rewrite Hz, lookup_empty. reflexivity.
  - rewrite Hh in H. lia.
Qed.

(** C2, as the code has it: after any sequence of ingestions into the empty
    store, for a document id and a node key that are both clean (the key
    [_fmt] gives each is not a bookkeeping key), ZSCORE of the key in the
    document's set and ZSCORE of the id in the key's set reply the same. *)
Theorem cooccurrence_symmetric (format_double : float -> string)
    (docs : list (string * string)) (id key : string) :
  clean opts id = true -> clean opts key = true ->
  zscore format_double (ingest opts gloss_parse ∅ docs) (fmt [Str id]) key
  = zscore format_double (ingest opts gloss_parse ∅ docs) (fmt [Str key]) id.
Proof.
  intros Hid Hkey.
  destruct (clean_value id docs Hid) as [Kid Lid].
  destruct (clean_value key docs Hkey) as [Kkey Lkey].
  destruct (trace_clean id docs Hid) as (_ & _ & Hsym).
  specialize (Lid key). specialize (Lkey id). rewrite (Hsym key Hkey) in Lid.
  unfold zscore.
  destruct Kid as [E1 | [z1 E1]], Kkey as [E2 | [z2 E2]];
    rewrite E1, E2 in *; cbn [value_zlookup] in Lid, Lkey.
  - reflexivity.
  - rewrite Lkey, <- Lid. reflexivity.
  - rewrite Lid, <- Lkey. reflexivity.
  - rewrite Lid, <- Lkey. reflexivity.
Qed.

End Ingestion.



Lemma cooccurrence_symmetric_witness :
  zscore format_model
    (ingest defaultOptions cat_run_cat ∅ [("d1", "cat run cat"); ("d2", "cat run cat")])
    "d1" "noun:cat"
  = zscore format_model
      (ingest defaultOptions cat_run_cat ∅ [("d1", "cat run cat"); ("d2", "cat run cat")])
      "noun:cat" "d1".
Proof.
  apply (cooccurrence_symmetric defaultOptions cat_run_cat format_model
           [("d1", "cat run cat"); ("d2", "cat run cat")] "d1" "noun:cat");
    reflexivity.
Defined.

(** C2 fails as stated: the adjacency set of the document id <:noun:cat is
    the next-edge set of the node key noun:cat, so the weight of verb:run
    under the id is 2 while the weight of the id under verb:run is 1. *)
Lemma cooccurrence_symmetric_counterexample :
  let st := ingest defaultOptions cat_run_cat ∅ [("<:noun:cat", "cat run cat")] in
  zscore format_model st (_fmt defaultOptions [Str "<:noun:cat"]) "verb:run" = RBulk "2" /\
  zscore format_model st (_fmt defaultOptions [Str "verb:run"]) "<:noun:cat" = RBulk "1".
Proof. split; reflexivity. Qed.

End TraceFacts.

(** ** More on keys: nodes, prefixes and the way back *)

Module KeyMore.
Import JS Redis DocumentGraph Spec KeyFacts.

Section WithOptions.

Variable opts : options.

Abbreviation fmt := (_fmt opts).

(** [_fmt] of a node object is [_fmt] of the string [_fmtNode] makes of it. *)
Theorem fmt_node (n : node) : fmt [Node n] = fmt [Str (_fmtNode opts n)].
Proof.
  rewrite fmt_one. unfold _fmt, _fmtNode, key_prefix. cbn [fold_left].
  rewrite positive_length.
  destruct (truthy (tag n)) eqn:Ht.
  - destruct (tag n) as [| c t]; [discriminate |].
    set (v := if truthy (distinct n) then distinct n else toLowerCase (term n)).
    change (toLowerCase (String c t)) with (String (lower_char c) (toLowerCase t)).
    destruct (nsPrefix opts) as [| d ns]; cbn [truthy app join]; [reflexivity |].
    rewrite append_assoc. reflexivity.
  - destruct (nsPrefix opts) as [| d ns]; reflexivity.
Qed.

(** Every key made of a reserved word and a non-empty string is recognised by
    [_isPrefixed]. *)
Theorem isPrefixed_reserved (w x : string) :
  In w [TOTAL; NEXT; CONTENT; WEIGHT] -> truthy x = true ->
  _isPrefixed opts (fmt [Str w; Str x]) = true.
Proof.
  intros Hw Hx. unfold _isPrefixed, _prefixes. cbn [existsb].
  pose proof (ReservedFacts.under_prefix opts TOTAL x eq_refl Hx) as H1.
  pose proof (ReservedFacts.under_prefix opts NEXT x eq_refl Hx) as H2.
  pose proof (ReservedFacts.under_prefix opts CONTENT x eq_refl Hx) as H3.
  pose proof (ReservedFacts.under_prefix opts WEIGHT x eq_refl Hx) as H4.
  destruct Hw as [<- | [<- | [<- | [<- | []]]]];
    [rewrite H1 | rewrite H2 | rewrite H3 | rewrite H4]; rewrite ?orb_true_r; reflexivity.
Qed.

Lemma slice_from_append (p x : string) : slice_from (String.length p) (p ++ x) = x.
Proof.
  induction p as [| c p IH]; [destruct x; reflexivity |].
  change (slice_from (S (String.length p)) (String c (p ++ x)) = x). exact IH.
Qed.

Lemma length_append (a b : string) :
  String.length (a ++ b) = (String.length a + String.length b)%nat.
Proof.
  induction a as [| c a IH]; [reflexivity |].
  change (S (String.length (a ++ b)) = S (String.length a + String.length b)).
  rewrite IH. reflexivity.
Qed.

(** With a namespace and a separator of one character, the slice [search]
    takes of a key gives back the name the key was made of. *)
Theorem slice_fmt (x : string) :
  truthy (nsPrefix opts) = true -> String.length (separator opts) = 1%nat ->
  truthy x = true ->
  slice_from (String.length (nsPrefix opts) + 1) (fmt [Str x]) = x.
Proof.
  intros Hns Hsep Hx. rewrite fmt_one, Hx. unfold key_prefix. rewrite Hns.
  rewrite <- Hsep, <- length_append. apply slice_from_append.
Qed.

End WithOptions.

Lemma isPrefixed_reserved_witness :
  _isPrefixed defaultOptions (_fmt defaultOptions [Str WEIGHT; Str "noun:cat"]) = true.
Proof.
  apply (isPrefixed_reserved defaultOptions WEIGHT "noun:cat");
    [right; right; right; left; reflexivity | reflexivity].
Defined.

Lemma slice_fmt_witness :
  slice_from 4
    (_fmt {| nsPrefix := "doc"; separator := ":"; searchLimit := 100 |} [Str "noun:cat"])
  = "noun:cat".
Proof.
  apply (slice_fmt {| nsPrefix := "doc"; separator := ":"; searchLimit := 100 |} "noun:cat");
    reflexivity.
Defined.

End KeyMore.

(** ** More on ingestion *)

Module IngestMore.
Import JS Redis DocumentGraph Spec KeyFacts TraceFacts.

(** What MGET shows of a value. *)
Lemma kstep_some (K : string) (c : cmd) (v : option rvalue) :
  is_Some v -> is_Some (kstep K v c).
Proof.
  intros [x ->]. destruct c as [k | k m | k s]; cbn [kstep];
    destruct (String.eqb _ K); try (eexists; reflexivity);
    destruct x as [s' | z]; try (eexists; reflexivity).
  destruct (string2ll s'); eexists; reflexivity.
Qed.

Lemma fold_some (K : string) (cs : list cmd) : forall v,
  is_Some v -> is_Some (fold_left (kstep K) cs v).
Proof.
  induction cs as [| c cs IH]; intros v Hv; [exact Hv |].
  cbn [fold_left]. apply IH, kstep_some, Hv.
Qed.

(** A string that no [INCRBY] and no SET addresses stays as it is. *)
Lemma fold_string_kept (K : string) (cs : list cmd) : forall s,
  no_set K cs = true -> hits K cs = O ->
  fold_left (kstep K) cs (Some (RString s)) = Some (RString s).
Proof.
  induction cs as [| c cs IH]; intros s Hns Hh; [reflexivity |].
  cbn [no_set forallb] in Hns. apply andb_true_iff in Hns as [Hc Hns].
  rewrite hits_cons in Hh. cbn [fold_left].
  destruct c as [k | k m | k v]; cbn [kstep].
  - destruct (String.eqb k K); [lia |]. apply IH; [exact Hns | lia].
  - assert ((if String.eqb k K then Some (RString s) else Some (RString s))
            = Some (RString s)) as -> by (destruct (String.eqb k K); reflexivity).
    apply IH; [exact Hns | lia].
  - destruct (String.eqb k K); [discriminate |]. apply IH; [exact Hns | lia].
Qed.

(** On an absent key that no [INCRBY] addresses, the commands leave nothing
    or a sorted set whose scores count the [ZINCRBY]s. *)
Lemma fold_none_zset (K : string) (cs : list cmd) :
  no_set K cs = true -> hits K cs = O ->
  let v := fold_left (kstep K) cs None in
  (v = None \/ exists z, v = Some (RZSet z)) /\
  forall m, value_zlookup v m = Nat.iter (zhits K m cs) bump None.
Proof.
  intros Hn Hh v. subst v.
  destruct (fold_none K cs Hn) as [(H1 & _ & H3) | [H | [_ H]]].
  - rewrite H1. split; [left; reflexivity |]. intros m. rewrite H3. reflexivity.
  - rewrite H. destruct (fold_zset K cs Hn ∅) as (z & -> & Hz).
    split; [right; exists z; reflexivity |].
    intros m. cbn [value_zlookup]. rewrite Hz, lookup_empty. reflexivity.
  - lia.
Qed.

(** On an absent key that no [ZINCRBY] addresses, the commands leave the
    number of [INCRBY]s. *)
Lemma fold_none_counter (K : string) (cs : list cmd) :
  no_set K cs = true -> (forall m, zhits K m cs = O) ->
  value_counter (fold_left (kstep K) cs None) = Z.of_nat (hits K cs).
Proof.
  induction cs as [| c cs IH]; intros Hns Hz; [reflexivity |].
  cbn [no_set forallb] in Hns. apply andb_true_iff in Hns as [Hc Hns].
  assert (forall m, zhits K m cs = O) as Hz'.
  { intros m. specialize (Hz m). rewrite zhits_cons in Hz. lia. }
  rewrite hits_cons. cbn [fold_left].
  destruct c as [k | k m | k v]; cbn [kstep].
  - destruct (String.eqb k K).
    + destruct (fold_string K cs Hns (string_of_Z 1)) as (s' & -> & Hv).
      cbn [value_counter]. rewrite Hv, string2ll_string_of_Z. cbn. lia.
    + rewrite IH by assumption. lia.
  - destruct (String.eqb k K) eqn:Hk.
    + specialize (Hz m). rewrite zhits_cons, Hk, String.eqb_refl in Hz. cbn in Hz. lia.
    + rewrite IH by assumption. lia.
  - destruct (String.eqb k K); [discriminate |]. rewrite IH by assumption. lia.
Qed.

Lemma score_count_iter_none (n : nat) : score_count (Nat.iter n bump None) = Z.of_nat n.
Proof. destruct (count_iter n None) as [H _]. rewrite H. cbn [score_count]. lia. Qed.

(** Commands never lower a counter or a count of a key they do not SET. *)
Lemma fold_grows (K : string) (cs : list cmd) (v : option rvalue) :
  no_set K cs = true ->
  value_counter v <= value_counter (fold_left (kstep K) cs v) /\
  forall m, score_count (value_zlookup v m)
            <= score_count (value_zlookup (fold_left (kstep K) cs v) m).
Proof.
  intros Hns.
  assert (forall z, value_counter (Some (RZSet z))
                    <= value_counter (fold_left (kstep K) cs (Some (RZSet z))) /\
          forall m, score_count (z !! m)
                    <= score_count (value_zlookup (fold_left (kstep K) cs (Some (RZSet z))) m))
    as Hzset.
  { intros z. destruct (fold_zset K cs Hns z) as (z' & -> & Hz).
    split; [reflexivity |]. intros m. cbn [value_zlookup]. rewrite Hz.
    pose proof (count_iter (zhits K m cs) (z !! m)) as Hc.
    destruct (z !! m) as [[c | x] |].
    - destruct Hc as [-> _]. cbn [score_count]. lia.
    - destruct Hc as [y ->]. reflexivity.
    - destruct Hc as [-> _]. cbn [score_count]. lia. }
  assert (forall s, value_counter (Some (RString s))
                    <= value_counter (fold_left (kstep K) cs (Some (RString s))) /\
          forall m, score_count None
                    <= score_count (value_zlookup (fold_left (kstep K) cs (Some (RString s))) m))
    as Hstr.
  { intros s. destruct (fold_string K cs Hns s) as (s' & -> & Hv).
    split; [| intros m; reflexivity].
    cbn [value_counter]. rewrite Hv. destruct (string2ll s); cbn; lia. }
  destruct v as [[s | z] |].
  - apply Hstr.
  - destruct (Hzset z) as [H1 H2]. split; [exact H1 | exact H2].
  - destruct (fold_none K cs Hns) as [(H1 & _) | [H | [H _]]].
    + rewrite H1. split; [reflexivity | intros m; reflexivity].
    + rewrite H. destruct (Hzset ∅) as [H1 H2]. split; [exact H1 |].
      intros m. specialize (H2 m). rewrite lookup_empty in H2. exact H2.
    + rewrite H. destruct (Hstr "0") as [H1 H2]. split; [exact H1 | exact H2].
Qed.

Section Ingestion.

Variable opts : options.
Variable gloss_parse : string -> list token.

Abbreviation fmt := (_fmt opts).
Abbreviation read := (readDocument opts gloss_parse).
Abbreviation keysOf text := (edgeKeys opts gloss_parse text).

Lemma fmt_two_inj (w a b : string) :
  truthy w = true -> fmt [Str w; Str a] = fmt [Str w; Str b] -> a = b.
Proof.
  intros Hw. rewrite !fmt_two by exact Hw.
  destruct (truthy a) eqn:Ha, (truthy b) eqn:Hb; intros H;
    apply (inj (String.app _)) in H.
  - apply (inj (String.app _)), (inj (String.app _)) in H. exact H.
  - apply append_eq_self in H. destruct (separator opts), a; discriminate.
  - symmetry in H. apply append_eq_self in H. destruct (separator opts), b; discriminate.
  - destruct a, b; try discriminate. reflexivity.
Qed.

Lemma next_ne_total (p k : string) : fmt [Str NEXT; Str p] <> fmt [Str TOTAL; Str k].
Proof.
  rewrite !fmt_two by reflexivity. intros H.
  destruct (truthy p), (truthy k); apply (inj (String.app _)) in H; discriminate.
Qed.

Lemma content_ne_next (id p : string) : fmt [Str CONTENT; Str id] <> fmt [Str NEXT; Str p].
Proof.
  rewrite !fmt_two by reflexivity. intros H.
  destruct (truthy id), (truthy p); apply (inj (String.app _)) in H; discriminate.
Qed.

Lemma chain_hits_content (x id : string) (keys : list string) : forall prev,
  hits (fmt [Str CONTENT; Str x]) (chainCmds opts id prev keys) = O.
Proof.
  induction keys as [| k keys IH]; intros prev; [reflexivity |].
  cbn [chainCmds]. rewrite hits_app, IH. unfold edgeCmds. rewrite hits_app, !hits_cons.
  rewrite (eqb_false _ _ (fun H => ReservedFacts.content_ne_total opts x k (eq_sym H))).
  destruct prev as [q |]; [destruct (truthy q) |]; reflexivity.
Qed.

(** A filtered token contributes nothing and does not break the chain of
    next edges: [readDocument] does the same with and without the filtered
    tokens of the glossary. *)
Theorem readDocument_filtered (st : store) (id text : string) :
  readDocument opts gloss_parse st id text
  = readDocument opts
      (fun t => List.filter (fun s => negb (isFiltered (self s))) (gloss_parse t))
      st id text.
Proof.
  rewrite !readDocument_run. unfold docCmds, edgeKeys.
  assert (flat_map tokenNodes (gloss_parse text)
          = flat_map tokenNodes
              (List.filter (fun s => negb (isFiltered (self s))) (gloss_parse text))) as <-;
    [| reflexivity].
  induction (gloss_parse text) as [| s toks IH]; [reflexivity |].
  cbn [flat_map List.filter].
  destruct (negb (isFiltered (self s))) eqn:Hf.
  - cbn [flat_map]. rewrite <- IH. reflexivity.
  - rewrite <- IH. unfold tokenNodes at 1. rewrite Hf.
    destruct (children s), (orig s); reflexivity.
Qed.

(** What was read is what [getContents] gives back. *)
Theorem getContents_read (st : store) (id text : string) :
  getContents opts (read st id text) [id] = [RBulk text].
Proof.
  unfold getContents, mget. cbn [fmap list_fmap].
  rewrite readDocument_run, run_lookup. unfold docCmds. cbn [fold_left kstep].
  rewrite String.eqb_refl.
  rewrite fold_string_kept; [reflexivity | apply chain_no_set | apply chain_hits_content].
Qed.

(** Reading a document leaves what [getContents] gives for every other id. *)
Theorem getContents_other (st : store) (id text id' : string) :
  id' <> id -> getContents opts (read st id text) [id'] = getContents opts st [id'].
Proof.
  intros Hne. unfold getContents, mget. cbn [fmap list_fmap]. f_equal.
  set (K := fmt [Str CONTENT; Str id']).
  assert (K <> fmt [Str CONTENT; Str id]) as HK.
  { intros H. apply Hne, (fmt_two_inj CONTENT), H. reflexivity. }
  rewrite readDocument_run, run_lookup.
  pose proof (doc_no_set opts gloss_parse K id text HK) as Hns.
  assert (hits K (docCmds opts gloss_parse id text) = O) as Hh.
  { unfold docCmds. rewrite !hits_cons. subst K. rewrite chain_hits_content.
    rewrite (eqb_false _ _ (fun H => ReservedFacts.content_ne_total_doc opts id' (eq_sym H))).
    reflexivity. }
  destruct (st !! K) as [[s | z] |].
  - rewrite fold_string_kept by assumption. reflexivity.
  - destruct (fold_zset K _ Hns z) as (z' & -> & _). reflexivity.
  - destruct (fold_none_zset K _ Hns Hh) as [[-> | [z ->]] _]; reflexivity.
Qed.

(** Reading a document lowers no counter and no count, the content key of the
    document apart. *)
Theorem readDocument_grows (st : store) (id text K : string) :
  K <> fmt [Str CONTENT; Str id] ->
  counter st K <= counter (read st id text) K /\
  forall m, zcount st K m <= zcount (read st id text) K m.
Proof.
  intros HK. unfold counter, zcount, zlookup. rewrite readDocument_run, run_lookup.
  apply fold_grows, doc_no_set, HK.
Qed.

(** Reading a document removes no key. *)
Theorem readDocument_keeps (st : store) (id text K : string) :
  is_Some (st !! K) -> is_Some (readDocument opts gloss_parse st id text !! K).
Proof.
  intros H. rewrite readDocument_run, run_lookup. apply fold_some, H.
Qed.

(** *** The first document of a store *)

Lemma eqb_total_key (a b : string) :
  String.eqb (fmt [Str TOTAL; Str a]) (fmt [Str TOTAL; Str b]) = String.eqb a b.
Proof.
  destruct (String.eqb_spec a b) as [-> | Hne]; [apply String.eqb_refl |].
  apply eqb_false. intros H. apply Hne, (fmt_two_inj TOTAL), H. reflexivity.
Qed.

Lemma eqb_next_key (a b : string) :
  String.eqb (fmt [Str NEXT; Str a]) (fmt [Str NEXT; Str b]) = String.eqb a b.
Proof.
  destruct (String.eqb_spec a b) as [-> | Hne]; [apply String.eqb_refl |].
  apply eqb_false. intros H. apply Hne, (fmt_two_inj NEXT), H. reflexivity.
Qed.

Lemma occurrences_cons (k x : string) (keys : list string) :
  occurrences k (x :: keys)
  = ((if String.eqb x k then 1 else 0) + occurrences k keys)%nat.
Proof.
  unfold occurrences. cbn [List.filter]. rewrite (String.eqb_sym k x).
  destruct (String.eqb x k); reflexivity.
Qed.

Lemma chain_hits_key (id k : string) (keys : list string) : forall prev,
  hits (fmt [Str TOTAL; Str k]) (chainCmds opts id prev keys) = occurrences k keys.
Proof.
  induction keys as [| x keys IH]; intros prev; [reflexivity |].
  cbn [chainCmds]. rewrite hits_app, IH, occurrences_cons. unfold edgeCmds.
  rewrite hits_app, !hits_cons, eqb_total_key.
  destruct prev as [q |]; [destruct (truthy q) |]; cbn [hits List.filter length]; lia.
Qed.

Lemma chain_zhits_reserved (K id m : string) (keys : list string) : forall prev,
  reserved opts K = true -> (forall q, K <> fmt [Str NEXT; Str q]) ->
  clean opts id = true -> Forall (fun x => clean opts x = true) keys ->
  zhits K m (chainCmds opts id prev keys) = O.
Proof.
  induction keys as [| x keys IH]; intros prev HK Hnext Hid Hall; [reflexivity |].
  apply Forall_cons in Hall as [Hx Hall].
  cbn [chainCmds]. rewrite zhits_app, IH by assumption. unfold edgeCmds.
  rewrite zhits_app, !zhits_cons.
  rewrite (eqb_false (fmt [Str id]) K) by (apply ReservedFacts.clean_key; assumption).
  rewrite (eqb_false (fmt [Str x]) K) by (apply ReservedFacts.clean_key; assumption).
  destruct prev as [q |]; [destruct (truthy q) |]; try reflexivity.
  rewrite zhits_cons, (eqb_false (fmt [Str NEXT; Str q]) K); [reflexivity |].
  intros H. exact (Hnext q (eq_sym H)).
Qed.

Lemma chain_zhits_doc (id k : string) (keys : list string) : forall prev,
  clean opts id = true -> id <> k ->
  zhits (fmt [Str id]) k (chainCmds opts id prev keys) = occurrences k keys.
Proof.
  induction keys as [| x keys IH]; intros prev Hid Hne; [reflexivity |].
  cbn [chainCmds]. rewrite zhits_app, IH, occurrences_cons by assumption.
  destruct (edge_clean opts id id x prev Hid) as (_ & _ & ->).
  rewrite String.eqb_refl, (eqb_false id k Hne), andb_false_r. cbn [andb]. lia.
Qed.

Lemma chain_zhits_next (id p k : string) (keys : list string) : forall prev,
  truthy p = true -> clean opts id = true ->
  Forall (fun x => clean opts x = true) keys ->
  zhits (fmt [Str NEXT; Str p]) k (chainCmds opts id prev keys) = follows p k prev keys.
Proof.
  induction keys as [| x keys IH]; intros prev Hp Hid Hall; [reflexivity |].
  apply Forall_cons in Hall as [Hx Hall].
  cbn [chainCmds follows]. rewrite zhits_app, IH by assumption. unfold edgeCmds.
  rewrite zhits_app, !zhits_cons.
  rewrite (eqb_false (fmt [Str id]) (fmt [Str NEXT; Str p]))
    by (apply ReservedFacts.clean_key; [assumption | apply ReservedFacts.reserved_next, Hp]).
  rewrite (eqb_false (fmt [Str x]) (fmt [Str NEXT; Str p]))
    by (apply ReservedFacts.clean_key; [assumption | apply ReservedFacts.reserved_next, Hp]).
  destruct prev as [q |]; [| reflexivity].
  destruct (truthy q) eqn:Hq.
  - rewrite zhits_cons, eqb_next_key. cbn [zhits List.filter length andb]. lia.
  - destruct q; [| discriminate]. destruct p; [discriminate | reflexivity].
Qed.

Lemma chain_hits_next (id p : string) (keys : list string) : forall prev,
  hits (fmt [Str NEXT; Str p]) (chainCmds opts id prev keys) = O.
Proof.
  induction keys as [| x keys IH]; intros prev; [reflexivity |].
  cbn [chainCmds]. rewrite hits_app, IH. unfold edgeCmds. rewrite hits_app, !hits_cons.
  rewrite (eqb_false _ _ (fun H => next_ne_total p x (eq_sym H))).
  destruct prev as [q |]; [destruct (truthy q) |]; reflexivity.
Qed.

(** Into an empty store, a document whose id and node keys are clean leaves
    frequencies: the counter of a node key and its weight against the id, on
    both sides, are the number of its occurrences in the text, and the weight
    of a next edge is the number of times the one key directly follows the
    other. *)
Theorem readDocument_frequencies (id text k p : string) :
  clean opts id = true -> Forall (fun x => clean opts x = true) (keysOf text) ->
  clean opts k = true -> truthy k = true -> truthy p = true -> id <> k ->
  let st := read ∅ id text in
  counter st (fmt [Str TOTAL; Str k]) = Z.of_nat (occurrences k (keysOf text)) /\
  zcount st (fmt [Str id]) k = Z.of_nat (occurrences k (keysOf text)) /\
  zcount st (fmt [Str k]) id = Z.of_nat (occurrences k (keysOf text)) /\
  zcount st (fmt [Str NEXT; Str p]) k = Z.of_nat (follows p k None (keysOf text)).
Proof.
  intros Hid Hall Hk Htk Hp Hne st. subst st.
  unfold counter, zcount, zlookup. rewrite !readDocument_run, !run_lookup, !lookup_empty.
  pose proof (chain_clean opts id id (keysOf text) None Hid) as (_ & Hhid & Hsym).
  pose proof (chain_clean opts k id (keysOf text) None Hk) as (_ & Hhk & _).
  assert (forall a, clean opts a = true ->
            no_set (fmt [Str a]) (docCmds opts gloss_parse id text) = true /\
            hits (fmt [Str a]) (docCmds opts gloss_parse id text) = O) as Hclean.
  { intros a Ha. split.
    - apply doc_no_set. apply ReservedFacts.clean_key;
        [exact Ha | apply ReservedFacts.reserved_content].
    - unfold docCmds. rewrite !hits_cons.
      rewrite (clean_eqb opts a _ Ha (ReservedFacts.reserved_total opts)).
      destruct (chain_clean opts a id (keysOf text) None Ha) as (_ & -> & _). reflexivity. }
  split; [| split; [| split]].
  - rewrite fold_none_counter.
    + unfold docCmds. rewrite !hits_cons, chain_hits_key.
      rewrite (eqb_false _ _ (fun H => ReservedFacts.total_key_ne_total opts k Htk (eq_sym H))).
      reflexivity.
    + apply doc_no_set. intros H. exact (ReservedFacts.content_ne_total opts id k (eq_sym H)).
    + intros m. unfold docCmds. rewrite !zhits_cons.
      rewrite chain_zhits_reserved; try assumption; [reflexivity | |].
      * apply ReservedFacts.reserved_total_key.
      * intros q H. exact (next_ne_total q k (eq_sym H)).
  - destruct (Hclean id Hid) as [Hn Hh].
    destruct (fold_none_zset _ _ Hn Hh) as [_ ->]. rewrite score_count_iter_none.
    unfold docCmds. rewrite !zhits_cons, chain_zhits_doc by assumption. reflexivity.
  - destruct (Hclean k Hk) as [Hn Hh].
    destruct (fold_none_zset _ _ Hn Hh) as [_ ->]. rewrite score_count_iter_none.
    unfold docCmds. rewrite !zhits_cons.
    destruct (chain_clean opts k id (keysOf text) None Hk) as (_ & _ & Hs).
    rewrite (Hs id Hid), chain_zhits_doc by assumption. reflexivity.
  - assert (no_set (fmt [Str NEXT; Str p]) (docCmds opts gloss_parse id text) = true) as Hn.
    { apply doc_no_set. intros H. exact (content_ne_next id p (eq_sym H)). }
    assert (hits (fmt [Str NEXT; Str p]) (docCmds opts gloss_parse id text) = O) as Hh.
    { unfold docCmds. rewrite !hits_cons.
      rewrite (eqb_false (fmt [Str TOTAL]) (fmt [Str NEXT; Str p]))
        by (intros H; exact (next_ne_total p "" (eq_sym H))).
      rewrite chain_hits_next. reflexivity. }
    destruct (fold_none_zset _ _ Hn Hh) as [_ ->]. rewrite score_count_iter_none.
    unfold docCmds. rewrite !zhits_cons, chain_zhits_next by assumption. reflexivity.
Qed.

End Ingestion.

(** The scenario of three tokens noun:cat verb:run noun:cat. *)
Lemma readDocument_frequencies_witness :
  counter store_d1 "t:noun:cat" = 2 /\ zcount store_d1 "d1" "noun:cat" = 2 /\
  zcount store_d1 "noun:cat" "d1" = 2 /\ zcount store_d1 "<:verb:run" "noun:cat" = 1.
Proof.
  apply (readDocument_frequencies defaultOptions cat_run_cat "d1" "cat run cat"
           "noun:cat" "verb:run");
    try reflexivity; [repeat constructor | discriminate].
Defined.

Lemma getContents_other_witness :
  getContents defaultOptions (readDocument defaultOptions cat_run_cat store_d1 "d2" "again")
    ["d1"]
  = [RBulk "cat run cat"].
Proof.
  rewrite (getContents_other defaultOptions cat_run_cat store_d1 "d2" "again" "d1");
    [reflexivity | discriminate].
Defined.

Lemma readDocument_grows_witness :
  counter store_d1 "t:noun:cat"
  <= counter (readDocument defaultOptions cat_run_cat store_d1 "d2" "again") "t:noun:cat" /\
  forall m,
    zcount store_d1 "t:noun:cat" m
    <= zcount (readDocument defaultOptions cat_run_cat store_d1 "d2" "again") "t:noun:cat" m.
Proof.
  refine (readDocument_grows defaultOptions cat_run_cat store_d1 "d2" "again" "t:noun:cat" _).
  discriminate.
Defined.

Lemma readDocument_keeps_witness :
  is_Some (readDocument defaultOptions cat_run_cat store_d1 "d2" "again" !! "d1").
Proof.
  apply (readDocument_keeps defaultOptions cat_run_cat store_d1 "d2" "again" "d1").
  eexists. reflexivity.
Defined.

End IngestMore.

(** ** More on search, similarity and TF-IDF *)

Module QueryMore.
Import JS Redis DocumentGraph Spec.

(** *** The scores object and the list of ids of [search] *)

Lemma addScore_tallied (docId : string) (w : float) (acc : object * list string) :
  docId <> "hasOwnProperty" -> acc.1 !! "hasOwnProperty" = None -> tallied acc ->
  exists acc', addScore docId w acc = Some acc' /\
               acc'.1 !! "hasOwnProperty" = None /\ tallied acc'.
Proof.
  destruct acc as [scores ids]. cbn [fst snd]. intros Hd Hh [Hnd Hdom].
  cbn [fst snd] in Hnd, Hdom.
  unfold addScore, hasOwnProperty. rewrite Hh.
  destruct (scores !! docId) as [x |] eqn:E.
  - assert (docId <> "__proto__") as Hp by (apply (Hdom docId); eauto).
    eexists. split; [reflexivity |]. cbn [fst snd].
    split; [rewrite CosineFacts.assign_lookup;
            destruct (String.eqb docId "__proto__"); [exact Hh |];
            destruct (String.eqb_spec docId "hasOwnProperty"); [congruence | exact Hh] |].
    split; [exact Hnd |]. intros d. cbn [fst snd]. rewrite <- Hdom.
    rewrite CosineFacts.assign_lookup.
    destruct (String.eqb_spec docId "__proto__"); [congruence |].
    destruct (String.eqb_spec docId d) as [<- | Hne]; [| reflexivity].
    rewrite E. split; eauto.
  - assert (docId ∉ filter (fun d : string => d <> "__proto__") ids) as Hfresh.
    { intros Hin. apply list_elem_of_filter in Hin as [Hp Hin].
      assert (is_Some (scores !! docId)) as [y Hy] by (apply Hdom; auto). congruence. }
    eexists. split; [reflexivity |]. cbn [fst snd].
    destruct (String.eqb_spec docId "__proto__") as [-> | Hp].
    + unfold assign. cbn [String.eqb Ascii.eqb Bool.eqb]. cbn [fst snd].
      split; [exact Hh |]. split; cbn [fst snd].
      * rewrite filter_app, filter_cons_False by auto. rewrite filter_nil, app_nil_r.
        exact Hnd.
      * intros d. rewrite Hdom, elem_of_app, list_elem_of_singleton. split.
        -- intros [Hin Hne]. auto.
        -- intros [[Hin | Heq] Hne]; [auto | congruence].
    + rewrite !CosineFacts.assign_lookup.
      destruct (String.eqb_spec docId "__proto__"); [congruence |].
      split.
      { destruct (String.eqb_spec docId "hasOwnProperty"); [congruence | exact Hh]. }
      split; cbn [fst snd].
      * rewrite filter_app, filter_cons_True, filter_nil by exact Hp.
        apply NoDup_app. repeat split; [exact Hnd | | apply NoDup_singleton].
        intros y Hy Hy'. apply list_elem_of_singleton in Hy'. subst. exact (Hfresh Hy).
      * intros d. rewrite !CosineFacts.assign_lookup.
        destruct (String.eqb_spec docId "__proto__"); [congruence |].
        rewrite elem_of_app, list_elem_of_singleton.
        destruct (String.eqb_spec docId d) as [<- | Hne].
        -- split; [intros _; auto | eauto].
        -- rewrite Hdom. split; [intros [Hin Hq]; auto |].
           intros [[Hin | Heq] Hq]; [auto | congruence].
Qed.

Lemma addScores_tallied (r : list string) : forall acc,
  "hasOwnProperty" ∉ members r -> acc.1 !! "hasOwnProperty" = None -> tallied acc ->
  exists acc', addScores r acc = Some acc' /\
               acc'.1 !! "hasOwnProperty" = None /\ tallied acc'.
Proof.
  induction r as [| docId | docId w r IH] using CosineFacts.pair_ind; intros acc Hm Hh Ht.
  - exists acc. auto.
  - cbn [addScores]. apply addScore_tallied; [| exact Hh | exact Ht].
    intros ->. apply Hm. left.
  - cbn [addScores]. cbn [members] in Hm. apply not_elem_of_cons in Hm as [Hd Hm].
    destruct (addScore_tallied docId (parseFloat w) acc) as (acc1 & -> & Hh1 & Ht1);
      [congruence | exact Hh | exact Ht |].
    apply IH; assumption.
Qed.

Lemma addScore_listed (docId : string) (w : float) (acc acc' : object * list string) :
  tallied acc -> addScore docId w acc = Some acc' ->
  docId ∈ acc'.2 /\ forall d, d ∈ acc.2 -> d ∈ acc'.2.
Proof.
  destruct acc as [scores ids]. intros [_ Hdom]. cbn [fst snd] in Hdom.
  unfold addScore. destruct (hasOwnProperty scores docId) as [own |] eqn:E; [| discriminate].
  unfold hasOwnProperty in E. destruct (scores !! "hasOwnProperty"); [discriminate |].
  destruct (scores !! docId) as [x |] eqn:Ex; injection E as <-;
    intros H; injection H as <-; cbn [fst snd].
  - split; [| auto]. apply (Hdom docId). eauto.
  - split; [| intros d Hd]; apply elem_of_app; [right; left | left; exact Hd].
Qed.

Lemma addScores_listed (r : list string) : forall acc acc',
  "hasOwnProperty" ∉ members r -> acc.1 !! "hasOwnProperty" = None -> tallied acc ->
  addScores r acc = Some acc' ->
  forall d, d ∈ members r \/ d ∈ acc.2 -> d ∈ acc'.2.
Proof.
  induction r as [| docId | docId w r IH] using CosineFacts.pair_ind;
    intros acc acc' Hm Hh Ht Hr d Hd.
  - cbn [addScores] in Hr. injection Hr as <-. destruct Hd as [Hd | Hd]; [inversion Hd | exact Hd].
  - cbn [addScores] in Hr. destruct (addScore_listed _ _ _ _ Ht Hr) as [H1 H2].
    destruct Hd as [Hd | Hd]; [| apply H2, Hd].
    apply list_elem_of_singleton in Hd. subst. exact H1.
  - cbn [addScores] in Hr. cbn [members] in Hm, Hd.
    apply not_elem_of_cons in Hm as [Hne Hm].
    destruct (addScore_tallied docId (parseFloat w) acc) as (acc1 & E1 & Hh1 & Ht1);
      [congruence | exact Hh | exact Ht |].
    rewrite E1 in Hr. destruct (addScore_listed _ _ _ _ Ht E1) as [H1 H2].
    apply (IH acc1 acc' Hm Hh1 Ht1 Hr).
    destruct Hd as [Hd | Hd]; [| right; apply H2, Hd].
    apply elem_of_cons in Hd as [-> | Hd]; [right; exact H1 | left; exact Hd].
Qed.

Lemma insertId_perm (scores : object) (a : string) (l : list string) :
  insertId scores a l ≡ₚ a :: l.
Proof.
  induction l as [| b l IH]; cbn [insertId]; [reflexivity |].
  destruct (PrimFloat.ltb _ _); [| reflexivity].
  rewrite IH. apply Permutation_swap.
Qed.

Lemma ranked_perm (scores : object) (ids : list string) :
  foldr (insertId scores) [] ids ≡ₚ ids.
Proof.
  induction ids as [| a ids IH]; cbn [foldr]; [reflexivity |].
  rewrite insertId_perm, IH. reflexivity.
Qed.

Lemma members_withscores fd (l : list (string * score)) : members (withscores fd l) = l.*1.
Proof.
  induction l as [| e l IH]; [reflexivity |].
  change (withscores fd (e :: l)) with (e.1 :: format_score fd e.2 :: withscores fd l).
  cbn [members fmap list_fmap]. rewrite IH. reflexivity.
Qed.

Lemma range_subseteq {A} (l : list A) (start stop : Z) : range l start stop ⊆ l.
Proof.
  unfold range. destruct (_ || _); [apply list_subseteq_nil |].
  etransitivity; [apply subseteq_take | apply subseteq_drop].
Qed.

Section WithPlatform.

Variable opts : options.
Variable Math_log : float -> float.
Variable format_double : float -> string.

Abbreviation fmt := (_fmt opts).

(** What one resolved term fetches when its weight key holds no string and
    has no member named hasOwnProperty. *)
Lemma fetchWeights_members (st : store) (limit : option Z) (t : string) :
  holds_string st (fmt [Str WEIGHT; Str t]) = false ->
  zlookup st (fmt [Str WEIGHT; Str t]) "hasOwnProperty" = None ->
  exists r, fetchWeights opts format_double st limit t = Some r /\
            "hasOwnProperty" ∉ members r.
Proof.
  unfold holds_string, zlookup, fetchWeights, zrevrange_withscores, zentries.
  destruct (st !! fmt [Str WEIGHT; Str t]) as [[s | z] |]; cbn [value_zlookup];
    intros Hs Hz; [discriminate | |].
  - eexists. split; [reflexivity |]. rewrite members_withscores.
    intros Hin. apply list_elem_of_fmap in Hin as (e & He & Hin).
    apply range_subseteq in Hin. apply (proj1 (elem_of_reverse _ _)) in Hin.
    rewrite ZSetFacts.sorted_entries_perm in Hin. destruct e as [m x].
    apply elem_of_map_to_list in Hin. cbn [fst] in He. subst m. congruence.
  - eexists. split; [reflexivity |]. rewrite members_withscores.
    intros Hin. apply list_elem_of_fmap in Hin as (e & He & Hin).
    apply range_subseteq in Hin. inversion Hin.
Qed.

(** When no weight key of a resolved term holds a string and none has a
    member named hasOwnProperty, [search] hands its callback a ranking and a
    scores object: every id that a resolved term fetches is listed, the ids
    that have a score are the ids listed other than [__proto__], and none of
    them is listed twice. *)
Theorem search_ranked (st : store) (terms : list string) (limit : option Z) :
  Forall (fun t => holds_string st (fmt [Str WEIGHT; Str t]) = false /\
                   zlookup st (fmt [Str WEIGHT; Str t]) "hasOwnProperty" = None)
    (flat_map (resolveTerm opts st) terms) ->
  exists ranked scores,
    search opts format_double st terms limit = Returned (ranked, scores) /\
    (forall t r d,
       t ∈ flat_map (resolveTerm opts st) terms ->
       fetchWeights opts format_double st limit t = Some r ->
       d ∈ members r -> d ∈ ranked) /\
    NoDup (filter (fun d : string => d <> "__proto__") ranked) /\
    forall d, is_Some (scores !! d) <-> d ∈ ranked /\ d <> "__proto__".
Proof.
  intros Hall. unfold search.
  set (ts := flat_map (resolveTerm opts st) terms) in *.
  assert (exists results, mapM (fetchWeights opts format_double st limit) ts = Some results /\
                          Forall (fun r => "hasOwnProperty" ∉ members r) results)
    as (results & Hmap & Hres).
  { clearbody ts. induction Hall as [| t ts [Hs Hz] _ (results & IH & Hres)].
    - exists []. split; [reflexivity | constructor].
    - destruct (fetchWeights_members st limit t Hs Hz) as (r & Hr & Hm).
      exists (r :: results). split; [| constructor; assumption].
      cbn [mapM]. rewrite Hr, IH. reflexivity. }
  rewrite Hmap.
  assert (forall acc, acc.1 !! "hasOwnProperty" = None -> tallied acc ->
            exists acc',
              fold_left (fun acc r => match acc with
                                      | Some a => addScores r a
                                      | None => None
                                      end) results (Some acc) = Some acc' /\
              tallied acc' /\
              forall d, (d ∈ acc.2 \/ exists r, r ∈ results /\ d ∈ members r) -> d ∈ acc'.2)
    as Hfold.
  { clear Hmap. induction Hres as [| r results Hr _ IH]; intros acc Hh Ht.
    - exists acc. split; [reflexivity |]. split; [exact Ht |].
      intros d [Hd | (r & Hr & _)]; [exact Hd | inversion Hr].
    - cbn [fold_left].
      destruct (addScores_tallied r acc Hr Hh Ht) as (acc1 & E1 & Hh1 & Ht1).
      rewrite E1. destruct (IH acc1 Hh1 Ht1) as (acc' & E' & Ht' & Hl').
      exists acc'. split; [exact E' |]. split; [exact Ht' |].
      pose proof (addScores_listed r acc acc1 Hr Hh Ht E1) as Hl1.
      intros d [Hd | (r' & Hr' & Hd)].
      + apply Hl'. left. apply Hl1. right. exact Hd.
      + apply elem_of_cons in Hr' as [-> | Hr'].
        * apply Hl'. left. apply Hl1. left. exact Hd.
        * apply Hl'. right. exists r'. split; assumption. }
  destruct (Hfold (∅, [])) as ([scores ids] & -> & [Hnd Hdom] & Hlisted).
  { apply lookup_empty. }
  { split; cbn [fst snd]; [constructor |].
    intros d. rewrite lookup_empty, elem_of_nil.
    split; [intros [x Hx]; discriminate | tauto]. }
  cbn [fst snd] in Hnd, Hdom, Hlisted.
  exists (foldr (insertId scores) [] ids), scores. split; [reflexivity |].
  split; [| split].
  - intros t r d Ht Hr Hd. rewrite ranked_perm. apply Hlisted. right.
    exists r. split; [| exact Hd].
    apply mapM_Some_1 in Hmap. apply list_elem_of_lookup in Ht as [i Hi].
    destruct (Forall2_lookup_l _ _ _ _ _ Hmap Hi) as (r' & Hr' & Hf).
    rewrite Hr in Hf. injection Hf as <-. apply list_elem_of_lookup. exists i. exact Hr'.
  - rewrite ranked_perm. exact Hnd.
  - intros d. rewrite ranked_perm. apply Hdom.
Qed.

(** Terms that resolve to no key give an empty ranking and no score; it is
    not an error. *)
Theorem search_nothing (st : store) (terms : list string) (limit : option Z) :
  Forall (fun t => resolveTerm opts st t = []) terms ->
  search opts format_double st terms limit = Returned ([], ∅).
Proof.
  intros Hall. unfold search.
  assert (flat_map (resolveTerm opts st) terms = []) as ->; [| reflexivity].
  induction Hall as [| t terms Ht _ IH]; [reflexivity |].
  cbn [flat_map]. rewrite Ht, IH. reflexivity.
Qed.

(** *** A document without weights *)

Lemma dot_without (sc : object) (ids : list string) : forall d,
  fold_left (CosineFacts.dotPlain ∅ sc) ids d = d /\
  fold_left (CosineFacts.dotPlain sc ∅) ids d = d.
Proof.
  induction ids as [| id ids IH]; intros d; [split; reflexivity |].
  cbn [fold_left]. rewrite lookup_empty. destruct (sc !! id); apply IH.
Qed.

Lemma div_zero_zeroish (m : float) : zeroish m -> PrimFloat.div 0 m = nan.
Proof. intros [-> | [-> | ->]]; reflexivity. Qed.

(** An empty reply on either side makes the similarity NaN, unless the loop
    over the ids throws. *)
Lemma cosine_empty (fp : option (list string)) (r : list string) :
  cosine fp [] r = Returned nan /\
  cosine fp r []
  = if existsb (String.eqb "hasOwnProperty") (ownNames fp r) then Thrown else Returned nan.
Proof.
  unfold cosine. cbn [cosineScores]. split.
  - destruct (cosineScores fp r (∅, [], 0%float)) as [[sc ids] s].
    rewrite CosineFacts.dot_plain;
      [| apply lookup_empty | right; intros; apply lookup_empty].
    rewrite (proj1 (dot_without sc ids 0%float)), FloatFacts.sqrt_zero.
    f_equal. apply div_zero_zeroish, FloatFacts.mul_zero_l.
  - pose proof (CosineFacts.cosineScores_own fp r ∅ [] 0%float) as Hown.
    pose proof (CosineFacts.cosineScores_ids fp r ∅ [] 0%float) as Hids.
    destruct (cosineScores fp r (∅, [], 0%float)) as [[sc ids] s].
    cbn [fst snd] in Hown, Hids.
    destruct (existsb (String.eqb "hasOwnProperty") (ownNames fp r)) eqn:X.
    + apply CosineFacts.existsb_eqb_elem in X.
      rewrite CosineFacts.dot_first; [reflexivity | apply Hown; right; exact X |].
      intros ->. assert ("hasOwnProperty" ∈ @nil string) as H by (apply Hids; right; exact X).
      inversion H.
    + rewrite CosineFacts.dot_plain; [| | left; apply lookup_empty].
      * rewrite (proj2 (dot_without sc ids 0%float)), FloatFacts.sqrt_zero.
        f_equal. apply div_zero_zeroish, FloatFacts.mul_zero_r.
      * destruct (sc !! "hasOwnProperty") eqn:E; [| reflexivity].
        assert ("hasOwnProperty" ∈ ownNames fp r) as H.
        { destruct (proj1 (Hown "hasOwnProperty")) as [[? H] | H]; eauto.
          rewrite lookup_empty in H. discriminate. }
        apply CosineFacts.existsb_eqb_elem in H. congruence.
Qed.

(** A document that was never indexed has no weight set.  Its similarity to
    itself is NaN, and so is its similarity to any document whose weights can
    be read; with that document as the first argument the call throws instead
    when one of its members that pass the filter is named hasOwnProperty. *)
Theorem cosineFilter_unindexed (st : store) (fp : option (list string))
    (id1 id2 : string) (r : list string) :
  st !! fmt [Str WEIGHT; Str id1] = None ->
  zrange_withscores format_double st (fmt [Str WEIGHT; Str id2]) 0 (-1) = Some r ->
  _cosineFilter opts format_double st fp id1 id2 = Returned nan /\
  _cosineFilter opts format_double st fp id2 id1
  = (if existsb (String.eqb "hasOwnProperty") (ownNames fp r) then Thrown
     else Returned nan) /\
  _cosineFilter opts format_double st fp id1 id1 = Returned nan.
Proof.
  intros H1 H2.
  assert (zrange_withscores format_double st (fmt [Str WEIGHT; Str id1]) 0 (-1) = Some [])
    as H0 by (unfold zrange_withscores, zentries; rewrite H1; reflexivity).
  unfold _cosineFilter. rewrite H0, H2.
  destruct (cosine_empty fp r) as [Ha Hb]. destruct (cosine_empty fp []) as [Hc _].
  rewrite Ha, Hb, Hc. repeat split.
Qed.

(** A weight key that holds a string fails the ZRANGE: the callback gets the
    error and no similarity. *)
Theorem cosineFilter_error (st : store) (fp : option (list string))
    (id1 id2 s : string) :
  st !! fmt [Str WEIGHT; Str id1] = Some (RString s) \/
  st !! fmt [Str WEIGHT; Str id2] = Some (RString s) ->
  _cosineFilter opts format_double st fp id1 id2 = Failed.
Proof.
  unfold _cosineFilter, zrange_withscores, zentries.
  intros [H | H]; rewrite H; cbn [fmap option_fmap option_map]; [reflexivity |].
  destruct (st !! fmt [Str WEIGHT; Str id1]) as [[s1 | z1] |]; reflexivity.
Qed.

(** *** Edge values of TFIDF *)

Lemma mul_nan_l (y : float) : PrimFloat.mul nan y = nan.
Proof.
  pose proof (mul_spec nan y) as H. change (Prim2SF nan) with S754_nan in H.
  apply FloatFacts.float_of_SF in H. rewrite H.
  destruct (Prim2SF y); reflexivity.
Qed.

(** A raw frequency of 1 gives a term frequency of exactly 1. *)
Theorem TFIDF_tf_one (st : store) (id : option string) (term : string) :
  log_special Math_log ->
  rawtf (TFIDF opts Math_log format_double st id term) = 1%float ->
  tf (TFIDF opts Math_log format_double st id term) = 1%float.
Proof.
  intros (_ & _ & _ & _ & Hone & _) H.
  change (tf (TFIDF opts Math_log format_double st id term))
    with (PrimFloat.add 1
            (PrimFloat.div (Math_log (rawtf (TFIDF opts Math_log format_double st id term)))
               LN10)).
  rewrite H, Hone. reflexivity.
Qed.

(** For a term that has no weight against the given document, the raw
    frequency, the term frequency and the score are NaN. *)
Theorem TFIDF_missing_pair (st : store) (i term : string) :
  log_special Math_log -> truthy i = true ->
  zlookup st (fmt [Str i]) term = None ->
  let r := TFIDF opts Math_log format_double st (Some i) term in
  rawtf r = nan /\ tf r = nan /\ tfidf r = nan.
Proof.
  intros (Hnan & _) Hi Hz r. subst r.
  assert (parseInt_reply (zscore format_double st (fmt [Str i]) term) = nan) as Hr.
  { unfold zlookup, value_zlookup in Hz. unfold zscore.
    destruct (st !! fmt [Str i]) as [[s | z] |]; try reflexivity.
    rewrite Hz. reflexivity. }
  unfold TFIDF, execResults. cbn [results0 results1 results2 results3].
  rewrite Hi. cbn [rawtf tf tfidf]. rewrite Hr, Hnan.
  change (PrimFloat.add 1 (PrimFloat.div nan LN10)) with nan.
  repeat split. apply mul_nan_l.
Qed.

End WithPlatform.

Lemma search_ranked_witness :
  exists ranked scores,
    search defaultOptions format_model
      (zadd (zadd (zadd ∅ "w:noun:cat" 1.5 "__proto__").1 "w:noun:cat" 0.5 "d2").1
         "w:adj:big" 1 "__proto__").1
      ["noun:cat"; "adj:big"] None
    = Returned (ranked, scores) /\
    (forall t r d,
       t ∈ flat_map
             (resolveTerm defaultOptions
                (zadd (zadd (zadd ∅ "w:noun:cat" 1.5 "__proto__").1 "w:noun:cat" 0.5 "d2").1
                   "w:adj:big" 1 "__proto__").1)
             ["noun:cat"; "adj:big"] ->
       fetchWeights defaultOptions format_model
         (zadd (zadd (zadd ∅ "w:noun:cat" 1.5 "__proto__").1 "w:noun:cat" 0.5 "d2").1
            "w:adj:big" 1 "__proto__").1 None t = Some r ->
       d ∈ members r -> d ∈ ranked) /\
    NoDup (filter (fun d : string => d <> "__proto__") ranked) /\
    forall d, is_Some (scores !! d) <-> d ∈ ranked /\ d <> "__proto__".
Proof.
  refine (search_ranked defaultOptions format_model _ ["noun:cat"; "adj:big"] None _).
  repeat apply Forall_cons_2; [| | apply Forall_nil_2]; split; vm_compute; reflexivity.
Defined.

Lemma search_nothing_witness :
  search defaultOptions format_model ∅ ["zzz-unknown"] None = Returned ([], ∅).
Proof.
  apply (search_nothing defaultOptions format_model ∅ ["zzz-unknown"] None).
  repeat constructor.
Defined.

Lemma cosineFilter_unindexed_witness :
  _cosineFilter defaultOptions format_model store_ones None "d9" "d1" = Returned nan /\
  _cosineFilter defaultOptions format_model store_ones None "d1" "d9" = Returned nan /\
  _cosineFilter defaultOptions format_model store_ones None "d9" "d9" = Returned nan.
Proof.
  exact (cosineFilter_unindexed defaultOptions format_model store_ones None "d9" "d1"
           ["adj:big"; "1"; "noun:cat"; "1"] eq_refl eq_refl).
Defined.

Lemma cosineFilter_error_witness :
  _cosineFilter defaultOptions format_model (set ∅ "w:d1" "text") None "d1" "d2" = Failed.
Proof.
  apply (cosineFilter_error defaultOptions format_model (set ∅ "w:d1" "text") None
           "d1" "d2" "text").
  left. reflexivity.
Defined.

Lemma TFIDF_tf_one_witness :
  tf (TFIDF defaultOptions log_model format_model store_d1 (Some "d1") "verb:run") = 1%float.
Proof.
  apply (TFIDF_tf_one defaultOptions log_model format_model store_d1 (Some "d1") "verb:run");
    [exact FloatFacts.log_model_special | reflexivity].
Defined.

Lemma TFIDF_missing_pair_witness :
  tfidf (TFIDF defaultOptions log_model format_model store_d1 (Some "d1") "noun:dog") = nan.
Proof.
  destruct (TFIDF_missing_pair defaultOptions log_model format_model store_d1
              "d1" "noun:dog") as (_ & _ & H);
    [exact FloatFacts.log_model_special | reflexivity | reflexivity | exact H].
Defined.

End QueryMore.

(** ** One keyspace, four reserved words *)

Module KeyspaceMore.
Import JS Redis DocumentGraph Spec KeyFacts.

Section WithOptions.

Variable opts : options.

Abbreviation fmt := (_fmt opts).

(** Two names have the same key only when they are the same name. *)
Theorem fmt_injective (a b : string) :
  _fmt opts [Str a] = _fmt opts [Str b] <-> a = b.
Proof. split; [apply fmt_one_inj | intros ->; reflexivity]. Qed.

(** Keys made with two different reserved words never coincide, whatever
    follows the word. *)
Theorem fmt_words_apart (w1 w2 a b : string) :
  In w1 [TOTAL; NEXT; CONTENT; WEIGHT] -> In w2 [TOTAL; NEXT; CONTENT; WEIGHT] ->
  w1 <> w2 -> fmt [Str w1; Str a] <> fmt [Str w2; Str b].
Proof.
  intros H1 H2 Hne.
  destruct H1 as [<- | [<- | [<- | [<- | []]]]];
    destruct H2 as [<- | [<- | [<- | [<- | []]]]];
    try congruence;
    rewrite !fmt_two by reflexivity; intros H;
    destruct (truthy a), (truthy b); apply (inj (String.app _)) in H; discriminate.
Qed.

End WithOptions.

Lemma fmt_words_apart_witness :
  _fmt defaultOptions [Str WEIGHT; Str "d1"] <> _fmt defaultOptions [Str CONTENT; Str "d1"].
Proof.
  apply (fmt_words_apart defaultOptions WEIGHT CONTENT "d1" "d1");
    [right; right; right; left; reflexivity | right; right; left; reflexivity | discriminate].
Defined.

End KeyspaceMore.

(** ** Weight indexing *)

Module IndexMore.
Import JS Redis DocumentGraph Spec.

Lemma zadd_written (st : store) (k m : string) (x : float) :
  PrimFloat.is_nan x = false -> holds_string st k = false ->
  forall k' m',
    zlookup (zadd st k x m).1 k' m'
    = if String.eqb k k' && String.eqb m m' then Some (Weight x) else zlookup st k' m'.
Proof.
  intros Hx Hk k' m'. unfold zadd, holds_string, zlookup in *. rewrite Hx.
  destruct (String.eqb_spec k k') as [<- | Hne]; cbn [andb].
  - destruct (st !! k) as [[s | z] |] eqn:E; [discriminate | |]; cbn [fst];
      rewrite lookup_insert_eq; cbn [value_zlookup];
      destruct (String.eqb_spec m m') as [<- | Hm].
    + apply lookup_insert_eq.
    + apply lookup_insert_ne, Hm.
    + apply lookup_singleton_eq.
    + rewrite lookup_singleton_ne by exact Hm. reflexivity.
  - destruct (st !! k) as [[s | z] |]; [discriminate | |]; cbn [fst];
      rewrite lookup_insert_ne by exact Hne; reflexivity.
Qed.

Lemma zadd_kind (st : store) (k m : string) (x : float) (k' : string) :
  holds_string (zadd st k x m).1 k' = holds_string st k'.
Proof.
  unfold zadd, holds_string. destruct (PrimFloat.is_nan x); [reflexivity |].
  destruct (st !! k) as [[s | z] |] eqn:E; cbn [fst]; try reflexivity;
    (destruct (String.eqb_spec k k') as [<- | Hne];
     [rewrite lookup_insert_eq, E; reflexivity
     | rewrite lookup_insert_ne by exact Hne; reflexivity]).
Qed.

Lemma zadd_member (st : store) (k m : string) (x : float) (k' m' : string) :
  is_Some (zlookup st k' m') -> is_Some (zlookup (zadd st k x m).1 k' m').
Proof.
  intros H. unfold zadd. destruct (PrimFloat.is_nan x); [exact H |].
  unfold zlookup in *.
  destruct (String.eqb_spec k k') as [<- | Hne].
  - destruct (st !! k) as [[s | z] |] eqn:E; cbn [fst]; try exact H.
    + rewrite E. exact H.
    + rewrite lookup_insert_eq. cbn [value_zlookup] in *.
      destruct (String.eqb_spec m m') as [<- | Hm].
      * rewrite lookup_insert_eq. eauto.
      * rewrite lookup_insert_ne by exact Hm. exact H.
    + cbn [value_zlookup] in H. destruct H as [y Hy]. discriminate.
  - destruct (st !! k) as [[s | z] |]; cbn [fst]; try exact H;
      rewrite lookup_insert_ne by exact Hne; exact H.
Qed.

(** ZADD of a member that is there already replies 0. *)
Lemma zadd_present (st : store) (k m : string) (x : float) :
  is_Some (zlookup st k m) -> (zadd st k x m).2 = false.
Proof.
  intros [y Hy]. unfold zadd, zlookup in *. destruct (PrimFloat.is_nan x); [reflexivity |].
  destruct (st !! k) as [[s | z] |]; cbn [value_zlookup] in Hy; try discriminate.
  cbn [snd]. rewrite Hy. reflexivity.
Qed.

Section WithPlatform.

Variable opts : options.
Variable Math_log : float -> float.
Variable format_double : float -> string.

Abbreviation fmt := (_fmt opts).
Abbreviation W x := (_fmt opts [Str WEIGHT; Str x]).

Lemma eqb_weight_key (a b : string) : String.eqb (W a) (W b) = String.eqb a b.
Proof.
  destruct (String.eqb_spec a b) as [-> | Hne]; [apply String.eqb_refl |].
  apply TraceFacts.eqb_false. intros H.
  apply Hne, (IngestMore.fmt_two_inj opts WEIGHT), H. reflexivity.
Qed.

(** The first ZADDs: each term under the weight key of the document. *)
Lemma first_zadds (id : string) (L : list (string * float)) : forall st,
  NoDup L.*1 -> Forall (fun e => PrimFloat.is_nan e.2 = false) L ->
  holds_string st (W id) = false ->
  let st1 := fold_left (fun st e => (zadd st (W id) e.2 e.1).1) L st in
  (forall k, holds_string st1 k = holds_string st k) /\
  (forall e, e ∈ L -> zlookup st1 (W id) e.1 = Some (Weight e.2)) /\
  (forall k m, (k <> W id \/ m ∉ L.*1) -> zlookup st1 k m = zlookup st k m).
Proof.
  induction L as [| e0 L IH]; intros st Hnd Hx Hid; cbv zeta.
  - split; [reflexivity | split]; [intros e He; inversion He | reflexivity].
  - cbn [fmap list_fmap] in Hnd. apply NoDup_cons in Hnd as [Hfresh Hnd].
    apply Forall_cons in Hx as [Hx0 Hx].
    cbn [fold_left].
    assert (holds_string (zadd st (W id) e0.2 e0.1).1 (W id) = false) as Hid'
      by (rewrite zadd_kind; exact Hid).
    destruct (IH _ Hnd Hx Hid') as (Hk & Hin & Hout).
    split; [| split].
    + intros k. rewrite Hk. apply zadd_kind.
    + intros e He. apply elem_of_cons in He as [-> | He]; [| apply Hin, He].
      rewrite Hout by (right; exact Hfresh).
      rewrite zadd_written by assumption. rewrite !String.eqb_refl. reflexivity.
    + intros k m Hkm. rewrite Hout.
      * rewrite zadd_written by assumption.
        destruct (String.eqb_spec (W id) k) as [<- | Hne]; [| reflexivity].
        destruct (String.eqb_spec e0.1 m) as [<- | Hm]; [| reflexivity].
        exfalso. destruct Hkm as [H | H]; [congruence |]. apply H. left.
      * destruct Hkm as [H | H]; [left; exact H | right].
        intros Hm. apply H. right. exact Hm.
Qed.

(** The second ZADDs: the document under the weight key of each term. *)
Lemma second_zadds (id : string) (L : list (string * float)) : forall st,
  NoDup L.*1 -> Forall (fun e => PrimFloat.is_nan e.2 = false) L ->
  Forall (fun e => holds_string st (W e.1) = false) L ->
  let st2 := fold_left (fun st e => (zadd st (W e.1) e.2 id).1) L st in
  (forall e, e ∈ L -> zlookup st2 (W e.1) id = Some (Weight e.2)) /\
  (forall k m, (m <> id \/ forall e, e ∈ L -> k <> W e.1) ->
     zlookup st2 k m = zlookup st k m).
Proof.
  induction L as [| e0 L IH]; intros st Hnd Hx Hs; cbv zeta.
  - split; [intros e He; inversion He | reflexivity].
  - cbn [fmap list_fmap] in Hnd. apply NoDup_cons in Hnd as [Hfresh Hnd].
    apply Forall_cons in Hx as [Hx0 Hx]. apply Forall_cons in Hs as [Hs0 Hs].
    cbn [fold_left].
    assert (Forall (fun e => holds_string (zadd st (W e0.1) e0.2 id).1 (W e.1) = false) L)
      as Hs'.
    { eapply Forall_impl; [exact Hs |]. intros e He. cbn beta in *.
      rewrite zadd_kind. exact He. }
    destruct (IH _ Hnd Hx Hs') as (Hin & Hout).
    split.
    + intros e He. apply elem_of_cons in He as [-> | He]; [| apply Hin, He].
      rewrite Hout.
      * rewrite zadd_written by assumption. rewrite !String.eqb_refl. reflexivity.
      * right. intros e He Heq. apply Hfresh.
        apply (IngestMore.fmt_two_inj opts WEIGHT) in Heq; [| reflexivity].
        rewrite Heq. apply list_elem_of_fmap. exists e. split; [reflexivity | exact He].
    + intros k m Hkm. rewrite Hout.
      * rewrite zadd_written by assumption.
        destruct (String.eqb_spec (W e0.1) k) as [<- | Hne]; [| reflexivity].
        destruct (String.eqb_spec id m) as [<- | Hm]; [| reflexivity].
        exfalso. destruct Hkm as [H | H]; [congruence |]. apply (H e0); [left | reflexivity].
      * destruct Hkm as [H | H]; [left; exact H | right].
        intros e He. apply H. right. exact He.
Qed.

Lemma second_zadds_store (id : string) (L : list (string * float)) : forall st b,
  (fold_left
     (fun (acc : store * bool) (e : string * float) =>
        let '(st', ok) := zadd acc.1 (W e.1) e.2 id in (st', acc.2 && ok))
     L (st, b)).1
  = fold_left (fun st e => (zadd st (W e.1) e.2 id).1) L st.
Proof.
  induction L as [| e L IH]; intros st b; [reflexivity |].
  cbn [fold_left fst snd]. destruct (zadd st (W e.1) e.2 id) as [st' ok] eqn:E.
  rewrite IH. reflexivity.
Qed.

(** When no score is NaN and no weight key holds a string, [_computeWeights]
    leaves the score of every term on both sides: under the document's weight
    key for the term, and under the term's weight key for the document. *)
Theorem computeWeights_both_sides (st : store) (id : string) (terms : list string) :
  NoDup terms ->
  Forall (fun t => PrimFloat.is_nan (tfidf (TFIDF opts Math_log format_double st (Some id) t))
                   = false) terms ->
  holds_string st (W id) = false ->
  Forall (fun t => holds_string st (W t) = false) terms ->
  let st' := (_computeWeights opts Math_log format_double st id terms).1 in
  forall t, t ∈ terms ->
    zlookup st' (W id) t
      = Some (Weight (tfidf (TFIDF opts Math_log format_double st (Some id) t))) /\
    zlookup st' (W t) id
      = Some (Weight (tfidf (TFIDF opts Math_log format_double st (Some id) t))).
Proof.
  intros Hnd Hx Hid Hs st' t Ht. subst st'. unfold _computeWeights.
  set (score := fun t => tfidf (TFIDF opts Math_log format_double st (Some id) t)) in *.
  set (L := (fun item => (item, score item)) <$> terms).
  assert (L.*1 = terms) as HL1.
  { subst L. rewrite <- list_fmap_compose. apply list_fmap_id. }
  assert (NoDup L.*1) as HndL by (rewrite HL1; exact Hnd).
  assert (Forall (fun e => PrimFloat.is_nan e.2 = false) L) as HxL.
  { subst L. apply Forall_fmap. eapply Forall_impl; [exact Hx |]. intros x Hx'. exact Hx'. }
  assert ((t, score t) ∈ L) as HtL.
  { subst L. apply list_elem_of_fmap. exists t. split; [reflexivity | exact Ht]. }
  rewrite second_zadds_store.
  destruct (first_zadds id L st HndL HxL Hid) as (Hk1 & Hin1 & Hout1).
  set (st1 := fold_left (fun st e => (zadd st (W id) e.2 e.1).1) L st) in *.
  assert (Forall (fun e => holds_string st1 (W e.1) = false) L) as HsL.
  { subst L. apply Forall_fmap. eapply Forall_impl; [exact Hs |].
    intros x Hx'. cbn. rewrite Hk1. exact Hx'. }
  destruct (second_zadds id L st1 HndL HxL HsL) as (Hin2 & Hout2).
  split; [| exact (Hin2 _ HtL)].
  destruct (String.eqb_spec t id) as [-> | Hne].
  - exact (Hin2 _ HtL).
  - rewrite Hout2 by (left; exact Hne). exact (Hin1 _ HtL).
Qed.

(** A term under whose weight key the document is listed already makes
    [_computeWeights] hand false to its callback: indexing a document a second
    time reports failure. *)
Theorem computeWeights_again (st : store) (id : string) (terms : list string) (t : string) :
  t ∈ terms -> is_Some (zlookup st (W t) id) ->
  (_computeWeights opts Math_log format_double st id terms).2 = false.
Proof.
  intros Ht Hm. unfold _computeWeights.
  set (L := (fun item => (item, _)) <$> terms).
  assert (exists x, (t, x) ∈ L) as [x HtL].
  { eexists. subst L. apply list_elem_of_fmap. exists t. split; [reflexivity | exact Ht]. }
  assert (forall L' st0, (forall k m, is_Some (zlookup st k m) -> is_Some (zlookup st0 k m)) ->
            forall k m, is_Some (zlookup st k m) ->
              is_Some (zlookup (fold_left (fun st e => (zadd st (W id) e.2 e.1).1) L' st0) k m))
    as Hfirst.
  { induction L' as [| e L' IH]; intros st0 H0 k m Hkm; [apply H0, Hkm |].
    cbn [fold_left]. apply IH; [| exact Hkm]. intros k' m' H'. apply zadd_member, H0, H'. }
  set (st1 := fold_left _ L st).
  assert (is_Some (zlookup st1 (W t) id)) as H1 by (apply Hfirst; [tauto | exact Hm]).
  clearbody st1. clear Hfirst Hm.
  revert st1 H1.
  induction L as [| e L IH]; intros st1 H1; [inversion HtL |].
  assert (forall L' st0, (fold_left
                            (fun (acc : store * bool) (e : string * float) =>
                               let '(st', ok) := zadd acc.1 (W e.1) e.2 id in
                               (st', acc.2 && ok)) L' (st0, false)).2 = false) as Hfalse.
  { induction L' as [| e' L' IH']; intros st0; [reflexivity |].
    cbn [fold_left fst snd]. destruct (zadd st0 (W e'.1) e'.2 id) as [st' ok]. apply IH'. }
  cbn [fold_left fst snd].
  destruct (zadd st1 (W e.1) e.2 id) as [st' ok] eqn:E.
  apply elem_of_cons in HtL as [<- | HtL].
  - cbn [fst snd] in E. pose proof (zadd_present st1 (W t) id x H1) as Hp.
    rewrite E in Hp. cbn [snd] in Hp. subst ok. apply Hfalse.
  - destruct ok; [| apply Hfalse].
    apply (IH HtL). replace st' with (zadd st1 (W e.1) e.2 id).1 by (rewrite E; reflexivity).
    apply zadd_member, H1.
Qed.

End WithPlatform.

Lemma computeWeights_both_sides_witness :
  zlookup (_computeWeights defaultOptions log_model format_model store_d1 "d1"
             ["noun:cat"; "verb:run"]).1
    (_fmt defaultOptions [Str WEIGHT; Str "d1"]) "verb:run"
    = Some (Weight (tfidf (TFIDF defaultOptions log_model format_model store_d1
                             (Some "d1") "verb:run"))) /\
  zlookup (_computeWeights defaultOptions log_model format_model store_d1 "d1"
             ["noun:cat"; "verb:run"]).1
    (_fmt defaultOptions [Str WEIGHT; Str "verb:run"]) "d1"
    = Some (Weight (tfidf (TFIDF defaultOptions log_model format_model store_d1
                             (Some "d1") "verb:run"))).
Proof.
  refine (computeWeights_both_sides defaultOptions log_model format_model store_d1 "d1"
            ["noun:cat"; "verb:run"] _ _ _ _ "verb:run" _).
  - apply NoDup_cons. split; [| apply NoDup_singleton].
    intros H. apply list_elem_of_singleton in H. discriminate.
  - repeat apply Forall_cons_2; [| | apply Forall_nil_2]; vm_compute; reflexivity.
  - vm_compute. reflexivity.
  - repeat apply Forall_cons_2; [| | apply Forall_nil_2]; vm_compute; reflexivity.
  - apply list_elem_of_further, list_elem_of_here.
Defined.

Lemma computeWeights_again_witness :
  (_computeWeights defaultOptions log_model format_model store_ones "noun:cat" ["d1"]).2
  = false.
Proof.
  refine (computeWeights_again defaultOptions log_model format_model store_ones "noun:cat"
            ["d1"] "d1" _ _).
  - apply list_elem_of_here.
  - exists (Weight 1). vm_compute. reflexivity.
Defined.

End IndexMore.

(** ** The concept filter *)

Module FilterMore.
Import JS Redis DocumentGraph Spec.

Section WithPlatform.

Variable opts : options.
Variable format_double : float -> string.

Abbreviation W x := (_fmt opts [Str WEIGHT; Str x]).

Lemma cosineScores_pass (fp : option (list string)) (l : list (string * score)) :
  Forall (fun e => _isIdFiltered fp e.1 = false) l ->
  forall acc,
    cosineScores fp (withscores format_double l) acc
    = cosineScores None (withscores format_double l) acc.
Proof.
  induction 1 as [| e l He _ IH]; intros acc; [reflexivity |].
  change (withscores format_double (e :: l))
    with (e.1 :: format_score format_double e.2 :: withscores format_double l).
  cbn [cosineScores]. rewrite IH. f_equal. unfold cosineStep. rewrite He. reflexivity.
Qed.

Lemma cosine_pass (fp : option (list string)) (l1 l2 : list (string * score)) :
  Forall (fun e => _isIdFiltered fp e.1 = false) l1 ->
  Forall (fun e => _isIdFiltered fp e.1 = false) l2 ->
  cosine fp (withscores format_double l1) (withscores format_double l2)
  = cosine None (withscores format_double l1) (withscores format_double l2).
Proof.
  intros H1 H2. unfold cosine. rewrite (cosineScores_pass fp l1 H1).
  destruct (cosineScores None (withscores format_double l1) (∅, [], 0%float))
    as [[sc1 ids1] s1].
  rewrite (cosineScores_pass fp l2 H2). reflexivity.
Qed.

(** ZRANGE with and without WITHSCORES read the same entries. *)
Lemma zrange_both (st : store) (k : string) (r : list string) :
  zrange st k 0 (-1) = Some r ->
  exists l, r = l.*1 /\
    zrange_withscores format_double st k 0 (-1) = Some (withscores format_double l).
Proof.
  unfold zrange, zrange_withscores.
  destruct (zentries st k) as [l |]; cbn [fmap option_fmap option_map]; [| discriminate].
  rewrite ZSetFacts.range_all. intros H. injection H as <-. exists l. split; reflexivity.
Qed.

(** The filter of [CosineConceptSimilarity] is a test for an occurrence of
    noun or adj anywhere in the member; when every member of the two weight
    sets passes it, the concept similarity is the plain similarity. *)
Theorem concept_unfiltered (st : store) (id1 id2 : string) (r1 r2 : list string) :
  zrange st (W id1) 0 (-1) = Some r1 -> zrange st (W id2) 0 (-1) = Some r2 ->
  Forall (fun m => includes "noun" m = true \/ includes "adj" m = true) (r1 ++ r2) ->
  CosineConceptSimilarity opts format_double st id1 id2
  = CosineSimilarity opts format_double st id1 id2.
Proof.
  intros H1 H2 Hall. apply Forall_app in Hall as [Ha1 Ha2].
  apply zrange_both in H1 as (l1 & -> & E1). apply zrange_both in H2 as (l2 & -> & E2).
  unfold CosineConceptSimilarity, CosineSimilarity, _cosineFilter. rewrite E1, E2.
  assert (forall l : list (string * score),
            Forall (fun m => includes "noun" m = true \/ includes "adj" m = true) l.*1 ->
            Forall (fun e => _isIdFiltered (Some ["noun"; "adj"]) e.1 = false) l) as Hpass.
  { intros l Hl. apply Forall_fmap in Hl. eapply Forall_impl; [exact Hl |].
    intros e He. cbn in He. unfold _isIdFiltered. cbn [existsb].
    destruct He as [-> | ->]; [reflexivity |].
    rewrite orb_true_r. reflexivity. }
  apply cosine_pass; apply Hpass; assumption.
Qed.

(** A member that has neither noun nor adj in it counts for nothing in
    [CosineConceptSimilarity]: the similarity is the one of the store without
    it. *)
Theorem concept_drops (fp : option (list string)) (l1 l1' l2 : list (string * score))
    (e : string * score) :
  _isIdFiltered fp e.1 = true ->
  cosine fp (withscores format_double (l1 ++ e :: l1')) (withscores format_double l2)
  = cosine fp (withscores format_double (l1 ++ l1')) (withscores format_double l2).
Proof.
  intros He. unfold cosine.
  rewrite !CosineFacts.cosineScores_withscores.
  assert (keptEntries fp (l1 ++ e :: l1') = keptEntries fp (l1 ++ l1')) as ->; [| reflexivity].
  unfold keptEntries. rewrite !List.filter_app. cbn [List.filter]. rewrite He. reflexivity.
Qed.

End WithPlatform.

Lemma concept_unfiltered_witness :
  CosineConceptSimilarity defaultOptions format_model store_ones "d1" "d1"
  = CosineSimilarity defaultOptions format_model store_ones "d1" "d1".
Proof.
  refine (concept_unfiltered defaultOptions format_model store_ones "d1" "d1"
            ["adj:big"; "noun:cat"] ["adj:big"; "noun:cat"] _ _ _).
  - vm_compute. reflexivity.
  - vm_compute. reflexivity.
  - repeat apply Forall_cons_2; try apply Forall_nil_2;
      solve [left; reflexivity | right; reflexivity].
Defined.

Lemma concept_drops_witness :
  cosine (Some ["noun"; "adj"])
    (withscores format_model ([("noun:cat", Count 2)] ++ ("verb:run", Count 1) :: []))
    (withscores format_model [("noun:cat", Count 1)])
  = cosine (Some ["noun"; "adj"])
      (withscores format_model ([("noun:cat", Count 2)] ++ []))
      (withscores format_model [("noun:cat", Count 1)]).
Proof.
  refine (concept_drops format_model (Some ["noun"; "adj"]) [("noun:cat", Count 2)] []
            [("noun:cat", Count 1)] ("verb:run", Count 1) _).
  reflexivity.
Defined.

End FilterMore.

(** ** Names a plain object does not treat as keys *)

Module ObjectMore.
Import JS Redis DocumentGraph Spec.

(** A document id [__proto__] is listed once for every term that fetches it
    and gets no score. *)
Example search_proto :
  search defaultOptions format_model
    (zadd (zadd (zadd ∅ "w:noun:cat" 1.5 "__proto__").1 "w:noun:cat" 0.5 "d2").1
       "w:adj:big" 1 "__proto__").1
    ["noun:cat"; "adj:big"] None
  = Returned (["__proto__"; "d2"; "__proto__"], {["d2" := 0.5%float]}).
Proof. vm_compute. reflexivity. Qed.

(** After a document id [hasOwnProperty] has got its score, the next entry
    makes [search] throw. *)
Example search_shadowed :
  search defaultOptions format_model
    (zadd (zadd ∅ "w:noun:cat" 1.5 "hasOwnProperty").1 "w:noun:cat" 0.5 "d2").1
    ["noun:cat"] None
  = Thrown.
Proof. vm_compute. reflexivity. Qed.

(** A member [__proto__] counts in the sum of squares and not in the dot
    product: alone in its set it makes the similarity of the document to
    itself 0. *)
Example cosine_proto :
  CosineSimilarity defaultOptions format_model (zadd ∅ "w:d1" 3 "__proto__").1 "d1" "d1"
  = Returned 0%float.
Proof. vm_compute. reflexivity. Qed.

(** [_cosineFilter] throws, and calls nothing back, exactly when the first
    document has a member named hasOwnProperty that passes the filter, or has
    some member that passes the filter other than [__proto__] while the second
    document has such a member named hasOwnProperty. *)
Theorem cosineFilter_throws (opts : options) (format_double : float -> string)
    (st : store) (fp : option (list string)) (id1 id2 : string) (r1 r2 : list string) :
  zrange_withscores format_double st (_fmt opts [Str WEIGHT; Str id1]) 0 (-1) = Some r1 ->
  zrange_withscores format_double st (_fmt opts [Str WEIGHT; Str id2]) 0 (-1) = Some r2 ->
  _cosineFilter opts format_double st fp id1 id2 = Thrown
  <-> "hasOwnProperty" ∈ ownNames fp r1
      \/ ownNames fp r1 <> [] /\ "hasOwnProperty" ∈ ownNames fp r2.
Proof.
  intros H1 H2. unfold _cosineFilter. rewrite H1, H2.
  pose proof (CosineFacts.cosine_shape fp r1 r2) as Hs. unfold cosineThrows in Hs.
  rewrite <- !CosineFacts.existsb_eqb_elem.
  destruct (existsb (String.eqb "hasOwnProperty") (ownNames fp r1)); cbn [orb] in Hs.
  - split; [auto | intros _; exact Hs].
  - destruct (ownNames fp r1) as [| k own]; cbn [andb] in Hs.
    + destruct Hs as [d ->]. split; [discriminate |].
      intros [H | [H _]]; [discriminate | congruence].
    + destruct (existsb (String.eqb "hasOwnProperty") (ownNames fp r2)).
      * split; [intros _; right; split; [discriminate | reflexivity] | intros _; exact Hs].
      * destruct Hs as [d ->]. split; [discriminate |].
        intros [H | [_ H]]; discriminate.
Qed.

Lemma cosineFilter_throws_witness :
  _cosineFilter defaultOptions format_model
    (zadd (zadd ∅ "w:d1" 1 "noun:cat").1 "w:d2" 3 "hasOwnProperty").1 None "d1" "d2"
  = Thrown.
Proof.
  apply (cosineFilter_throws defaultOptions format_model
           (zadd (zadd ∅ "w:d1" 1 "noun:cat").1 "w:d2" 3 "hasOwnProperty").1 None "d1" "d2"
           ["noun:cat"; "1"] ["hasOwnProperty"; "3"]); [reflexivity | reflexivity |].
  right. split; [discriminate |]. apply list_elem_of_here.
Defined.

(** A member [hasOwnProperty] makes the similarity of the document to itself
    throw. *)
Example cosine_shadowed :
  CosineSimilarity defaultOptions format_model (zadd ∅ "w:d1" 3 "hasOwnProperty").1 "d1" "d1"
  = Thrown.
Proof. vm_compute. reflexivity. Qed.

End ObjectMore.
